(** * Video Sorcerer: the canvas export pipeline

    A shallow embedding of the export code of the video editor component
    ([src/components/video-edit.tsx], its earlier variant without a format
    selector, and the two workers in [src/lib]) together with the properties
    of the timestamp arithmetic, the progress channel, the output
    dimensions, the download name and the clean-up that the design document
    states.

    Numbers.  The component computes with JavaScript numbers, which are
    binary64 floating-point numbers.  They are modelled by [JsNumber]: the
    rational value of a finite number, or one of the three special values
    [+Infinity], [-Infinity], [NaN].  Addition, multiplication and
    division round their exact result to the nearest binary64 number, ties
    to even, with gradual underflow and with overflow to the infinities
    ([rnd]); [Math.ceil] and [Math.round] are exact.  The sign of zero is
    outside the model. *)

From Stdlib Require Import ZArith QArith Qround Qreduction Qpower.
From Stdlib Require Import Lia Lqa List Bool.
From Stdlib Require Import String Ascii DecimalString.
Import ListNotations.

Local Open Scope Z_scope.

(* ------------------------------------------------------------------ *)
(** ** JavaScript numbers *)

Module JsNum.

Inductive JsNumber : Type :=
| Fin (q : Q)
| PosInf
| NegInf
| NaN.

(** An integer as a number.  Integers of magnitude up to [2^53] are
    binary64 numbers; the component has no larger integer constant, and
    the properties below are stated for counts read from the browser
    (frame rate, video dimensions, file size) that are binary64
    integers. *)
Definition of_Z (z : Z) : JsNumber := Fin (inject_Z z).
Definition of_nat (n : nat) : JsNumber := of_Z (Z.of_nat n).
Definition of_N (n : N) : JsNumber := of_Z (Z.of_N n).

(** Sign of a rational as a comparison with zero. *)
Definition Qsign (q : Q) : comparison := (q ?= 0)%Q.

Definition inf_of_sign (c : comparison) : JsNumber :=
  match c with
  | Gt => PosInf
  | Lt => NegInf
  | Eq => NaN
  end.

Definition flip (c : comparison) : comparison := CompOpp c.

(** *** Rounding to binary64 *)

(** [2^e] *)
Definition pow2 (e : Z) : Q := Qpower 2 e.

(** The binary exponent of a positive rational: [2^k <= a < 2^(k+1)]. *)
Definition Qlog2 (a : Q) : Z :=
  let k := Z.log2 (Qnum a) - Z.log2 (Z.pos (Qden a)) in
  if Qle_bool (pow2 k) a then k else k - 1.

(** The integer nearest to a rational, ties to the even one. *)
Definition rhe (x : Q) : Z :=
  let f := Qfloor x in
  match (x - inject_Z f ?= 1 # 2)%Q with
  | Lt => f
  | Gt => f + 1
  | Eq => if Z.even f then f else f + 1
  end.

(** The exponent of the unit in the last place of a positive rational:
    53 significant bits, and never below the subnormal unit [2^-1074]. *)
Definition ulp_exponent (a : Q) : Z := Z.max (Qlog2 a - 52) (-1074).

(** A positive rational rounded to a whole number of units in the last
    place. *)
Definition round_pos (a : Q) : Q :=
  (inject_Z (rhe (a / pow2 (ulp_exponent a))) * pow2 (ulp_exponent a))%Q.

(** The binary64 number nearest to a rational (round to nearest, ties to
    even); a rounded magnitude of [2^1024] or more overflows. *)
Definition rnd (q : Q) : JsNumber :=
  match (q ?= 0)%Q with
  | Eq => Fin 0
  | Gt => let r := round_pos q in
          if Qle_bool (pow2 1024) r then PosInf else Fin (Qred r)
  | Lt => let r := round_pos (- q) in
          if Qle_bool (pow2 1024) r then NegInf else Fin (Qred (- r))
  end.

(** A number the browser can hand to the component: finite values are
    binary64 numbers. *)
Definition is_double (a : JsNumber) : Prop :=
  match a with
  | Fin q => rnd q = Fin q
  | _ => True
  end.

(** [a + b] *)
Definition add (a b : JsNumber) : JsNumber :=
  match a, b with
  | NaN, _ | _, NaN => NaN
  | Fin x, Fin y => rnd (x + y)
  | PosInf, NegInf | NegInf, PosInf => NaN
  | PosInf, _ | _, PosInf => PosInf
  | NegInf, _ | _, NegInf => NegInf
  end.

(** [a * b] *)
Definition mul (a b : JsNumber) : JsNumber :=
  match a, b with
  | NaN, _ | _, NaN => NaN
  | Fin x, Fin y => rnd (x * y)
  | Fin x, PosInf | PosInf, Fin x => inf_of_sign (Qsign x)
  | Fin x, NegInf | NegInf, Fin x => inf_of_sign (flip (Qsign x))
  | PosInf, PosInf | NegInf, NegInf => PosInf
  | PosInf, NegInf | NegInf, PosInf => NegInf
  end.

(** [a / b]; a zero divisor counts as positive zero. *)
Definition div (a b : JsNumber) : JsNumber :=
  match a, b with
  | NaN, _ | _, NaN => NaN
  | Fin x, Fin y =>
      match Qsign y with
      | Eq => inf_of_sign (Qsign x)
      | _ => rnd (x / y)
      end
  | Fin _, PosInf | Fin _, NegInf => Fin 0
  | PosInf, Fin y =>
      match Qsign y with Lt => NegInf | _ => PosInf end
  | NegInf, Fin y =>
      match Qsign y with Lt => PosInf | _ => NegInf end
  | _, _ => NaN
  end.

(** [Math.ceil]: exact, the result of a finite number is an integer. *)
Definition ceil (a : JsNumber) : JsNumber :=
  match a with
  | Fin x => of_Z (Qceiling x)
  | other => other
  end.

(** [Math.round]: the nearest integer, ties towards [+Infinity]; exact. *)
Definition round (a : JsNumber) : JsNumber :=
  match a with
  | Fin x => of_Z (Qfloor (x + (1 # 2)))
  | other => other
  end.

(** [a < b] *)
Definition ltb (a b : JsNumber) : bool :=
  match a, b with
  | NaN, _ | _, NaN => false
  | Fin x, Fin y => match (x ?= y)%Q with Lt => true | _ => false end
  | NegInf, NegInf => false
  | NegInf, _ => true
  | _, PosInf => match a with PosInf => false | _ => true end
  | _, _ => false
  end.

(** [a > b] *)
Definition gtb (a b : JsNumber) : bool := ltb b a.

(** [a <= b] *)
Definition leb (a b : JsNumber) : bool :=
  match a, b with
  | NaN, _ | _, NaN => false
  | Fin x, Fin y => match (x ?= y)%Q with Gt => false | _ => true end
  | NegInf, _ => true
  | _, PosInf => true
  | _, _ => false
  end.

(** Truthiness of a number: everything but zero and [NaN]. *)
Definition truthy (a : JsNumber) : bool :=
  match a with
  | Fin x => match Qsign x with Eq => false | _ => true end
  | NaN => false
  | _ => true
  end.

(** [a || b] on numbers. *)
Definition or_else (a b : JsNumber) : JsNumber :=
  if truthy a then a else b.

End JsNum.

Import JsNum.

(* ------------------------------------------------------------------ *)
(** ** Export options *)

(** [type VideoFilter = 'none' | 'sepia' | 'grayscale' | 'invert'] *)
Inductive VideoFilter : Type := FilterNone | Sepia | Grayscale | Invert.

(** [type Resolution = '1080p' | '720p' | '540p'] *)
Inductive Resolution : Type := R1080p | R720p | R540p.

(** [type Format = 'webm' | 'mp4'] *)
Inductive Format : Type := Webm | Mp4.

Local Open Scope string_scope.

Definition filter_name (f : VideoFilter) : string :=
  match f with
  | FilterNone => "none"
  | Sepia => "sepia"
  | Grayscale => "grayscale"
  | Invert => "invert"
  end.

Definition resolution_name (r : Resolution) : string :=
  match r with
  | R1080p => "1080p"
  | R720p => "720p"
  | R540p => "540p"
  end.

Definition format_name (f : Format) : string :=
  match f with
  | Webm => "webm"
  | Mp4 => "mp4"
  end.

(** The two variants of the editor component.  [WithFormat] is
    [components/video-edit.tsx]; [WebmOnly] is the earlier variant, which
    has no format selector, no audio track and does not record the
    dimensions of the source. *)
Inductive Flow : Type := WithFormat | WebmOnly.

(* ------------------------------------------------------------------ *)
(** ** Output dimensions *)

Record Dimensions : Type := { width : JsNumber; height : JsNumber }.

Definition dims (wd ht : Z) : Dimensions :=
  {| width := of_Z wd; height := of_Z ht |}.

Definition resolution_height (r : Resolution) : Z :=
  match r with
  | R1080p => 1080
  | R720p => 720
  | R540p => 540
  end.

(** [const aspectRatio = videoWidth / videoHeight || 16 / 9] in
    [video-edit.tsx]; [const aspectRatio = 16 / 9] in the earlier variant. *)
Definition aspectRatio (flow : Flow) (videoWidth videoHeight : N) : JsNumber :=
  match flow with
  | WithFormat =>
      or_else (div (of_N videoWidth) (of_N videoHeight))
              (div (of_Z 16) (of_Z 9))
  | WebmOnly => div (of_Z 16) (of_Z 9)
  end.

Definition getCanvasDimensions
  (flow : Flow) (videoWidth videoHeight : N) (resolution : Resolution)
  : Dimensions :=
  let aspect := aspectRatio flow videoWidth videoHeight in
  let h := of_Z (resolution_height resolution) in
  {| width := round (mul h aspect); height := h |}.

(* ------------------------------------------------------------------ *)
(** ** The filter worker ([lib/canvas.worker.ts]) *)

(** The [switch (filter)] of the worker, also [applyCanvasFilter] of the
    component: the value assigned to [ctx.filter]. *)
Definition canvas_filter (f : VideoFilter) : string :=
  match f with
  | Sepia => "sepia(100%)"
  | Grayscale => "grayscale(100%)"
  | Invert => "invert(100%)"
  | FilterNone => "none"
  end.

(** One RGBA8 pixel; a channel is a byte when it lies in [0, 255]. *)
Record Pixel : Type := { red : Z; green : Z; blue : Z; alpha : Z }.

Definition is_byte (c : Z) : Prop := 0 <= c <= 255.

Definition valid_pixel (p : Pixel) : Prop :=
  is_byte (red p) /\ is_byte (green p) /\ is_byte (blue p) /\ is_byte (alpha p).

(** The pixel arithmetic.  The source only names the filter
    ([ctx.filter = 'grayscale(100%)'] and the like) and leaves the
    arithmetic to the canvas of the browser; the definitions below take it
    from the design document. *)

(** Modelled from the spec: saturation of a channel value to [0, 255]
    ("clamp, never wrap"). *)
Definition clamp (c : Z) : Z := Z.max 0 (Z.min 255 c).

(** Modelled from the spec: rounding of a rational channel value to an
    integer (ties upwards, as [Math.round]), then saturation. *)
Definition to_channel (q : Q) : Z := clamp (Qfloor (q + (1 # 2))).

(** Modelled from the spec: a row of a colour matrix applied to the three
    colour channels of a pixel. *)
Definition mix (cr cg cb : Q) (p : Pixel) : Q :=
  (cr * inject_Z (red p) + cg * inject_Z (green p) + cb * inject_Z (blue p))%Q.

(** Modelled from the spec: the luma [0.299 R + 0.587 G + 0.114 B],
    rounded, of the grayscale kernel that the browser applies for
    ['grayscale(100%)']. *)
Definition luma (p : Pixel) : Z :=
  to_channel (mix (299 # 1000) (587 # 1000) (114 # 1000) p).

(** Modelled from the spec: the grayscale kernel, [(luma, luma, luma, A)];
    the source only selects it by name. *)
Definition grayscale (p : Pixel) : Pixel :=
  {| red := luma p; green := luma p; blue := luma p; alpha := alpha p |}.

(** Modelled from the spec: the invert kernel,
    [(255 - R, 255 - G, 255 - B, A)]; the source only selects it by name. *)
Definition invert (p : Pixel) : Pixel :=
  {| red := clamp (255 - red p);
     green := clamp (255 - green p);
     blue := clamp (255 - blue p);
     alpha := alpha p |}.

(** Modelled from the spec: the sepia kernel, the 3 x 3 matrix whose
    coefficients also appear in the [colorchannelmixer] command of
    [lib/ffmpeg.worker.ts]; each channel rounded and saturated. *)
Definition sepia (p : Pixel) : Pixel :=
  {| red := to_channel (mix (393 # 1000) (769 # 1000) (189 # 1000) p);
     green := to_channel (mix (349 # 1000) (686 # 1000) (168 # 1000) p);
     blue := to_channel (mix (272 # 1000) (534 # 1000) (131 # 1000) p);
     alpha := alpha p |}.

(** Modelled from the spec: what the canvas of the browser does to one
    pixel when a frame is drawn through [ctx.filter = s], for the four
    values the worker assigns.  The storage of the canvas (premultiplied
    alpha, which can change the colour bytes of a pixel that is not
    opaque between [drawImage] and [getImageData]) belongs to the browser
    and is not modelled: with the filter [none] a pixel is returned as it
    came. *)
Definition draw_filtered (s : string) (p : Pixel) : Pixel :=
  if String.eqb s "sepia(100%)" then sepia p
  else if String.eqb s "grayscale(100%)" then grayscale p
  else if String.eqb s "invert(100%)" then invert p
  else p.

(** A frame buffer is the flat list of the channel bytes, four per pixel. *)
Fixpoint pixels_of (data : list Z) : list Pixel :=
  match data with
  | r :: g :: b :: a :: rest =>
      {| red := r; green := g; blue := b; alpha := a |} :: pixels_of rest
  | _ => []
  end.

Fixpoint bytes_of (ps : list Pixel) : list Z :=
  match ps with
  | [] => []
  | p :: rest => red p :: green p :: blue p :: alpha p :: bytes_of rest
  end.

(** The message the component posts for each frame. *)
Record FrameMessage : Type := {
  frameImageData : list Z;
  msg_width : nat;
  msg_height : nat;
  msg_filter : VideoFilter
}.

(** [self.onmessage] of the worker.  [new ImageData(data, width, height)]
    throws unless the buffer is not empty and holds exactly
    [4 * width * height] bytes (an empty buffer, and so a width or height
    of zero, is refused); the worker then posts nothing ([None]).
    Otherwise it posts the buffer of the frame drawn through the
    filter. *)
Definition onmessage (m : FrameMessage) : option (list Z) :=
  if Nat.eqb (List.length (frameImageData m)) (4 * msg_width m * msg_height m)
     && negb (Nat.eqb (List.length (frameImageData m)) 0)
  then Some (bytes_of (map (draw_filtered (canvas_filter (msg_filter m)))
                           (pixels_of (frameImageData m))))
  else None.

(** A message that differs in its buffer only. *)
Definition with_data (m : FrameMessage) (data : list Z) : FrameMessage :=
  {| frameImageData := data; msg_width := msg_width m;
     msg_height := msg_height m; msg_filter := msg_filter m |}.

(* ------------------------------------------------------------------ *)
(** ** The ffmpeg worker ([lib/ffmpeg.worker.ts]) and its listener *)

(** The [-vf] argument chosen by the worker. *)
Definition filterCmd (f : VideoFilter) : string :=
  match f with
  | Sepia => "colorchannelmixer=.393:.769:.189:0:.349:.686:.168:0:.272:.534:.131"
  | Grayscale => "format=gray"
  | Invert => "negate"
  | FilterNone => ""
  end.

Definition command (f : VideoFilter) : list string :=
  match f with
  | FilterNone => ["-i"; "input.mp4"; "output.mp4"]
  | _ => ["-i"; "input.mp4"; "-vf"; filterCmd f; "output.mp4"]
  end.

(** A message of the worker: [{ progress }], or the last one,
    [{ url, progress }]. *)
Inductive WorkerMessage : Type :=
| ProgressMessage (progress : JsNumber)
| DoneMessage (url : string) (progress : JsNumber).

(** The messages of one job: the progress events of ffmpeg, forwarded as
    they come, then [{ url, progress: 100 }]. *)
Definition worker_messages (events : list JsNumber) (url : string)
  : list WorkerMessage :=
  map ProgressMessage events ++ [DoneMessage url (of_Z 100)].

Definition message_progress (m : WorkerMessage) : JsNumber :=
  match m with
  | ProgressMessage p => p
  | DoneMessage _ p => p
  end.

(** The calls of [setProgress] made by [workerRef.current.onmessage] of
    the component: [setProgress(event.data.progress * 100)], and
    [setProgress(null)] when the message carries a url. *)
Definition listener_progress (m : WorkerMessage) : list (option JsNumber) :=
  match m with
  | ProgressMessage p => [Some (mul p (of_Z 100))]
  | DoneMessage _ p => [Some (mul p (of_Z 100)); None]
  end.

(* ------------------------------------------------------------------ *)
(** ** The export job ([exportVideo]) *)

Local Open Scope list_scope.

(** What the browser does with the work of one loop iteration.  A seek
    whose [seeked] event never fires and a worker that never answers leave
    the awaited promise pending for ever; drawing, reading back or writing
    the frame may throw. *)
Inductive FrameEvent : Type :=
| FrameOk
| SeekStalls
| CaptureThrows
| WorkerStalls
| PushThrows.

(** The state of the component that [exportVideo] reads, and the browser
    around it. *)
Record World : Type := {
  videoFile : bool;             (* a file has been chosen *)
  videoRef : bool;              (* [videoRef.current] is set *)
  downloadRef : bool;           (* [downloadRef.current] is set *)
  filter : VideoFilter;
  fps : N;
  resolution : Resolution;
  format : Format;
  videoWidth : N;
  videoHeight : N;
  duration : JsNumber;          (* [videoRef.current.duration] *)
  tempCtx : bool;               (* [tempCanvas.getContext('2d')] is not null *)
  outputCtx : bool;             (* [outputCanvas.getContext('2d')] is not null *)
  audioDecodes : bool;          (* fetch and [decodeAudioData] succeed *)
  recorderAccepts : bool;       (* [new MediaRecorder] accepts the mime type *)
  frameEvent : nat -> FrameEvent;
  cancelRequested : nat -> bool (* the user wants the job abandoned by the
                                   time iteration [i] starts; the component
                                   has no control, state or ref for it *)
}.

(** The frame rates the selector of the component offers (both
    variants); the state starts at 30. *)
Definition offered_fps : list N := [30; 60; 120]%N.

(** The observable actions of [exportVideo], in program order. *)
Inductive Effect : Type :=
| SetExporting (b : bool)
| SetExportProgress (p : option JsNumber)
| InitWorker
| TempCanvas (d : Dimensions)
| OutputCanvas (d : Dimensions)
| WarnNoAudio
| RecorderStart (mimeType : string)
| AudioStart
| Seek (currentTime : JsNumber)
| Capture
| PostFrame (f : VideoFilter)
| PutFrame
| RecorderStop
| AudioStop
| BlobCreated (type : string)
| Download (name : string)
| ToastSuccess
| ToastError
| WorkerTerminate.

(** How a block of statements ends. *)
Inductive Completion : Type :=
| Normal          (* ran to its end *)
| Return          (* a [return] statement *)
| Throw           (* an exception *)
| Pending         (* an awaited promise that never settles *)
| OutOfFuel.      (* the iteration budget of the model is used up *)

(** How a call of [exportVideo] ends. *)
Inductive Status : Type :=
| NotStarted      (* the guard before [setExporting(true)] returned *)
| Returned        (* a [return] inside [try] *)
| Completed       (* the [try] block ran to its end *)
| Failed          (* the [catch] block ran *)
| Suspended       (* waiting for ever *)
| Running.        (* still in the loop when the budget ended *)

Record Run : Type := { trace : list Effect; status : Status }.

(** [${fps}] for an integer-valued number below [10^21]: its decimal
    numeral. *)
Definition number_to_string (n : N) : string :=
  NilZero.string_of_uint (N.to_uint n).

(** The [mimeType] option of the recorder. *)
Definition mimeType (flow : Flow) (f : Format) : string :=
  match flow, f with
  | WithFormat, Mp4 => "video/mp4;codecs=avc1,mp4a.40.2"
  | _, _ => "video/webm;codecs=vp9"
  end.

(** The [type] of the blob built in [mediaRecorder.onstop]. *)
Definition blob_type (flow : Flow) (f : Format) : string :=
  match flow, f with
  | WithFormat, Mp4 => "video/mp4"
  | _, _ => "video/webm"
  end.

(** The extension of the download name: [${format}], or the literal
    [webm] of the earlier variant. *)
Definition extension (flow : Flow) (f : Format) : string :=
  match flow with
  | WithFormat => format_name f
  | WebmOnly => "webm"
  end.

(** [downloadRef.current.download] *)
Definition download_name (flow : Flow) (w : World) : string :=
  ((match filter w with
    | FilterNone => ""
    | f => filter_name f ++ "-"
    end)
   ++ resolution_name (resolution w) ++ "-"
   ++ number_to_string (fps w) ++ "fps-video."
   ++ extension flow (format w))%string.

(** [Math.ceil(duration * fps)] *)
Definition totalFrames (w : World) : JsNumber :=
  ceil (mul (duration w) (of_N (fps w))).

(** [1 / fps] *)
Definition frameInterval (w : World) : JsNumber :=
  div (of_Z 1) (of_N (fps w)).

(** The value of the loop variable [i] after [i] increments.  [i++] adds
    1 in binary64: the sum is exact up to [2^53], and [2^53 + 1] rounds
    back to [2^53], where the variable stays. *)
Definition counter (i : nat) : JsNumber :=
  of_Z (Z.min (Z.of_nat i) (2 ^ 53)).

(** [i * frameInterval] *)
Definition currentTime (w : World) (i : nat) : JsNumber :=
  mul (counter i) (frameInterval w).

(** [((i + 1) / totalFrames) * 100] *)
Definition progress (w : World) (i : nat) : JsNumber :=
  mul (div (add (counter i) (of_Z 1)) (totalFrames w)) (of_Z 100).

(** The frame rates whose frame interval [1 / fps] is a finite number
    that binary64 did not round upwards. *)
Definition interval_rounds_down (f : N) : bool :=
  match div (of_Z 1) (of_N f) with
  | Fin g => Qle_bool 0 g && Qle_bool (g * inject_Z (Z.of_N f)) 1
  | _ => false
  end.

(** The two tests at the top of a loop iteration: the loop condition
    [i < totalFrames], and the negation of [currentTime > duration], which
    breaks out of the loop. *)
Definition loop_test (w : World) (i : nat) : bool :=
  ltb (counter i) (totalFrames w)
  && negb (gtb (currentTime w i) (duration w)).

(** The loop [for (let i = 0; i < totalFrames; i++)], entered at [i], with
    a budget of [fuel] tests of the loop condition. *)
Fixpoint frame_loop (fuel : nat) (w : World) (i : nat)
  : list Effect * Completion :=
  match fuel with
  | O => ([], OutOfFuel)
  | S fuel' =>
      if negb (ltb (counter i) (totalFrames w)) then ([], Normal)
      else if gtb (currentTime w i) (duration w) then ([], Normal)
      else
        match frameEvent w i with
        | SeekStalls => ([Seek (currentTime w i)], Pending)
        | CaptureThrows => ([Seek (currentTime w i)], Throw)
        | WorkerStalls =>
            ([Seek (currentTime w i); Capture; PostFrame (filter w)], Pending)
        | PushThrows =>
            ([Seek (currentTime w i); Capture; PostFrame (filter w)], Throw)
        | FrameOk =>
            let (rest, c) := frame_loop fuel' w (S i) in
            (Seek (currentTime w i) :: Capture :: PostFrame (filter w)
               :: PutFrame :: SetExportProgress (Some (progress w i)) :: rest,
             c)
        end
  end.

(** [videoUrl]: an object URL of the file, [null] without a file. *)
Definition videoUrl (w : World) : bool := videoFile w.

(** The audio part of the set-up; only [video-edit.tsx] has one.  [None]
    is its [if (!videoUrl) return]; otherwise the effects and whether an
    audio stream was obtained (a failure to decode is caught and logged). *)
Definition audio_setup (flow : Flow) (w : World)
  : option (list Effect * bool) :=
  match flow with
  | WebmOnly => Some ([], false)
  | WithFormat =>
      if negb (videoUrl w) then None
      else if audioDecodes w then Some ([], true)
      else Some ([WarnNoAudio], false)
  end.

(** The statements after the loop, up to the end of the [try] block. *)
Definition finish (flow : Flow) (w : World) (audio : bool) : list Effect :=
  [RecorderStop]
  ++ (if audio then [AudioStop] else [])
  ++ [BlobCreated (blob_type flow (format w))]
  ++ (if downloadRef w
      then [Download (download_name flow w); ToastSuccess] else []).

(** The body of the [try] block. *)
Definition try_block (fuel : nat) (flow : Flow) (w : World)
  : list Effect * Completion :=
  let d := getCanvasDimensions flow (videoWidth w) (videoHeight w)
                               (resolution w) in
  if negb (tempCtx w) then ([TempCanvas d], Return)
  else if negb (outputCtx w) then ([TempCanvas d; OutputCanvas d], Return)
  else
    match audio_setup flow w with
    | None => ([TempCanvas d; OutputCanvas d], Return)
    | Some (audio_effects, audio) =>
        let setup := [TempCanvas d; OutputCanvas d] ++ audio_effects in
        if negb (recorderAccepts w) then (setup, Throw)
        else
          let started :=
            setup ++ [RecorderStart (mimeType flow (format w))]
                  ++ (if audio then [AudioStart] else []) in
          let (frames, c) := frame_loop fuel w 0 in
          match c with
          | Normal => (started ++ frames ++ finish flow w audio, Normal)
          | other => (started ++ frames, other)
          end
    end.

(** The [catch] and [finally] blocks. *)
Definition catch_block : list Effect := [ToastError].

Definition finally_block : list Effect :=
  [SetExporting false; SetExportProgress None; WorkerTerminate].

(** The statements before [try]. *)
Definition prologue : list Effect :=
  [SetExporting true; SetExportProgress (Some (of_Z 0)); InitWorker].

(** [exportVideo], with an iteration budget for the loop. *)
Definition exportVideoFuel (fuel : nat) (flow : Flow) (w : World) : Run :=
  if negb (videoFile w) || negb (videoRef w)
  then {| trace := []; status := NotStarted |}
  else
    let (body, c) := try_block fuel flow w in
    match c with
    | Normal =>
        {| trace := prologue ++ body ++ finally_block; status := Completed |}
    | Return =>
        {| trace := prologue ++ body ++ finally_block; status := Returned |}
    | Throw =>
        {| trace := prologue ++ body ++ catch_block ++ finally_block;
           status := Failed |}
    | Pending => {| trace := prologue ++ body; status := Suspended |}
    | OutOfFuel => {| trace := prologue ++ body; status := Running |}
    end.

(** The number of loop iterations the condition [i < totalFrames] allows
    for a frame count up to [2^53]; none when [totalFrames] is [NaN].  For
    a larger count, and for [+Infinity], the condition never fails. *)
Definition iterations (n : JsNumber) : nat :=
  match n with
  | Fin q => Z.to_nat (Qceiling q)
  | _ => 0%nat
  end.

(** [exportVideo]: the budget is one test of the loop condition more than
    the loop can pass.  Where the loop does not end (a source of unbounded
    duration, a frame count above [2^53]) the run is cut, with status
    [Running]. *)
Definition exportVideo (flow : Flow) (w : World) : Run :=
  exportVideoFuel (S (iterations (totalFrames w))) flow w.

(** The part of the component state that [exportVideo] writes. *)
Inductive WorkerState : Type := NoWorker | WorkerLive | WorkerTerminated.

Record UiState : Type := {
  exporting : bool;
  exportProgress : option JsNumber;
  worker : WorkerState
}.

(** [useState(false)], [useState<number | null>(null)]; no worker yet. *)
Definition initial_ui : UiState :=
  {| exporting := false; exportProgress := None; worker := NoWorker |}.



(** *** Projections of a trace *)

(** The timestamps the source was sought to, in order. *)
Definition seek_times (t : list Effect) : list JsNumber :=
  flat_map (fun e => match e with Seek c => [c] | _ => [] end) t.

(** The numeric progress values passed to [setExportProgress], in order. *)
Definition progress_values (t : list Effect) : list JsNumber :=
  flat_map (fun e => match e with
                     | SetExportProgress (Some p) => [p]
                     | _ => []
                     end) t.

(** The types of the blobs built by the recorder: the artifacts of the
    job. *)
Definition artifacts (t : list Effect) : list string :=
  flat_map (fun e => match e with BlobCreated ty => [ty] | _ => [] end) t.

(** The names under which a download was started. *)
Definition downloads (t : list Effect) : list string :=
  flat_map (fun e => match e with Download n => [n] | _ => [] end) t.

(** The frames written to the output canvas, one entry each. *)
Definition pushes (t : list Effect) : list unit :=
  flat_map (fun e => match e with PutFrame => [tt] | _ => [] end) t.

Definition frames_pushed (t : list Effect) : nat := List.length (pushes t).

(** The error notifications. *)
Definition error_toasts (t : list Effect) : list unit :=
  flat_map (fun e => match e with ToastError => [tt] | _ => [] end) t.

(** The effects of one loop iteration in which nothing goes wrong. *)
Definition frame_effects (w : World) (i : nat) : list Effect :=
  [Seek (currentTime w i); Capture; PostFrame (filter w); PutFrame;
   SetExportProgress (Some (progress w i))].

(** The effects of an iteration that is cut short. *)
Definition partial_effects (w : World) (i : nat) : list Effect :=
  match frameEvent w i with
  | FrameOk => []
  | SeekStalls | CaptureThrows => [Seek (currentTime w i)]
  | WorkerStalls | PushThrows =>
      [Seek (currentTime w i); Capture; PostFrame (filter w)]
  end.

(** A browser in which nothing goes wrong, for a job that starts. *)
Definition healthy (w : World) : Prop :=
  videoFile w = true /\ videoRef w = true /\ tempCtx w = true /\
  outputCtx w = true /\ recorderAccepts w = true /\
  forall i, frameEvent w i = FrameOk.

(** A job that gets as far as the loop: it starts, and its set-up
    neither returns nor throws. *)
Definition reaches_loop (w : World) : Prop :=
  videoFile w = true /\ videoRef w = true /\ tempCtx w = true /\
  outputCtx w = true /\ recorderAccepts w = true.

(** The effects on the flags and on the worker: what [setExporting],
    [setExportProgress(null)], [initWorker] and [worker.terminate] did, in
    order. *)
Definition lifecycle (t : list Effect) : list Effect :=
  flat_map (fun e => match e with
                     | SetExporting _ | SetExportProgress None
                     | InitWorker | WorkerTerminate => [e]
                     | _ => []
                     end) t.

(** A call that started a job and has left [exportVideo]. *)
Definition exited (st : Status) : bool :=
  match st with
  | Returned | Completed | Failed => true
  | NotStarted | Suspended | Running => false
  end.

(** *** Sample worlds *)

(** A browser in which every step succeeds, with the default resolution
    and format, a 16:9 source and a download anchor. *)
Definition studio (f : VideoFilter) (rate : N) (d : JsNumber) : World :=
  {| videoFile := true; videoRef := true; downloadRef := true;
     filter := f; fps := rate; resolution := R720p; format := Webm;
     videoWidth := 16; videoHeight := 9; duration := d;
     tempCtx := true; outputCtx := true; audioDecodes := true;
     recorderAccepts := true; frameEvent := fun _ => FrameOk;
     cancelRequested := fun _ => false |}.

(** The same world with requests to cancel. *)
Definition with_cancel (w : World) (c : nat -> bool) : World :=
  {| videoFile := videoFile w; videoRef := videoRef w;
     downloadRef := downloadRef w; filter := filter w; fps := fps w;
     resolution := resolution w; format := format w;
     videoWidth := videoWidth w; videoHeight := videoHeight w;
     duration := duration w; tempCtx := tempCtx w; outputCtx := outputCtx w;
     audioDecodes := audioDecodes w; recorderAccepts := recorderAccepts w;
     frameEvent := frameEvent w; cancelRequested := c |}.

(** An eighth of a second at 30 frames per second: four frames. *)
Definition short_clip (f : VideoFilter) : World := studio f 30 (Fin (1 # 8)).

(** The binary64 number written [0.1]. *)
Definition tenth : Q := 3602879701896397 # 36028797018963968.

(** A tenth of a second at 30 frames per second: [0.1 * 30] is 3 in
    binary64, three frames. *)
Definition tenth_clip (f : VideoFilter) : World := studio f 30 (Fin tenth).

(** One second at 30 frames per second. *)
Definition one_second : World := studio Sepia 30 (Fin 1).

(** A source of duration zero. *)
Definition empty_clip : World := studio Grayscale 30 (Fin 0).

(** *** Statements of the design document, as written there *)

(** The progress channel: non-decreasing, within [0, 100], at least one
    value per processed frame, and ending with 100 on success. *)
Definition progress_claim (r : Run) : Prop :=
  let ps := progress_values (trace r) in
  (forall (k : nat) (a b : JsNumber),
      nth_error ps k = Some a -> nth_error ps (S k) = Some b ->
      leb a b = true)
  /\ Forall (fun p => leb (of_Z 0) p = true /\ leb p (of_Z 100) = true) ps
  /\ (frames_pushed (trace r) <= List.length ps)%nat
  /\ (status r = Completed -> last ps NaN = of_Z 100).

(** Cancellation: when the user asks to abandon the job before iteration
    [k] of a running export, the job leaves no artifact, does not throw,
    and samples and pushes no frame from [k] on. *)
Definition cancellation_claim (flow : Flow) (w : World) (k : nat) : Prop :=
  cancelRequested w k = true ->
  (k < iterations (totalFrames w))%nat ->
  let r := exportVideo flow w in
  artifacts (trace r) = []
  /\ status r <> Failed
  /\ (List.length (seek_times (trace r)) <= k)%nat
  /\ (frames_pushed (trace r) <= k)%nat.

(** The timestamps: frame request [N] seeks the source to exactly
    [N / fps]. *)
Definition seek_claim (r : Run) (w : World) : Prop :=
  forall (N : nat) (t : JsNumber),
    nth_error (seek_times (trace r)) N = Some t ->
    t = div (of_nat N) (of_N (fps w)).

(** The output dimensions: the height of the resolution, and the width
    [round(height x aspect ratio of the source)]. *)
Definition dimensions_claim (flow : Flow) (vw vh : N) (r : Resolution)
  : Prop :=
  (0 < vw)%N -> (0 < vh)%N ->
  getCanvasDimensions flow vw vh r
  = dims (Qfloor (inject_Z (resolution_height r) * inject_Z (Z.of_N vw)
                  / inject_Z (Z.of_N vh) + (1 # 2)))
         (resolution_height r).

(** The artifact and its name: the mime type of the format, and the name
    [{filter}-{resolution}-{fps}fps-video.{format}]. *)
Definition download_claim (flow : Flow) (w : World) : Prop :=
  let r := exportVideo flow w in
  status r = Completed ->
  artifacts (trace r)
  = [match format w with Webm => "video/webm" | Mp4 => "video/mp4" end]
  /\ downloads (trace r)
     = [(filter_name (filter w) ++ "-" ++ resolution_name (resolution w)
         ++ "-" ++ number_to_string (fps w) ++ "fps-video."
         ++ format_name (format w))%string].

(** Empty output: a job that produced no frame fails and leaves no
    artifact. *)
Definition empty_output_claim (flow : Flow) (w : World) : Prop :=
  let r := exportVideo flow w in
  status r <> NotStarted -> frames_pushed (trace r) = 0%nat ->
  status r = Failed /\ artifacts (trace r) = [].

(* ------------------------------------------------------------------ *)
(** ** Further projections of a trace *)

(** The work on the frames: seeks, captures, posts to the worker and writes
    to the output canvas, in order. *)
Definition pipeline (t : list Effect) : list Effect :=
  flat_map (fun e => match e with
                     | Seek _ | Capture | PostFrame _ | PutFrame => [e]
                     | _ => []
                     end) t.

(** The frame work of one loop iteration in which nothing goes wrong. *)
Definition frame_pipeline (w : World) (i : nat) : list Effect :=
  [Seek (currentTime w i); Capture; PostFrame (filter w); PutFrame].

(** What happened to the recorder and to the audio source. *)
Definition recorder_log (t : list Effect) : list Effect :=
  flat_map (fun e => match e with
                     | RecorderStart _ | AudioStart | RecorderStop
                     | AudioStop | BlobCreated _ => [e]
                     | _ => []
                     end) t.

(** The notifications shown to the user. *)
Definition notifications (t : list Effect) : list Effect :=
  flat_map (fun e => match e with
                     | ToastSuccess | ToastError => [e]
                     | _ => []
                     end) t.

(** Whether the set-up obtains an audio stream. *)
Definition has_audio (flow : Flow) (w : World) : bool :=
  match flow with
  | WithFormat => audioDecodes w
  | WebmOnly => false
  end.

(* ------------------------------------------------------------------ *)
(** ** Notifications about the uploaded file *)

(** The part of a [File] the component reads. *)
Record File : Type := { file_name : string; file_size : N }.

(** A number below 100 written with two digits. *)
Definition two_digits (n : N) : string :=
  (if (n <? 10)%N then "0" ++ number_to_string n
   else number_to_string n)%string.

(** [x.toFixed(2)], for a number of magnitude below [10^21]: the integer
    nearest to [100 x] (the larger of two nearest), written with the point
    before its last two digits.  The digits are those of the exact value
    of the number, without a further rounding. *)
Definition toFixed2 (x : JsNumber) : string :=
  match x with
  | NaN => "NaN"
  | PosInf => "Infinity"
  | NegInf => "-Infinity"
  | Fin q =>
      let a := match Qsign q with Lt => Qopp q | _ => q end in
      let n := Z.to_N (Qfloor (a * inject_Z 100 + (1 # 2))) in
      ((match Qsign q with Lt => "-" | _ => "" end)
       ++ number_to_string (n / 100) ++ "." ++ two_digits (n mod 100))%string
  end.

(** [1024 * 1024] *)
Definition mebi : JsNumber := mul (of_Z 1024) (of_Z 1024).

(** The description of the toast of [handleVideoLoaded] in
    [video-edit.tsx]; [videoFile?.size || 0 / (1024 * 1024)] is the size
    unless it is missing or zero. *)
Definition loaded_toast (videoFile : option File) (vw vh : N) : string :=
  ((match videoFile with Some f => file_name f | None => "undefined" end)
   ++ " ("
   ++ toFixed2 (match videoFile with
                | Some f => or_else (of_N (file_size f)) (div (of_Z 0) mebi)
                | None => div (of_Z 0) mebi
                end)
   ++ " MB) - Aspect Ratio: " ++ number_to_string vw ++ "x"
   ++ number_to_string vh)%string.

(** The description of the toast of [handleUpload] in the earlier
    variant. *)
Definition upload_toast (file : File) : string :=
  (file_name file ++ " ("
   ++ toFixed2 (div (of_N (file_size file)) mebi) ++ " MB)")%string.

(* ------------------------------------------------------------------ *)
(** ** The preview canvas *)

(** The state behind the preview: the recorded dimensions of the source and
    the resolution (component state), and the sizes given to the two
    canvases ([None] while the ref is not set). *)
Record Preview : Type := {
  pv_videoWidth : N;
  pv_videoHeight : N;
  pv_resolution : Resolution;
  pv_canvas : option Dimensions;
  pv_outputCanvas : option Dimensions
}.

(** [handleVideoLoaded], called with the video element ([None] when the
    ref is not set).  The state setters take effect with the next
    render; [getCanvasDimensions] reads the state of the render the
    handler belongs to.  The earlier variant has neither the recorded
    dimensions nor the output canvas. *)
Definition handleVideoLoaded (flow : Flow) (s : Preview) (video : option (N * N))
  : Preview :=
  match pv_canvas s, video with
  | Some _, Some (vw, vh) =>
      let d := getCanvasDimensions flow (pv_videoWidth s) (pv_videoHeight s)
                                   (pv_resolution s) in
      match flow with
      | WithFormat =>
          {| pv_videoWidth := vw; pv_videoHeight := vh;
             pv_resolution := pv_resolution s;
             pv_canvas := Some d;
             pv_outputCanvas := match pv_outputCanvas s with
                                | Some _ => Some d
                                | None => None
                                end |}
      | WebmOnly =>
          {| pv_videoWidth := pv_videoWidth s;
             pv_videoHeight := pv_videoHeight s;
             pv_resolution := pv_resolution s;
             pv_canvas := Some d;
             pv_outputCanvas := pv_outputCanvas s |}
      end
  | _, _ => s
  end.

(** The effect that follows a change of the resolution
    ([useEffect(..., [resolution])]), with the video element present or
    not. *)
Definition resolution_effect (flow : Flow) (s : Preview) (video : bool)
  : Preview :=
  match pv_canvas s with
  | Some _ =>
      if video then
        let d := getCanvasDimensions flow (pv_videoWidth s) (pv_videoHeight s)
                                     (pv_resolution s) in
        {| pv_videoWidth := pv_videoWidth s;
           pv_videoHeight := pv_videoHeight s;
           pv_resolution := pv_resolution s;
           pv_canvas := Some d;
           pv_outputCanvas := match flow, pv_outputCanvas s with
                              | WithFormat, Some _ => Some d
                              | _, o => o
                              end |}
      else s
  | None => s
  end.

Definition resolution_eqb (a b : Resolution) : bool :=
  match a, b with
  | R1080p, R1080p | R720p, R720p | R540p, R540p => true
  | _, _ => false
  end.

(** [setResolution(r)]: a value equal to the current one causes no render;
    another one causes a render, followed by the effect. *)
Definition setResolution (flow : Flow) (s : Preview) (r : Resolution)
                         (video : bool) : Preview :=
  if resolution_eqb r (pv_resolution s) then s
  else
    resolution_effect flow
      {| pv_videoWidth := pv_videoWidth s; pv_videoHeight := pv_videoHeight s;
         pv_resolution := r; pv_canvas := pv_canvas s;
         pv_outputCanvas := pv_outputCanvas s |} video.

(* ------------------------------------------------------------------ *)
(** ** The ffmpeg flow: the worker over several jobs, and the component *)

(** What the worker keeps between messages: whether ffmpeg is loaded, and
    the progress handlers registered with [ffmpeg.on('progress', ...)]
    (one more with every message, none is ever removed). *)
Record FfmpegState : Type := {
  ffmpeg_loaded : bool;
  progress_handlers : nat
}.

(** A module that was just started. *)
Definition fresh_worker : FfmpegState :=
  {| ffmpeg_loaded := false; progress_handlers := 0 |}.

(** The step of a job at which ffmpeg fails, if any. *)
Inductive FfmpegFault : Type :=
| NoFault
| LoadFails
| WriteFails
| ExecFails
| ReadFails.

(** What ffmpeg does with one job: where it fails, the progress events it
    emits while it executes the command, and the object URL of the
    result. *)
Record FfmpegRun : Type := {
  fault : FfmpegFault;
  exec_progress : list JsNumber;
  blob_url : string
}.

(** The calls the worker makes, in order. *)
Inductive FfmpegOp : Type :=
| FLoad
| FWriteFile (name : string)
| FOnProgress
| FExec (args : list string)
| FReadFile (name : string)
| FPost (m : WorkerMessage).

(** The message listener of the worker, for one message
    [{ file, filter }].  An exception ends the listener: nothing more is
    posted.  Every registered handler posts every progress event. *)
Definition worker_listener (s : FfmpegState) (f : VideoFilter) (e : FfmpegRun)
  : list FfmpegOp * FfmpegState :=
  let load := if ffmpeg_loaded s then [] else [FLoad] in
  match ffmpeg_loaded s, fault e with
  | false, LoadFails => (load, s)
  | _, WriteFails =>
      (load ++ [FWriteFile "input.mp4"],
       {| ffmpeg_loaded := true; progress_handlers := progress_handlers s |})
  | _, _ =>
      let h := S (progress_handlers s) in
      let s' := {| ffmpeg_loaded := true; progress_handlers := h |} in
      let posts :=
        flat_map (fun p => repeat (FPost (ProgressMessage p)) h)
                 (exec_progress e) in
      let ops := load ++ [FWriteFile "input.mp4"; FOnProgress;
                          FExec (command f)] ++ posts in
      match fault e with
      | ExecFails => (ops, s')
      | ReadFails => (ops ++ [FReadFile "output.mp4"], s')
      | _ =>
          (ops ++ [FReadFile "output.mp4";
                   FPost (DoneMessage (blob_url e) (of_Z 100))], s')
      end
  end.

(** The worker over a sequence of messages. *)
Fixpoint worker_jobs (s : FfmpegState) (jobs : list (VideoFilter * FfmpegRun))
  : list (list FfmpegOp) * FfmpegState :=
  match jobs with
  | [] => ([], s)
  | (f, e) :: rest =>
      let (ops, s1) := worker_listener s f e in
      let (more, s2) := worker_jobs s1 rest in
      (ops :: more, s2)
  end.

(** The jobs in which ffmpeg does not fail. *)
Definition no_fault (j : VideoFilter * FfmpegRun) : Prop :=
  fault (snd j) = NoFault.

(** The messages among the calls. *)
Definition posted (ops : list FfmpegOp) : list WorkerMessage :=
  flat_map (fun o => match o with FPost m => [m] | _ => [] end) ops.

(** The state of the component of the ffmpeg flow that its worker listener
    writes: [progress], [processing], [filteredVideoUrl], the id in
    [toastIdRef], together with the loading toasts on screen and the id
    the next toast gets. *)
Record FilterUi : Type := {
  ui_progress : option JsNumber;
  ui_processing : bool;
  ui_filteredVideoUrl : option string;
  toastIdRef : option nat;
  loading_toasts : list nat;
  next_toast : nat
}.

(** [event.data.progress === 0] *)
Definition is_zero (p : JsNumber) : bool :=
  match p with
  | Fin q => match Qsign q with Eq => true | _ => false end
  | _ => false
  end.

(** [workerRef.current.onmessage] of the component. *)
Definition worker_onmessage (s : FilterUi) (m : WorkerMessage) : FilterUi :=
  let p := message_progress m in
  let s1 :=
    if is_zero p then
      {| ui_progress := Some (mul p (of_Z 100));
         ui_processing := ui_processing s;
         ui_filteredVideoUrl := ui_filteredVideoUrl s;
         toastIdRef := Some (next_toast s);
         loading_toasts := next_toast s :: loading_toasts s;
         next_toast := S (next_toast s) |}
    else
      {| ui_progress := Some (mul p (of_Z 100));
         ui_processing := ui_processing s;
         ui_filteredVideoUrl := ui_filteredVideoUrl s;
         toastIdRef := toastIdRef s;
         loading_toasts := loading_toasts s;
         next_toast := next_toast s |} in
  match m with
  | ProgressMessage _ => s1
  | DoneMessage url _ =>
      if String.eqb url "" then s1
      else
        match toastIdRef s1 with
        | Some (S _ as id) =>
            {| ui_progress := None; ui_processing := false;
               ui_filteredVideoUrl := Some url;
               toastIdRef := None;
               loading_toasts :=
                 List.filter (fun t => negb (Nat.eqb t id)) (loading_toasts s1);
               next_toast := next_toast s1 |}
        | _ =>
            {| ui_progress := None; ui_processing := false;
               ui_filteredVideoUrl := Some url;
               toastIdRef := toastIdRef s1;
               loading_toasts := loading_toasts s1;
               next_toast := next_toast s1 |}
        end
  end.

(** The listener over the messages of the worker, in order. *)
Definition after_messages (s : FilterUi) (ms : list WorkerMessage) : FilterUi :=
  fold_left worker_onmessage ms s.

(** [applyFilterEffect]: without a file or a worker it does nothing;
    otherwise it sets [processing] and sends the file to the worker. *)
Definition applyFilterEffect (videoFile workerRef : bool) (s : FilterUi)
  : FilterUi * bool :=
  if negb videoFile || negb workerRef then (s, false)
  else
    ({| ui_progress := ui_progress s; ui_processing := true;
        ui_filteredVideoUrl := ui_filteredVideoUrl s;
        toastIdRef := toastIdRef s; loading_toasts := loading_toasts s;
        next_toast := next_toast s |}, true).

(** The component of the ffmpeg flow as it is mounted: the ids of the
    toasts start at 1. *)
Definition mounted_ui : FilterUi :=
  {| ui_progress := None; ui_processing := false;
     ui_filteredVideoUrl := None; toastIdRef := None;
     loading_toasts := []; next_toast := 1 |}.

(** The progress events that are exactly 0. *)
Definition zeros (events : list JsNumber) : nat :=
  List.length (List.filter is_zero events).

(** The ids of the loading toasts on screen are positive and below the next
    id, and an id in [toastIdRef] is that of the newest of them. *)
Definition toasts_consistent (s : FilterUi) : Prop :=
  (1 <= next_toast s)%nat
  /\ (forall t, In t (loading_toasts s) -> (1 <= t < next_toast s)%nat)
  /\ (forall id, toastIdRef s = Some id ->
       exists rest, loading_toasts s = id :: rest
                    /\ forall t, In t rest -> (t < id)%nat).

(** Two jobs with one progress event each. *)
Definition two_jobs : list (VideoFilter * FfmpegRun) :=
  [(Sepia, {| fault := NoFault; exec_progress := [Fin (1 # 2)];
              blob_url := "blob:1" |});
   (Invert, {| fault := NoFault; exec_progress := [Fin (1 # 4)];
               blob_url := "blob:2" |})].

(* ================================================================== *)
(** * Properties *)

Local Open Scope Z_scope.

(** ** Rounding to binary64 *)

Section Pow2.

Lemma pow2_pos (e : Z) : (0 < pow2 e)%Q.
Proof. apply Qpower_0_lt. reflexivity. Qed.

Lemma pow2_add (a b : Z) : (pow2 (a + b) == pow2 a * pow2 b)%Q.
Proof. apply Qpower_plus. discriminate. Qed.

Lemma pow2_sub (a b : Z) : (pow2 (a - b) == pow2 a / pow2 b)%Q.
Proof. apply Qpower_minus. discriminate. Qed.

Lemma pow2_le (a b : Z) : a <= b -> (pow2 a <= pow2 b)%Q.
Proof. intros H. apply Qpower_le_compat_l; [exact H | discriminate]. Qed.

Lemma pow2_lt (a b : Z) : a < b -> (pow2 a < pow2 b)%Q.
Proof. intros H. apply Qpower_lt_compat_l; [exact H | reflexivity]. Qed.

Lemma pow2_lt_inv (a b : Z) : (pow2 a < pow2 b)%Q -> a < b.
Proof. intros H. apply (Qpower_lt_compat_l_inv 2); [exact H | reflexivity]. Qed.

Lemma pow2_Z (n : Z) : 0 <= n -> (pow2 n == inject_Z (2 ^ n))%Q.
Proof. intros H. unfold pow2. now rewrite Zpower_Qpower. Qed.

Lemma pow2_succ (a : Z) : (pow2 (a + 1) == 2 * pow2 a)%Q.
Proof. rewrite pow2_add. change (pow2 1) with 2%Q. ring. Qed.

End Pow2.

Section Log2.

(** [Qlog2 a] is the binary exponent of a positive rational. *)
Lemma Qlog2_spec (a : Q) :
  (0 < a)%Q -> (pow2 (Qlog2 a) <= a < pow2 (Qlog2 a + 1))%Q.
Proof.
  intros Ha. destruct a as [n d].
  assert (Hn : 0 < n) by (unfold Qlt in Ha; simpl in Ha; lia).
  unfold Qlog2. cbn [Qnum Qden].
  set (kn := Z.log2 n). set (kd := Z.log2 (Z.pos d)).
  destruct (Z.log2_spec n Hn) as [Hn1 Hn2]. fold kn in Hn1, Hn2.
  destruct (Z.log2_spec (Z.pos d) eq_refl) as [Hd1 Hd2]. fold kd in Hd1, Hd2.
  assert (Hkn : 0 <= kn) by apply Z.log2_nonneg.
  assert (Hkd : 0 <= kd) by apply Z.log2_nonneg.
  assert (Eq1 : (n # d == inject_Z n / inject_Z (Z.pos d))%Q)
    by apply Qmake_Qdiv.
  assert (Hdq : (0 < inject_Z (Z.pos d))%Q) by reflexivity.
  assert (Hlo : (pow2 (kn - kd - 1) < n # d)%Q).
  { rewrite Eq1. apply Qlt_shift_div_l; [exact Hdq|].
    apply Qlt_le_trans with (pow2 (kn - kd - 1) * pow2 (kd + 1))%Q.
    - apply Qmult_lt_l; [apply pow2_pos|].
      rewrite pow2_Z by lia. rewrite <- Zlt_Qlt.
      replace (kd + 1) with (Z.succ kd) by lia. exact Hd2.
    - rewrite <- pow2_add. replace (kn - kd - 1 + (kd + 1)) with kn by lia.
      rewrite pow2_Z by lia. now rewrite <- Zle_Qle. }
  assert (Hhi : (n # d < pow2 (kn - kd + 1))%Q).
  { rewrite Eq1. apply Qlt_shift_div_r; [exact Hdq|].
    apply Qlt_le_trans with (pow2 (kn - kd + 1) * pow2 kd)%Q.
    - rewrite <- pow2_add. replace (kn - kd + 1 + kd) with (Z.succ kn) by lia.
      rewrite pow2_Z by lia. now rewrite <- Zlt_Qlt.
    - apply Qmult_le_l; [apply pow2_pos|].
      rewrite pow2_Z by lia. now rewrite <- Zle_Qle. }
  destruct (Qle_bool (pow2 (kn - kd)) (n # d)) eqn:E.
  - apply Qle_bool_iff in E. split; assumption.
  - assert (Hlt : (n # d < pow2 (kn - kd))%Q).
    { apply Qnot_le_lt. intros H. apply Qle_bool_iff in H. congruence. }
    replace (kn - kd - 1 + 1) with (kn - kd) by lia.
    split; [now apply Qlt_le_weak | exact Hlt].
Qed.

Lemma Qlog2_unique (a : Q) (k : Z) :
  (pow2 k <= a < pow2 (k + 1))%Q -> Qlog2 a = k.
Proof.
  intros [H1 H2].
  assert (Ha : (0 < a)%Q) by (eapply Qlt_le_trans; [apply (pow2_pos k) | exact H1]).
  destruct (Qlog2_spec a Ha) as [H3 H4].
  assert (k < Qlog2 a + 1).
  { apply pow2_lt_inv. eapply Qle_lt_trans; eassumption. }
  assert (Qlog2 a < k + 1).
  { apply pow2_lt_inv. eapply Qle_lt_trans; eassumption. }
  lia.
Qed.

Lemma Qlog2_compat (a b : Q) : (0 < a)%Q -> (a == b)%Q -> Qlog2 a = Qlog2 b.
Proof.
  intros Ha E. symmetry. apply Qlog2_unique. rewrite <- E.
  now apply Qlog2_spec.
Qed.

Lemma Qlog2_mono (a b : Q) : (0 < a)%Q -> (a <= b)%Q -> Qlog2 a <= Qlog2 b.
Proof.
  intros Ha Hab.
  assert (Hb : (0 < b)%Q) by (eapply Qlt_le_trans; eassumption).
  destruct (Qlog2_spec a Ha) as [H1 _]. destruct (Qlog2_spec b Hb) as [_ H2].
  assert (Qlog2 a < Qlog2 b + 1); [|lia].
  apply pow2_lt_inv. eapply Qle_lt_trans; [exact H1|].
  eapply Qle_lt_trans; eassumption.
Qed.

End Log2.

Ltac cmpQ H :=
  first [apply Qeq_alt in H | apply Qlt_alt in H | apply Qgt_alt in H].

Section HalfEven.

Lemma rhe_near (x : Q) :
  (inject_Z (rhe x) - (1 # 2) <= x <= inject_Z (rhe x) + (1 # 2))%Q.
Proof.
  unfold rhe.
  pose proof (Qfloor_le x) as Hlo. pose proof (Qlt_floor x) as Hhi.
  rewrite inject_Z_plus in Hhi. change (inject_Z 1) with 1%Q in Hhi.
  destruct (x - inject_Z (Qfloor x) ?= 1 # 2)%Q eqn:E.
  - apply Qeq_alt in E.
    destruct (Z.even (Qfloor x)); rewrite ?inject_Z_plus;
      change (inject_Z 1) with 1%Q; split; lra.
  - apply Qlt_alt in E. split; lra.
  - apply Qgt_alt in E. rewrite inject_Z_plus. change (inject_Z 1) with 1%Q.
    split; lra.
Qed.

Lemma rhe_Z (z : Z) : rhe (inject_Z z) = z.
Proof.
  unfold rhe. rewrite Qfloor_Z.
  assert (E : (inject_Z z - inject_Z z ?= 1 # 2)%Q = Lt).
  { apply Qlt_alt. unfold Qminus. now rewrite Qplus_opp_r. }
  now rewrite E.
Qed.

Lemma rhe_compat (x y : Q) : (x == y)%Q -> rhe x = rhe y.
Proof.
  intros E. unfold rhe. rewrite (Qfloor_comp _ _ E).
  assert (E' : (x - inject_Z (Qfloor y) ?= 1 # 2)%Q
               = (y - inject_Z (Qfloor y) ?= 1 # 2)%Q).
  { apply Qcompare_comp; [now rewrite E | reflexivity]. }
  now rewrite E'.
Qed.

Lemma rhe_mono (x y : Q) : (x <= y)%Q -> rhe x <= rhe y.
Proof.
  intros Hxy.
  pose proof (Qfloor_resp_le _ _ Hxy) as Hf.
  pose proof (Qfloor_le x) as Hx1. pose proof (Qlt_floor x) as Hx2.
  pose proof (Qfloor_le y) as Hy1. pose proof (Qlt_floor y) as Hy2.
  rewrite inject_Z_plus in Hx2, Hy2. change (inject_Z 1) with 1%Q in Hx2, Hy2.
  assert (Hrx : Qfloor x <= rhe x <= Qfloor x + 1).
  { unfold rhe. destruct (_ ?= _)%Q; [destruct (Z.even _)|..]; lia. }
  assert (Hry : Qfloor y <= rhe y <= Qfloor y + 1).
  { unfold rhe. destruct (_ ?= _)%Q; [destruct (Z.even _)|..]; lia. }
  destruct (Z.eq_dec (Qfloor x) (Qfloor y)) as [E|E]; [|lia].
  unfold rhe. rewrite <- E. rewrite <- E in Hy1, Hy2.
  destruct (x - inject_Z (Qfloor x) ?= 1 # 2)%Q eqn:Ex;
    destruct (y - inject_Z (Qfloor x) ?= 1 # 2)%Q eqn:Ey;
    try (destruct (Z.even (Qfloor x))); try lia;
    cmpQ Ex; cmpQ Ey; exfalso; lra.
Qed.

Lemma rhe_le_Z (x : Q) (z : Z) : (x <= inject_Z z)%Q -> rhe x <= z.
Proof. intros H. rewrite <- (rhe_Z z). now apply rhe_mono. Qed.

Lemma rhe_ge_Z (x : Q) (z : Z) : (inject_Z z <= x)%Q -> z <= rhe x.
Proof. intros H. rewrite <- (rhe_Z z). now apply rhe_mono. Qed.

End HalfEven.

Section RoundPos.

Lemma ulp_exponent_mono (a b : Q) :
  (0 < a)%Q -> (a <= b)%Q -> ulp_exponent a <= ulp_exponent b.
Proof.
  intros Ha Hab. unfold ulp_exponent.
  pose proof (Qlog2_mono a b Ha Hab). lia.
Qed.

Lemma round_pos_compat (a b : Q) :
  (0 < a)%Q -> (a == b)%Q -> (round_pos a == round_pos b)%Q.
Proof.
  intros Ha E. unfold round_pos, ulp_exponent.
  rewrite (Qlog2_compat a b Ha E).
  rewrite (rhe_compat (a / pow2 (Z.max (Qlog2 b - 52) (-1074)))
                      (b / pow2 (Z.max (Qlog2 b - 52) (-1074))));
    [reflexivity | now rewrite E].
Qed.

(** The rounded value is within half a unit in the last place. *)
Lemma round_pos_near (a : Q) :
  (round_pos a - pow2 (ulp_exponent a) * (1 # 2) <= a
   <= round_pos a + pow2 (ulp_exponent a) * (1 # 2))%Q.
Proof.
  unfold round_pos. set (e := ulp_exponent a).
  pose proof (pow2_pos e) as He.
  pose proof (rhe_near (a / pow2 e)) as [H1 H2].
  assert (Ea : (a == a / pow2 e * pow2 e)%Q) by (field; lra).
  set (m := inject_Z (rhe (a / pow2 e))) in *.
  set (x := (a / pow2 e)%Q) in *.
  set (p := pow2 e) in *.
  clearbody m x p. clear e.
  split; rewrite Ea; nra.
Qed.

Lemma round_pos_nonneg (a : Q) : (0 <= a)%Q -> (0 <= round_pos a)%Q.
Proof.
  intros Ha. unfold round_pos. set (e := ulp_exponent a).
  pose proof (pow2_pos e) as He.
  apply Qmult_le_0_compat; [|lra].
  change 0%Q with (inject_Z 0). rewrite <- Zle_Qle.
  apply rhe_ge_Z. change (inject_Z 0) with 0%Q.
  apply Qle_shift_div_l; [exact He | lra].
Qed.

(** A value that is a whole number of units in the last place is not
    changed. *)
Lemma round_pos_exact (a : Q) (m : Z) :
  (a == inject_Z m * pow2 (ulp_exponent a))%Q -> (round_pos a == a)%Q.
Proof.
  intros E. unfold round_pos. set (e := ulp_exponent a) in *.
  pose proof (pow2_pos e) as He.
  assert (Em : (a / pow2 e == inject_Z m)%Q).
  { rewrite E. field. lra. }
  rewrite (rhe_compat _ _ Em), rhe_Z. now symmetry.
Qed.

(** A value in the binade of exponent [k] is rounded within that binade
    (its upper end included). *)
Lemma round_pos_binade (a : Q) (k : Z) :
  (pow2 k <= a < pow2 (k + 1))%Q -> -1022 <= k ->
  (pow2 k <= round_pos a <= pow2 (k + 1))%Q.
Proof.
  intros [H1 H2] Hk.
  assert (Ek : Qlog2 a = k) by (apply Qlog2_unique; now split).
  unfold round_pos, ulp_exponent. rewrite Ek.
  replace (Z.max (k - 52) (-1074)) with (k - 52) by lia.
  pose proof (pow2_pos (k - 52)) as He.
  assert (E52 : (pow2 k == inject_Z (2 ^ 52) * pow2 (k - 52))%Q).
  { rewrite <- pow2_Z by lia. rewrite <- pow2_add. now replace (52 + (k - 52)) with k by lia. }
  assert (E53 : (pow2 (k + 1) == inject_Z (2 ^ 53) * pow2 (k - 52))%Q).
  { rewrite <- pow2_Z by lia. rewrite <- pow2_add. now replace (53 + (k - 52)) with (k + 1) by lia. }
  split.
  - rewrite E52. apply Qmult_le_compat_r; [|lra].
    rewrite <- Zle_Qle. apply rhe_ge_Z.
    apply Qle_shift_div_l; [exact He|]. now rewrite <- E52.
  - rewrite E53. apply Qmult_le_compat_r; [|lra].
    rewrite <- Zle_Qle. apply rhe_le_Z.
    apply Qle_shift_div_r; [exact He|]. rewrite <- E53. lra.
Qed.

Lemma round_pos_mono (a b : Q) :
  (0 < a)%Q -> (a <= b)%Q -> (round_pos a <= round_pos b)%Q.
Proof.
  intros Ha Hab.
  assert (Hb : (0 < b)%Q) by lra.
  pose proof (ulp_exponent_mono a b Ha Hab) as He.
  destruct (Z.eq_dec (ulp_exponent a) (ulp_exponent b)) as [E|E].
  - unfold round_pos. rewrite E.
    pose proof (pow2_pos (ulp_exponent b)) as Hp.
    apply Qmult_le_compat_r; [|lra].
    rewrite <- Zle_Qle. apply rhe_mono.
    apply Qmult_le_compat_r; [exact Hab|].
    apply Qlt_le_weak, Qinv_lt_0_compat, Hp.
  - assert (Hlt : ulp_exponent a < ulp_exponent b) by lia.
    unfold ulp_exponent in Hlt.
    set (ka := Qlog2 a) in *. set (kb := Qlog2 b) in *.
    assert (Hkb : -1022 <= kb /\ ka < kb) by lia.
    destruct (Qlog2_spec a Ha) as [Ha1 Ha2]. fold ka in Ha1, Ha2.
    destruct (Qlog2_spec b Hb) as [Hb1 Hb2]. fold kb in Hb1, Hb2.
    destruct (round_pos_binade b kb (conj Hb1 Hb2)) as [Hrb _]; [lia|].
    apply Qle_trans with (pow2 kb); [|exact Hrb].
    apply Qle_trans with (pow2 (ka + 1)); [|apply pow2_le; lia].
    destruct (Z_le_gt_dec (-1022) ka) as [Hn|Hs].
    + now apply (round_pos_binade a ka (conj Ha1 Ha2)).
    + (* subnormal: the unit is 2^-1074 *)
      unfold round_pos, ulp_exponent. fold ka.
      replace (Z.max (ka - 52) (-1074)) with (-1074) by lia.
      pose proof (pow2_pos (-1074)) as Hp.
      destruct (Z_le_gt_dec (-1074) (ka + 1)) as [Hin|Hout].
      * assert (Ep : (pow2 (ka + 1)
                      == inject_Z (2 ^ (ka + 1 + 1074)) * pow2 (-1074))%Q).
        { rewrite <- pow2_Z by lia. rewrite <- pow2_add.
          now replace (ka + 1 + 1074 + -1074) with (ka + 1) by lia. }
        rewrite Ep. apply Qmult_le_compat_r; [|lra].
        rewrite <- Zle_Qle. apply rhe_le_Z. apply Qle_shift_div_r; [exact Hp|].
        rewrite <- Ep. lra.
      * assert (Hz : rhe (a / pow2 (-1074)) <= 0).
        { change 0 with (rhe (1 # 2)). apply rhe_mono.
          apply Qle_shift_div_r; [exact Hp|].
          apply Qle_trans with (pow2 (ka + 1)); [lra|].
          apply Qle_trans with (pow2 (-1075)); [apply pow2_le; lia|].
          setoid_replace ((1 # 2) * pow2 (-1074))%Q with (pow2 (-1075)).
          - lra.
          - replace (-1074) with (-1075 + 1) by lia. rewrite pow2_succ. ring. }
        pose proof (pow2_pos (ka + 1)) as Hq.
        apply Qle_trans with 0%Q; [|lra].
        rewrite Zle_Qle in Hz. change (inject_Z 0) with 0%Q in Hz.
        set (m := inject_Z (rhe (a / pow2 (-1074)))) in *. clearbody m.
        nra.
Qed.

End RoundPos.

Section Rounding.

Lemma Qle_bool_compat (a b c d : Q) :
  (a == b)%Q -> (c == d)%Q -> Qle_bool a c = Qle_bool b d.
Proof.
  intros E1 E2. apply eq_true_iff_eq. rewrite !Qle_bool_iff.
  now rewrite E1, E2.
Qed.

Lemma rnd_compat (p q : Q) : (p == q)%Q -> rnd p = rnd q.
Proof.
  intros E. unfold rnd.
  rewrite (Qcompare_comp p q E 0%Q 0%Q (Qeq_refl 0%Q)).
  destruct (q ?= 0)%Q eqn:C; [reflexivity| |].
  - cmpQ C.
    assert (Hp : (0 < - p)%Q) by (rewrite E; lra).
    assert (E' : (round_pos (- p) == round_pos (- q))%Q).
    { apply round_pos_compat; [exact Hp | now rewrite E]. }
    rewrite (Qle_bool_compat _ _ _ _ (Qeq_refl (pow2 1024)) E').
    destruct (Qle_bool _ _); [reflexivity|].
    f_equal. apply Qred_complete. now rewrite E'.
  - cmpQ C.
    assert (Hp : (0 < p)%Q) by (rewrite E; lra).
    assert (E' : (round_pos p == round_pos q)%Q).
    { apply round_pos_compat; [exact Hp | exact E]. }
    rewrite (Qle_bool_compat _ _ _ _ (Qeq_refl (pow2 1024)) E').
    destruct (Qle_bool _ _); [reflexivity|].
    f_equal. now apply Qred_complete.
Qed.

(** What [rnd] gives for a positive and for a negative rational. *)
Lemma rnd_pos (q : Q) :
  (0 < q)%Q ->
  (rnd q = PosInf /\ (pow2 1024 <= round_pos q)%Q)
  \/ (rnd q = Fin (Qred (round_pos q)) /\ (round_pos q < pow2 1024)%Q).
Proof.
  intros Hq. unfold rnd.
  assert (C : (q ?= 0)%Q = Gt) by now apply Qgt_alt.
  rewrite C. destruct (Qle_bool (pow2 1024) (round_pos q)) eqn:E.
  - left. split; [reflexivity | now apply Qle_bool_iff].
  - right. split; [reflexivity|]. apply Qnot_le_lt. intros H.
    apply Qle_bool_iff in H. congruence.
Qed.

Lemma rnd_neg (q : Q) :
  (q < 0)%Q ->
  (rnd q = NegInf /\ (pow2 1024 <= round_pos (- q))%Q)
  \/ (rnd q = Fin (Qred (- round_pos (- q)))
      /\ (round_pos (- q) < pow2 1024)%Q).
Proof.
  intros Hq. unfold rnd.
  assert (C : (q ?= 0)%Q = Lt) by now apply Qlt_alt.
  rewrite C. destruct (Qle_bool (pow2 1024) (round_pos (- q))) eqn:E.
  - left. split; [reflexivity | now apply Qle_bool_iff].
  - right. split; [reflexivity|]. apply Qnot_le_lt. intros H.
    apply Qle_bool_iff in H. congruence.
Qed.

Lemma rnd_zero (q : Q) : (q == 0)%Q -> rnd q = Fin 0.
Proof.
  intros E. unfold rnd.
  assert (C : (q ?= 0)%Q = Eq) by now apply Qeq_alt.
  now rewrite C.
Qed.

Lemma leb_Fin (x y : Q) : leb (Fin x) (Fin y) = true <-> (x <= y)%Q.
Proof.
  unfold leb. rewrite Qle_alt. destruct (x ?= y)%Q; split; congruence.
Qed.

(** Rounding is monotone. *)
Lemma rnd_mono (p q : Q) : (p <= q)%Q -> leb (rnd p) (rnd q) = true.
Proof.
  intros Hpq.
  destruct (Q_dec p 0) as [[Hp|Hp]|Hp]; destruct (Q_dec q 0) as [[Hq|Hq]|Hq];
    try (exfalso; lra).
  - (* both negative *)
    assert (Hm : (round_pos (- q) <= round_pos (- p))%Q)
      by (apply round_pos_mono; lra).
    destruct (rnd_neg p Hp) as [[-> Hp1] | [-> Hp1]];
      destruct (rnd_neg q Hq) as [[-> Hq1] | [-> Hq1]];
      try reflexivity.
    + exfalso. lra.
    + apply leb_Fin. rewrite !Qred_correct. lra.
  - destruct (rnd_neg p Hp) as [[-> Hp1] | [-> Hp1]];
      destruct (rnd_pos q Hq) as [[-> Hq1] | [-> Hq1]];
      try reflexivity.
    apply leb_Fin. rewrite !Qred_correct.
    pose proof (round_pos_nonneg (- p)). pose proof (round_pos_nonneg q).
    lra.
  - rewrite (rnd_zero q Hq).
    destruct (rnd_neg p Hp) as [[-> Hp1] | [-> Hp1]]; [reflexivity|].
    apply leb_Fin. rewrite Qred_correct.
    pose proof (round_pos_nonneg (- p)). lra.
  - assert (Hm : (round_pos p <= round_pos q)%Q)
      by (apply round_pos_mono; lra).
    destruct (rnd_pos p Hp) as [[-> Hp1] | [-> Hp1]];
      destruct (rnd_pos q Hq) as [[-> Hq1] | [-> Hq1]];
      try reflexivity.
    + exfalso. lra.
    + apply leb_Fin. rewrite !Qred_correct. lra.
  - rewrite (rnd_zero p Hp).
    destruct (rnd_pos q Hq) as [[-> Hq1] | [-> Hq1]]; [reflexivity|].
    apply leb_Fin. rewrite Qred_correct.
    pose proof (round_pos_nonneg q). lra.
  - rewrite (rnd_zero p Hp), (rnd_zero q Hq). reflexivity.
Qed.

Lemma Qred_inject_Z (z : Z) : Qred (inject_Z z) = inject_Z z.
Proof.
  unfold Qred, inject_Z.
  pose proof (Z.ggcd_gcd z 1) as Hg.
  pose proof (Z.ggcd_correct_divisors z 1) as Hd.
  destruct (Z.ggcd z (Z.pos 1)) as [g [aa bb]]. cbn [fst snd] in *.
  rewrite Z.gcd_1_r in Hg. subst g. destruct Hd as [Ha Hb].
  rewrite !Z.mul_1_l in *. subst aa bb. reflexivity.
Qed.

Lemma Qlog2_Z (z : Z) : 0 < z -> Qlog2 (inject_Z z) = Z.log2 z.
Proof.
  intros Hz. apply Qlog2_unique.
  destruct (Z.log2_spec z Hz) as [H1 H2].
  pose proof (Z.log2_nonneg z).
  rewrite !pow2_Z by lia. rewrite <- Zle_Qle, <- Zlt_Qlt.
  replace (Z.log2 z + 1) with (Z.succ (Z.log2 z)) by lia. now split.
Qed.

(** Integers of magnitude up to [2^53] are binary64 numbers. *)
Lemma round_pos_int (z : Z) :
  0 < z <= 2 ^ 53 -> (round_pos (inject_Z z) == inject_Z z)%Q.
Proof.
  intros [Hz Hle].
  destruct (Z.eq_dec z (2 ^ 53)) as [->|Hne]; [now vm_compute|].
  assert (Hk : 0 <= Z.log2 z < 53).
  { split; [apply Z.log2_nonneg|]. apply Z.log2_lt_pow2; lia. }
  apply (round_pos_exact _ (z * 2 ^ (52 - Z.log2 z))).
  unfold ulp_exponent. rewrite Qlog2_Z by exact Hz.
  replace (Z.max (Z.log2 z - 52) (-1074)) with (Z.log2 z - 52) by lia.
  rewrite inject_Z_mult, <- pow2_Z by lia.
  rewrite <- Qmult_assoc, <- pow2_add.
  replace (52 - Z.log2 z + (Z.log2 z - 52)) with 0 by lia.
  change (pow2 0) with 1%Q. ring.
Qed.

Lemma rnd_int (z : Z) :
  - 2 ^ 53 <= z <= 2 ^ 53 -> rnd (inject_Z z) = Fin (inject_Z z).
Proof.
  intros Hz. destruct (Z.compare_spec z 0) as [->|Hneg|Hpos].
  - reflexivity.
  - assert (Hq : (inject_Z z < 0)%Q).
    { change 0%Q with (inject_Z 0). now rewrite <- Zlt_Qlt. }
    assert (Eo : (- inject_Z z == inject_Z (- z))%Q)
      by now rewrite inject_Z_opp.
    assert (Ho : (0 < - inject_Z z)%Q).
    { rewrite Eo. change 0%Q with (inject_Z 0). rewrite <- Zlt_Qlt. lia. }
    assert (Er : (round_pos (- inject_Z z) == inject_Z (- z))%Q).
    { rewrite (round_pos_compat _ _ Ho Eo). apply round_pos_int. lia. }
    destruct (rnd_neg _ Hq) as [[_ H] | [-> _]].
    + exfalso. rewrite Er in H. change (pow2 1024) with (inject_Z (2 ^ 1024)) in H.
      rewrite <- Zle_Qle in H. lia.
    + f_equal. apply eq_trans with (Qred (inject_Z z));
        [|apply Qred_inject_Z].
      apply Qred_complete. rewrite Er, inject_Z_opp. ring.
  - assert (Hq : (0 < inject_Z z)%Q).
    { change 0%Q with (inject_Z 0). now rewrite <- Zlt_Qlt. }
    assert (Er : (round_pos (inject_Z z) == inject_Z z)%Q)
      by (apply round_pos_int; lia).
    destruct (rnd_pos _ Hq) as [[_ H] | [-> _]].
    + exfalso. rewrite Er in H. change (pow2 1024) with (inject_Z (2 ^ 1024)) in H.
      rewrite <- Zle_Qle in H. lia.
    + f_equal. apply eq_trans with (Qred (inject_Z z));
        [|apply Qred_inject_Z].
      now apply Qred_complete.
Qed.

(** In the normal range the relative error of rounding is at most
    [2^-53]. *)
Lemma rnd_error (q : Q) :
  (pow2 (-1022) <= q <= pow2 1023)%Q ->
  exists r : Q,
    rnd q = Fin r
    /\ (q * (1 - pow2 (-53)) <= r <= q * (1 + pow2 (-53)))%Q.
Proof.
  intros [Hlo Hhi].
  pose proof (pow2_pos (-1022)) as Hp.
  assert (Hq : (0 < q)%Q) by lra.
  assert (Hfin : (round_pos q < pow2 1024)%Q).
  { apply Qle_lt_trans with (round_pos (pow2 1023)).
    - now apply round_pos_mono.
    - now vm_compute. }
  destruct (rnd_pos q Hq) as [[_ H] | [-> _]]; [exfalso; lra|].
  exists (Qred (round_pos q)). split; [reflexivity|].
  rewrite Qred_correct.
  destruct (Qlog2_spec q Hq) as [H1 H2].
  assert (Hk : -1022 <= Qlog2 q).
  { assert (-1022 < Qlog2 q + 1); [|lia]. apply pow2_lt_inv. lra. }
  pose proof (round_pos_near q) as [N1 N2].
  unfold ulp_exponent in N1, N2.
  replace (Z.max (Qlog2 q - 52) (-1074)) with (Qlog2 q - 52) in N1, N2 by lia.
  assert (E : (pow2 (Qlog2 q - 52) * (1 # 2) == pow2 (Qlog2 q) * pow2 (-53))%Q).
  { replace (Qlog2 q - 52) with (Qlog2 q + (-53) + 1) by lia.
    rewrite pow2_succ, pow2_add. ring. }
  rewrite E in N1, N2.
  pose proof (pow2_pos (-53)) as H53.
  set (u := pow2 (-53)) in *. set (b := pow2 (Qlog2 q)) in *.
  set (r := round_pos q) in *. clearbody u b r.
  split; nra.
Qed.

End Rounding.

(** ** Numbers *)

Section NumberFacts.

Lemma Qsign_pos (q : Q) : (0 < q)%Q -> Qsign q = Gt.
Proof.
  intros H. unfold Qsign. now apply Qgt_alt.
Qed.

Lemma Qsign_inject_Z_pos (z : Z) : 0 < z -> Qsign (inject_Z z) = Gt.
Proof.
  intros H. apply Qsign_pos. unfold Qlt; simpl. lia.
Qed.

Lemma Qsign_inject_Z_zero : Qsign (inject_Z 0) = Eq.
Proof. reflexivity. Qed.

Lemma ltb_Fin (x y : Q) : ltb (Fin x) (Fin y) = true <-> (x < y)%Q.
Proof.
  unfold ltb. rewrite Qlt_alt. destruct (x ?= y)%Q; split; congruence.
Qed.

Lemma ltb_Fin_false (x y : Q) : ltb (Fin x) (Fin y) = false <-> (y <= x)%Q.
Proof.
  rewrite <- Bool.not_true_iff_false, ltb_Fin. split.
  - apply Qnot_lt_le.
  - apply Qle_not_lt.
Qed.

Lemma ltb_of_Z (a b : Z) : ltb (of_Z a) (of_Z b) = (a <? b).
Proof.
  unfold ltb, of_Z, Qcompare, inject_Z, Z.ltb; simpl.
  now rewrite !Z.mul_1_r.
Qed.

Lemma leb_of_Z (a b : Z) : leb (of_Z a) (of_Z b) = (a <=? b).
Proof.
  unfold leb, of_Z, Qcompare, inject_Z, Z.leb; simpl.
  now rewrite !Z.mul_1_r.
Qed.

(** [a > b] is false exactly when [a <= b], for numbers that are not
    [NaN]. *)
Lemma gtb_false_leb (a b : JsNumber) :
  a <> NaN -> b <> NaN -> gtb a b = false -> leb a b = true.
Proof.
  intros Ha Hb. unfold gtb.
  destruct a as [x| | |], b as [y| | |]; try reflexivity; try discriminate;
    try (now elim Ha); try (now elim Hb).
  rewrite ltb_Fin_false. now rewrite leb_Fin.
Qed.

Lemma leb_gtb_false (a b : JsNumber) : leb a b = true -> gtb a b = false.
Proof.
  unfold gtb. destruct a as [x| | |], b as [y| | |]; try reflexivity;
    try discriminate.
  rewrite ltb_Fin_false. now rewrite leb_Fin.
Qed.

(** Rounding never gives [NaN]. *)
Lemma rnd_not_NaN (q : Q) : rnd q <> NaN.
Proof.
  unfold rnd. destruct (q ?= 0)%Q; [discriminate|..];
    destruct (Qle_bool _ _); discriminate.
Qed.

(** Division of two counts with a positive divisor is the rounded
    quotient. *)
Lemma div_of_Z_pos (a b : Z) :
  0 < b -> div (of_Z a) (of_Z b) = rnd (inject_Z a / inject_Z b).
Proof.
  intros H. unfold div, of_Z. now rewrite Qsign_inject_Z_pos.
Qed.

Lemma div_same_ratio (a b c d : Z) :
  0 < b -> 0 < d -> a * d = c * b ->
  div (of_Z a) (of_Z b) = div (of_Z c) (of_Z d).
Proof.
  intros Hb Hd H. rewrite !div_of_Z_pos by assumption.
  apply rnd_compat.
  unfold Qeq, Qdiv, Qmult, Qinv, inject_Z; simpl.
  destruct b as [|b|b]; try lia. destruct d as [|d|d]; try lia.
  simpl. lia.
Qed.

(** The product of two integers that is an integer of magnitude up to
    [2^53] is exact. *)
Lemma mul_of_Z (a b : Z) :
  - 2 ^ 53 <= a * b <= 2 ^ 53 -> mul (of_Z a) (of_Z b) = of_Z (a * b).
Proof.
  intros H. unfold mul, of_Z.
  rewrite (rnd_compat _ (inject_Z (a * b))) by (now rewrite inject_Z_mult).
  now apply rnd_int.
Qed.

(** The loop variable is incremented in binary64. *)
Lemma counter_step (i : nat) : add (counter i) (of_Z 1) = counter (S i).
Proof.
  unfold counter, add, of_Z.
  rewrite (rnd_compat _ (inject_Z (Z.min (Z.of_nat i) (2 ^ 53) + 1)))
    by (now rewrite inject_Z_plus).
  destruct (Z_lt_le_dec (Z.of_nat i) (2 ^ 53)) as [Hlt|Hge].
  - rewrite rnd_int by lia. do 2 f_equal. lia.
  - replace (Z.min (Z.of_nat i) (2 ^ 53)) with (2 ^ 53) by lia.
    replace (Z.min (Z.of_nat (S i)) (2 ^ 53)) with (2 ^ 53) by lia.
    now vm_compute.
Qed.

Lemma counter_small (i : nat) :
  Z.of_nat i <= 2 ^ 53 -> counter i = of_nat i.
Proof.
  intros H. unfold counter, of_nat. f_equal. lia.
Qed.

Lemma counter_is_double (i : nat) : is_double (counter i).
Proof.
  unfold counter, of_Z, is_double. apply rnd_int. lia.
Qed.

End NumberFacts.

(** ** Output dimensions *)

Section Dimensions.

Lemma resolution_height_cases (r : Resolution) :
  resolution_height r = 1080 \/ resolution_height r = 720
  \/ resolution_height r = 540.
Proof. destruct r; auto. Qed.

(** The rounded quotient of two counts below [2^32] is positive and has a
    relative error of at most [2^-53]. *)
Lemma div_counts_error (a b : Z) :
  0 < a < 2 ^ 32 -> 0 < b < 2 ^ 32 ->
  exists r : Q,
    div (of_Z a) (of_Z b) = Fin r
    /\ (inject_Z a / inject_Z b * (1 - pow2 (-53)) <= r
        <= inject_Z a / inject_Z b * (1 + pow2 (-53)))%Q.
Proof.
  intros Ha Hb. rewrite div_of_Z_pos by lia. apply rnd_error.
  assert (Hbq : (0 < inject_Z b)%Q).
  { change 0%Q with (inject_Z 0). rewrite <- Zlt_Qlt. lia. }
  split.
  - apply Qle_shift_div_l; [exact Hbq|].
    apply Qle_trans with (pow2 (-1022) * inject_Z (2 ^ 32))%Q.
    + apply Qmult_le_l; [apply pow2_pos|]. rewrite <- Zle_Qle. lia.
    + apply Qle_trans with 1%Q; [now vm_compute|].
      change 1%Q with (inject_Z 1). rewrite <- Zle_Qle. lia.
  - apply Qle_shift_div_r; [exact Hbq|].
    apply Qle_trans with (inject_Z (2 ^ 32)); [rewrite <- Zle_Qle; lia|].
    apply Qle_trans with (pow2 1023 * 1)%Q; [now vm_compute|].
    apply Qmult_le_l; [apply pow2_pos|].
    change 1%Q with (inject_Z 1). rewrite <- Zle_Qle. lia.
Qed.

Lemma inject_Z_sub (a b : Z) :
  inject_Z (a - b) = (inject_Z a - inject_Z b)%Q.
Proof.
  unfold Z.sub, Qminus. now rewrite inject_Z_plus, inject_Z_opp.
Qed.

Lemma two_roundings_above (h x p r1 r2 : Q) :
  (0 < h)%Q -> (0 <= p)%Q -> (r1 <= x * p)%Q -> (r2 <= h * r1 * p)%Q ->
  (r2 <= h * x * (p * p))%Q.
Proof.
  intros Hh Hp H1 H2. apply Qle_trans with (h * r1 * p)%Q; [exact H2|].
  setoid_replace (h * x * (p * p))%Q with (h * (x * p) * p)%Q by ring.
  apply Qmult_le_compat_r; [|exact Hp].
  apply Qmult_le_l; assumption.
Qed.

Lemma two_roundings_below (h x p r1 r2 : Q) :
  (0 < h)%Q -> (0 <= p)%Q -> (x * p <= r1)%Q -> (h * r1 * p <= r2)%Q ->
  (h * x * (p * p) <= r2)%Q.
Proof.
  intros Hh Hp H1 H2. apply Qle_trans with (h * r1 * p)%Q; [|exact H2].
  setoid_replace (h * x * (p * p))%Q with (h * (x * p) * p)%Q by ring.
  apply Qmult_le_compat_r; [|exact Hp].
  apply Qmult_le_l; assumption.
Qed.

Lemma nearest_above (W b N r2 e : Q) :
  (0 < b)%Q -> (W <= r2 + (1 # 2))%Q -> (r2 * b <= N + e)%Q ->
  (e < 1 # 2)%Q -> (2 * (W * b - N) < b + 1)%Q.
Proof.
  intros Hb HW Hr He.
  assert (T : (W * b <= (r2 + (1 # 2)) * b)%Q)
    by (apply Qmult_le_compat_r; lra).
  lra.
Qed.

Lemma nearest_below (W b N r2 e : Q) :
  (0 < b)%Q -> (r2 + (1 # 2) < W + 1)%Q -> (N - e <= r2 * b)%Q ->
  (e < 1 # 2)%Q -> (- b - 1 < 2 * (W * b - N))%Q.
Proof.
  intros Hb HW Hr He.
  assert (T : ((r2 + (1 # 2)) * b < (W + 1) * b)%Q)
    by (apply Qmult_lt_compat_r; lra).
  lra.
Qed.

Lemma square_above (N u : Q) :
  (0 <= N)%Q -> (0 <= u <= 1)%Q ->
  (N * ((1 + u) * (1 + u)) <= N + N * (3 * u))%Q.
Proof.
  intros HN [Hu0 Hu1].
  assert (T : (u * (N * u) <= 1 * (N * u))%Q).
  { apply Qmult_le_compat_r; [exact Hu1|].
    apply Qmult_le_0_compat; assumption. }
  lra.
Qed.

Lemma square_below (N u : Q) :
  (0 <= N)%Q -> (0 <= u <= 1)%Q ->
  (N - N * (3 * u) <= N * ((1 - u) * (1 - u)))%Q.
Proof.
  intros HN [Hu0 Hu1].
  assert (T : (0 <= N * u)%Q) by (apply Qmult_le_0_compat; assumption).
  assert (T2 : (0 <= N * u * u)%Q) by (apply Qmult_le_0_compat; assumption).
  lra.
Qed.

(** The width computed for a source of positive dimensions below [2^32]
    is the integer nearest to [height x videoWidth / videoHeight], or one
    of the two nearest. *)
Lemma width_nearest (a b : Z) (r : Resolution) :
  0 < a < 2 ^ 32 -> 0 < b < 2 ^ 32 ->
  exists W : Z,
    round (mul (of_Z (resolution_height r)) (div (of_Z a) (of_Z b))) = of_Z W
    /\ 0 <= W
    /\ - b <= 2 * (W * b - resolution_height r * a) <= b.
Proof.
  intros Ha Hb.
  set (H := resolution_height r).
  assert (HH : 540 <= H <= 1080)
    by (subst H; destruct (resolution_height_cases r) as [E|[E|E]];
        rewrite E; lia).
  destruct (div_counts_error a b Ha Hb) as (r1 & E1 & L1 & U1).
  rewrite E1.
  assert (Haq : (1 <= inject_Z a <= 4294967296)%Q).
  { change 1%Q with (inject_Z 1).
    change 4294967296%Q with (inject_Z (2 ^ 32)). rewrite <- !Zle_Qle. lia. }
  assert (Hbq : (1 <= inject_Z b <= 4294967296)%Q).
  { change 1%Q with (inject_Z 1).
    change 4294967296%Q with (inject_Z (2 ^ 32)). rewrite <- !Zle_Qle. lia. }
  assert (HHq : (540 <= inject_Z H <= 1080)%Q).
  { change 540%Q with (inject_Z 540). change 1080%Q with (inject_Z 1080).
    rewrite <- !Zle_Qle. lia. }
  assert (Ex : (inject_Z a / inject_Z b * inject_Z b == inject_Z a)%Q)
    by (field; lra).
  assert (Hx : ((1 # 4294967296) <= inject_Z a / inject_Z b
                <= 4294967296)%Q).
  { split.
    - apply Qle_shift_div_l; [lra|]. lra.
    - apply Qle_shift_div_r; [lra|].
      apply Qle_trans with (4294967296 * 1)%Q; [lra|].
      apply Qmult_le_l; lra. }
  pose proof (pow2_pos (-53)) as Hu.
  assert (Hu' : (pow2 (-53) <= 1 # 1000000)%Q) by now vm_compute.
  assert (Hconst : (1080 * 4294967296 * (3 * pow2 (-53)) < 1 # 2)%Q)
    by now vm_compute.
  assert (Hmin : (pow2 (-1022) <= 1 # 8589934592)%Q) by now vm_compute.
  assert (Hmax : (1080 * (4294967296 * 2) <= pow2 1023)%Q) by now vm_compute.
  set (aq := inject_Z a) in *. set (bq := inject_Z b) in *.
  set (Hq := inject_Z H) in *. set (x := (aq / bq)%Q) in *.
  set (u := pow2 (-53)) in *.
  assert (Hr1 : ((1 # 8589934592) <= r1 <= 4294967296 * 2)%Q).
  { assert (T1 : (x * (1 # 2) <= x * (1 - u))%Q)
      by (apply Qmult_le_l; lra).
    assert (T2 : (x * (1 + u) <= x * 2)%Q) by (apply Qmult_le_l; lra).
    lra. }
  assert (Hnorm : (pow2 (-1022) <= Hq * r1 <= pow2 1023)%Q).
  { assert (T1 : (1 * r1 <= Hq * r1)%Q)
      by (apply Qmult_le_compat_r; lra).
    assert (T2 : (Hq * r1 <= 1080 * r1)%Q)
      by (apply Qmult_le_compat_r; lra).
    split.
    - apply Qle_trans with (1 # 8589934592)%Q; [exact Hmin | lra].
    - apply Qle_trans with (1080 * (4294967296 * 2))%Q; [lra | exact Hmax]. }
  destruct (rnd_error _ Hnorm) as (r2 & E2 & L2 & U2). fold u in L2, U2.
  unfold mul, of_Z. fold Hq. rewrite E2. unfold round.
  set (W := Qfloor (r2 + (1 # 2))).
  exists W. split; [reflexivity|].
  pose proof (Qfloor_le (r2 + (1 # 2))) as F1.
  pose proof (Qlt_floor (r2 + (1 # 2))) as F2. fold W in F1, F2.
  rewrite inject_Z_plus in F2. change (inject_Z 1) with 1%Q in F2.
  assert (B1 : (r2 <= Hq * x * ((1 + u) * (1 + u)))%Q)
    by (apply (two_roundings_above Hq x (1 + u) r1 r2); lra).
  assert (B2 : (Hq * x * ((1 - u) * (1 - u)) <= r2)%Q)
    by (apply (two_roundings_below Hq x (1 - u) r1 r2); lra).
  assert (HN : (0 <= Hq * aq <= 1080 * 4294967296)%Q).
  { assert (T1 : (Hq * aq <= 1080 * aq)%Q)
      by (apply Qmult_le_compat_r; lra).
    assert (T2 : (0 <= Hq * aq)%Q) by (apply Qmult_le_0_compat; lra).
    lra. }
  assert (Hsmall : (Hq * aq * (3 * u) < 1 # 2)%Q).
  { apply Qle_lt_trans with (1080 * 4294967296 * (3 * u))%Q;
      [|exact Hconst].
    apply Qmult_le_compat_r; lra. }
  assert (Hr2 : (0 <= r2)%Q).
  { apply Qle_trans with (Hq * x * ((1 - u) * (1 - u)))%Q; [|exact B2].
    apply Qmult_le_0_compat; [apply Qmult_le_0_compat; lra|].
    apply Qmult_le_0_compat; lra. }
  assert (Eb : forall p : Q, (Hq * x * p * bq == Hq * aq * p)%Q).
  { intros p. rewrite <- Ex. ring. }
  split.
  - assert (HW : (-1 < inject_Z W)%Q) by lra.
    change (-1)%Q with (inject_Z (-1)) in HW. rewrite <- Zlt_Qlt in HW. lia.
  - assert (Up : (2 * (inject_Z W * bq - Hq * aq) < bq + 1)%Q).
    { apply (nearest_above _ _ _ r2 (Hq * aq * (3 * u))); try lra.
      apply Qle_trans with (Hq * x * ((1 + u) * (1 + u)) * bq)%Q.
      - apply Qmult_le_compat_r; lra.
      - rewrite Eb. apply square_above; lra. }
    assert (Lo : (- bq - 1 < 2 * (inject_Z W * bq - Hq * aq))%Q).
    { apply (nearest_below _ _ _ r2 (Hq * aq * (3 * u))); try lra.
      apply Qle_trans with (Hq * x * ((1 - u) * (1 - u)) * bq)%Q.
      - rewrite Eb. apply square_below; lra.
      - apply Qmult_le_compat_r; lra. }
    subst bq Hq aq.
    assert (Up' : (inject_Z (2 * (W * b - H * a)) < inject_Z (b + 1))%Q).
    { rewrite !inject_Z_mult, inject_Z_plus, inject_Z_sub, !inject_Z_mult.
      exact Up. }
    assert (Lo' : (inject_Z (- b - 1) < inject_Z (2 * (W * b - H * a)))%Q).
    { rewrite !inject_Z_mult, !inject_Z_sub, inject_Z_opp, !inject_Z_mult.
      exact Lo. }
    rewrite <- Zlt_Qlt in Up', Lo'. lia.
Qed.

End Dimensions.

Section DimensionsOfSource.

(** The quotient of the recorded dimensions counts as unknown exactly when
    the width is zero (dimensions below [2^32]). *)
Lemma aspect_known (a b : Z) :
  0 < a < 2 ^ 32 -> 0 < b < 2 ^ 32 ->
  or_else (div (of_Z a) (of_Z b)) (div (of_Z 16) (of_Z 9))
  = div (of_Z a) (of_Z b).
Proof.
  intros Ha Hb. destruct (div_counts_error a b Ha Hb) as (r1 & E1 & L1 & _).
  rewrite E1. unfold or_else, truthy.
  assert (Hr : (0 < r1)%Q).
  { eapply Qlt_le_trans; [|exact L1].
    apply Qmult_lt_0_compat; [|now vm_compute].
    apply Qlt_shift_div_l.
    - change 0%Q with (inject_Z 0). rewrite <- Zlt_Qlt. lia.
    - rewrite Qmult_0_l. change 0%Q with (inject_Z 0).
      rewrite <- Zlt_Qlt. lia. }
  now rewrite (Qsign_pos r1 Hr).
Qed.

Lemma aspect_unknown (b : N) :
  or_else (div (of_N 0) (of_N b)) (div (of_Z 16) (of_Z 9))
  = div (of_Z 16) (of_Z 9).
Proof.
  destruct b as [|b]; [reflexivity|].
  unfold of_N. rewrite div_of_Z_pos by reflexivity.
  rewrite (rnd_zero (inject_Z (Z.of_N 0) / inject_Z (Z.of_N (N.pos b))));
    [reflexivity|].
  unfold Qdiv. apply Qmult_0_l.
Qed.

(** The dimensions for the aspect ratio 16:9. *)
Lemma dimensions_16_9 (r : Resolution) :
  {| width := round (mul (of_Z (resolution_height r))
                         (div (of_Z 16) (of_Z 9)));
     height := of_Z (resolution_height r) |}
  = match r with
    | R1080p => dims 1920 1080
    | R720p => dims 1280 720
    | R540p => dims 960 540
    end.
Proof. destruct r; now vm_compute. Qed.

End DimensionsOfSource.

(** Claim C6 as stated fails.  The earlier variant does not look at the
    source: a 640 x 480 source at 720p gives 1280 x 720, where
    round(720 x 640 / 480) is 960.  And [video-edit.tsx] rounds twice
    before [Math.round]: for a 21 x 480 source at 720p the product
    [720 * (21 / 480)] is just below 31.5 in binary64 and the width is 31,
    where round(720 x 21 / 480) = round(31.5) is 32. *)
Lemma dimensions_claim_fails :
  ~ dimensions_claim WebmOnly 640 480 R720p
  /\ ~ dimensions_claim WithFormat 21 480 R720p.
Proof.
  split; intros H; specialize (H eq_refl eq_refl);
    vm_compute in H; discriminate H.
Qed.

(** Claim C6, amended.  The height of the output is 1080, 720 or 540 for
    the resolutions 1080p, 720p, 540p.  In [video-edit.tsx], for a source
    whose recorded dimensions are positive (and below 2^32, as the
    browser reports them), the width is a non-negative integer within half
    a pixel of height x videoWidth / videoHeight: the nearest integer, or
    one of the two nearest when the exact value lies halfway.  The aspect
    ratio is 16/9 when the recorded width is 0, and always in the earlier
    variant, which never looks at the source; the dimensions are then
    1920 x 1080, 1280 x 720 and 960 x 540, as they are for every 16:9
    source. *)
Theorem getCanvasDimensions_spec :
  forall (flow : Flow) (vw vh : N) (r : Resolution),
    let d := getCanvasDimensions flow vw vh r in
    let sixteen_nine := match r with
                        | R1080p => dims 1920 1080
                        | R720p => dims 1280 720
                        | R540p => dims 960 540
                        end in
    height d = of_Z (match r with
                     | R1080p => 1080 | R720p => 720 | R540p => 540
                     end)
    /\ (flow = WithFormat ->
        (0 < vw < 2 ^ 32)%N -> (0 < vh < 2 ^ 32)%N ->
        exists W : Z,
          width d = of_Z W /\ 0 <= W
          /\ - Z.of_N vh
             <= 2 * (W * Z.of_N vh - resolution_height r * Z.of_N vw)
             <= Z.of_N vh)
    /\ (flow = WebmOnly \/ vw = 0%N -> d = sixteen_nine)
    /\ (forall k : N, (0 < k)%N -> vw = (16 * k)%N -> vh = (9 * k)%N ->
        d = sixteen_nine).
Proof.
  intros flow vw vh r d sixteen_nine. subst d sixteen_nine.
  split; [|split; [|split]].
  - destruct r; reflexivity.
  - intros -> Hvw Hvh.
    assert (Ha : 0 < Z.of_N vw < 2 ^ 32).
    { split; [lia|]. change (2 ^ 32) with (Z.of_N (2 ^ 32)). lia. }
    assert (Hb : 0 < Z.of_N vh < 2 ^ 32).
    { split; [lia|]. change (2 ^ 32) with (Z.of_N (2 ^ 32)). lia. }
    unfold getCanvasDimensions, aspectRatio, of_N; cbn [width height].
    rewrite (aspect_known _ _ Ha Hb).
    exact (width_nearest _ _ r Ha Hb).
  - intros Hdef.
    assert (Hr : aspectRatio flow vw vh = div (of_Z 16) (of_Z 9)).
    { destruct Hdef as [-> | ->]; [reflexivity|].
      destruct flow; [apply aspect_unknown | reflexivity]. }
    unfold getCanvasDimensions. rewrite Hr. apply dimensions_16_9.
  - intros k Hk -> ->.
    assert (Hr : aspectRatio flow (16 * k) (9 * k) = div (of_Z 16) (of_Z 9)).
    { destruct flow; [|reflexivity]. unfold aspectRatio, of_N.
      rewrite (div_same_ratio _ _ 16 9) by lia. reflexivity. }
    unfold getCanvasDimensions. rewrite Hr. apply dimensions_16_9.
Qed.

Lemma getCanvasDimensions_spec_witness :
  (exists W : Z,
      width (getCanvasDimensions WithFormat 21 480 R720p) = of_Z W
      /\ 0 <= W /\ - 480 <= 2 * (W * 480 - 720 * 21) <= 480)
  /\ getCanvasDimensions WithFormat 1920 1080 R720p = dims 1280 720
  /\ getCanvasDimensions WebmOnly 640 480 R720p = dims 1280 720.
Proof.
  destruct (getCanvasDimensions_spec WithFormat 21 480 R720p)
    as (_ & Hw & _ & _).
  destruct (getCanvasDimensions_spec WithFormat 1920 1080 R720p)
    as (_ & _ & _ & H169).
  destruct (getCanvasDimensions_spec WebmOnly 640 480 R720p)
    as (_ & _ & Hdef & _).
  split; [|split].
  - apply Hw; [reflexivity | split; reflexivity | split; reflexivity].
  - apply (H169 120%N); reflexivity.
  - apply Hdef. now left.
Defined.

(** ** Pixel filters *)

Section FrameBuffers.

Lemma pixels_of_bytes_of (ps : list Pixel) : pixels_of (bytes_of ps) = ps.
Proof.
  induction ps as [|[r g b a] ps IH]; simpl; [reflexivity | now rewrite IH].
Qed.

Lemma length_bytes_of (ps : list Pixel) :
  List.length (bytes_of ps) = (4 * List.length ps)%nat.
Proof.
  induction ps as [|p ps IH]; simpl; [reflexivity | rewrite IH; lia].
Qed.

(** A buffer of [4 * n] bytes splits into [n] pixels and is recovered from
    them. *)
Lemma pixels_of_whole (n : nat) :
  forall data, List.length data = (4 * n)%nat ->
    List.length (pixels_of data) = n /\ bytes_of (pixels_of data) = data.
Proof.
  induction n as [|n IH]; intros data Hlen.
  - destruct data; [split; reflexivity | discriminate].
  - destruct data as [|r [|g [|b [|a rest]]]]; simpl in Hlen; try lia.
    destruct (IH rest) as [Hl Hb]; [lia|].
    simpl. rewrite Hl, Hb. split; reflexivity.
Qed.

Lemma pixels_of_valid :
  forall data, Forall is_byte data -> Forall valid_pixel (pixels_of data).
Proof.
  fix IH 1. intros [|r [|g [|b [|a rest]]]] H; simpl; try constructor.
  - pose proof (Forall_inv H) as Hr.
    pose proof (Forall_inv (Forall_inv_tail H)) as Hg.
    pose proof (Forall_inv (Forall_inv_tail (Forall_inv_tail H))) as Hb.
    pose proof (Forall_inv (Forall_inv_tail (Forall_inv_tail
                                               (Forall_inv_tail H)))) as Ha.
    unfold valid_pixel; simpl. auto.
  - apply IH.
    exact (Forall_inv_tail (Forall_inv_tail (Forall_inv_tail
                                               (Forall_inv_tail H)))).
Qed.

Lemma onmessage_some (m : FrameMessage) (out : list Z) :
  onmessage m = Some out ->
  List.length (frameImageData m) = (4 * (msg_width m * msg_height m))%nat
  /\ out = bytes_of (map (draw_filtered (canvas_filter (msg_filter m)))
                         (pixels_of (frameImageData m))).
Proof.
  unfold onmessage.
  destruct (Nat.eqb_spec (List.length (frameImageData m))
                         (4 * msg_width m * msg_height m)) as [E|E];
    [|discriminate].
  destruct (Nat.eqb (List.length (frameImageData m)) 0); [discriminate|].
  intros [= <-]. split; [lia | reflexivity].
Qed.

(** The worker answers exactly the messages with a buffer of the right
    size that is not empty. *)
Lemma onmessage_accepts (m : FrameMessage) :
  (List.length (frameImageData m) = (4 * msg_width m * msg_height m)%nat
   /\ List.length (frameImageData m) <> 0%nat)
  <-> exists out, onmessage m = Some out.
Proof.
  unfold onmessage.
  destruct (Nat.eqb_spec (List.length (frameImageData m))
                         (4 * msg_width m * msg_height m)) as [E|E];
    destruct (Nat.eqb_spec (List.length (frameImageData m)) 0) as [Z|Z];
    cbn [andb negb]; split.
  all: try (intros [H1 H2]; congruence).
  all: try (intros [out H]; discriminate H).
  - intros _. eauto.
  - intros _. now split.
Qed.

End FrameBuffers.

Section Kernels.

Lemma clamp_byte (c : Z) : is_byte c -> clamp c = c.
Proof. unfold is_byte, clamp. lia. Qed.

Lemma mix_thousandths (a b c : Z) (p : Pixel) :
  (mix (a # 1000) (b # 1000) (c # 1000) p + (1 # 2) ==
   (a * red p + b * green p + c * blue p + 500) # 1000)%Q.
Proof.
  unfold mix, Qeq, Qplus, Qmult, inject_Z; simpl. lia.
Qed.

(** The rounded mix, before saturation, as an integer quotient. *)
Lemma round_mix (a b c : Z) (p : Pixel) :
  Qfloor (mix (a # 1000) (b # 1000) (c # 1000) p + (1 # 2))
  = (a * red p + b * green p + c * blue p + 500) / 1000.
Proof.
  rewrite mix_thousandths. reflexivity.
Qed.

Lemma luma_round_byte (p : Pixel) :
  valid_pixel p ->
  is_byte (Qfloor (mix (299 # 1000) (587 # 1000) (114 # 1000) p + (1 # 2))).
Proof.
  intros (Hr & Hg & Hb & _). rewrite round_mix. unfold is_byte in *.
  split.
  - apply Z.div_pos; lia.
  - apply Z.lt_succ_r. apply Z.div_lt_upper_bound; lia.
Qed.

Lemma invert_valid (p : Pixel) : valid_pixel p -> valid_pixel (invert p).
Proof.
  intros (Hr & Hg & Hb & Ha). unfold valid_pixel, invert, is_byte, clamp in *.
  simpl. lia.
Qed.

Lemma invert_invert (p : Pixel) : valid_pixel p -> invert (invert p) = p.
Proof.
  destruct p as [r g b a]. intros (Hr & Hg & Hb & Ha).
  unfold is_byte in *; cbn [red green blue alpha] in *.
  unfold invert; cbn [red green blue alpha].
  unfold clamp. f_equal; lia.
Qed.

Lemma map_invert_invert (ps : list Pixel) :
  Forall valid_pixel ps -> map invert (map invert ps) = ps.
Proof.
  induction 1 as [|p ps Hp _ IH]; simpl; [reflexivity|].
  now rewrite invert_invert, IH.
Qed.

End Kernels.

(** Claim C7.  For every pixel (R, G, B, A) the grayscale filter gives
    (luma, luma, luma, A) with luma = round(0.299 R + 0.587 G + 0.114 B),
    a byte; and in the buffer the worker posts back for a frame filtered
    with grayscale, each of the width x height pixels has equal red, green
    and blue and the alpha it had. *)
Theorem grayscale_spec :
  (forall p : Pixel, valid_pixel p ->
     let l := Qfloor ((299 # 1000) * inject_Z (red p)
                      + (587 # 1000) * inject_Z (green p)
                      + (114 # 1000) * inject_Z (blue p) + (1 # 2))%Q in
     draw_filtered (canvas_filter Grayscale) p
     = {| red := l; green := l; blue := l; alpha := alpha p |}
     /\ is_byte l)
  /\ (forall (m : FrameMessage) (out : list Z),
        msg_filter m = Grayscale ->
        onmessage m = Some out ->
        List.length (pixels_of out) = (msg_width m * msg_height m)%nat
        /\ forall (k : nat) (q0 q : Pixel),
            nth_error (pixels_of (frameImageData m)) k = Some q0 ->
            nth_error (pixels_of out) k = Some q ->
            red q = green q /\ green q = blue q /\ alpha q = alpha q0).
Proof.
  split.
  - intros p Hp l.
    assert (Hl : is_byte l) by (apply (luma_round_byte p Hp)).
    split; [|exact Hl].
    change (draw_filtered (canvas_filter Grayscale) p) with (grayscale p).
    unfold grayscale, luma, to_channel.
    change (Qfloor (mix (299 # 1000) (587 # 1000) (114 # 1000) p + (1 # 2)))
      with l.
    now rewrite (clamp_byte l Hl).
  - intros m out Hf Hout.
    apply onmessage_some in Hout. destruct Hout as [Hlen ->].
    rewrite Hf. rewrite pixels_of_bytes_of.
    destruct (pixels_of_whole _ _ Hlen) as [Hn _].
    split; [now rewrite length_map|].
    intros k q0 q Hq0 Hq.
    rewrite nth_error_map, Hq0 in Hq. injection Hq as <-.
    change (draw_filtered (canvas_filter Grayscale) q0) with (grayscale q0).
    simpl. repeat split; reflexivity.
Qed.

Lemma grayscale_spec_witness :
  draw_filtered (canvas_filter Grayscale)
    {| red := 200; green := 100; blue := 50; alpha := 255 |}
  = {| red := 124; green := 124; blue := 124; alpha := 255 |}
  /\ List.length (pixels_of [124; 124; 124; 255]) = 1%nat.
Proof.
  destruct grayscale_spec as [Hpixel Hframe]. split.
  - apply (Hpixel {| red := 200; green := 100; blue := 50; alpha := 255 |}).
    unfold valid_pixel, is_byte; simpl. lia.
  - apply (Hframe {| frameImageData := [200; 100; 50; 255]; msg_width := 1;
                     msg_height := 1; msg_filter := Grayscale |});
      reflexivity.
Defined.

(** Claim C8.  The invert filter maps every pixel (R, G, B, A) to
    (255 - R, 255 - G, 255 - B, A); applying it twice gives the pixel back,
    and sending a frame through the worker twice with the invert filter
    gives the buffer back. *)
Theorem invert_involution :
  (forall p : Pixel, valid_pixel p ->
     draw_filtered (canvas_filter Invert) p
     = {| red := 255 - red p; green := 255 - green p; blue := 255 - blue p;
          alpha := alpha p |}
     /\ draw_filtered (canvas_filter Invert)
          (draw_filtered (canvas_filter Invert) p) = p)
  /\ (forall (m : FrameMessage) (out : list Z),
        msg_filter m = Invert ->
        Forall is_byte (frameImageData m) ->
        onmessage m = Some out ->
        onmessage (with_data m out) = Some (frameImageData m)).
Proof.
  change (draw_filtered (canvas_filter Invert)) with invert.
  split.
  - intros p Hp. split.
    + destruct Hp as (Hr & Hg & Hb & _). unfold invert, is_byte in *.
      rewrite !clamp_byte by (unfold is_byte; lia). reflexivity.
    + now apply invert_invert.
  - intros m out Hf Hbytes Hout.
    assert (Hne : List.length (frameImageData m) <> 0%nat).
    { apply (onmessage_accepts m). eauto. }
    apply onmessage_some in Hout. destruct Hout as [Hlen ->].
    destruct (pixels_of_whole _ _ Hlen) as [Hn Hback].
    unfold onmessage, with_data; simpl.
    rewrite Hf. change (draw_filtered (canvas_filter Invert)) with invert.
    rewrite length_bytes_of, length_map, Hn, pixels_of_bytes_of.
    rewrite map_invert_invert by now apply pixels_of_valid.
    rewrite Hback.
    replace (4 * (msg_width m * msg_height m))%nat
      with (4 * msg_width m * msg_height m)%nat by lia.
    rewrite Nat.eqb_refl.
    destruct (Nat.eqb_spec (4 * msg_width m * msg_height m) 0) as [Z|Z];
      [|reflexivity].
    exfalso. rewrite Hlen in Hne. lia.
Qed.

Lemma invert_involution_witness :
  draw_filtered (canvas_filter Invert)
    {| red := 10; green := 0; blue := 255; alpha := 7 |}
  = {| red := 245; green := 255; blue := 0; alpha := 7 |}
  /\ onmessage (with_data
       {| frameImageData := [10; 0; 255; 7]; msg_width := 1; msg_height := 1;
          msg_filter := Invert |} [245; 255; 0; 7])
     = Some [10; 0; 255; 7].
Proof.
  destruct invert_involution as [Hpixel Hframe]. split.
  - apply (Hpixel {| red := 10; green := 0; blue := 255; alpha := 7 |}).
    unfold valid_pixel, is_byte; simpl. lia.
  - apply (Hframe {| frameImageData := [10; 0; 255; 7]; msg_width := 1;
                     msg_height := 1; msg_filter := Invert |}).
    + reflexivity.
    + repeat constructor; unfold is_byte; lia.
    + reflexivity.
Defined.

(** ** Timestamp arithmetic *)

Section Timestamps.

(** [totalFrames] is an integer or a special value. *)
Lemma totalFrames_cases (w : World) :
  (exists n, totalFrames w = of_Z n) \/ totalFrames w = PosInf
  \/ totalFrames w = NegInf \/ totalFrames w = NaN.
Proof.
  unfold totalFrames.
  destruct (mul (duration w) (of_N (fps w))) as [q| | |]; simpl; eauto.
Qed.

(** An index below [ceil x] is below [x]. *)
Lemma below_ceiling (i : Z) (x : Q) :
  i < Qceiling x -> (inject_Z i < x)%Q.
Proof.
  intros H. apply Qle_lt_trans with (inject_Z (Qceiling x - 1)).
  - rewrite <- Zle_Qle. lia.
  - apply Qceiling_lt.
Qed.

Lemma ltb_ceil (c : Z) (x : JsNumber) :
  ltb (of_Z c) (ceil x) = true -> ltb (of_Z c) x = true.
Proof.
  destruct x as [q| | |]; cbn [ceil]; try (intros H; exact H).
  rewrite ltb_of_Z. intros H. apply Z.ltb_lt in H.
  apply ltb_Fin. now apply below_ceiling.
Qed.

Lemma ltb_leb_exclusive (a b : JsNumber) :
  ltb a b = true -> leb b a = true -> False.
Proof.
  destruct a as [x| | |], b as [y| | |]; try discriminate.
  rewrite ltb_Fin, leb_Fin. apply Qlt_not_le.
Qed.

(** A binary64 number below the rounding of [q] is below [q]. *)
Lemma below_rounded (c q : Q) :
  rnd c = Fin c -> ltb (Fin c) (rnd q) = true -> (c < q)%Q.
Proof.
  intros Hc H. apply Qnot_le_lt. intros Hle.
  apply (ltb_leb_exclusive _ _ H). rewrite <- Hc. now apply rnd_mono.
Qed.

(** A rounded value is at most every binary64 number above the exact
    one. *)
Lemma rounded_below (q d : Q) :
  rnd d = Fin d -> (q <= d)%Q -> leb (rnd q) (Fin d) = true.
Proof.
  intros Hd H. rewrite <- Hd. now apply rnd_mono.
Qed.

Lemma rounded_above (q d : Q) :
  rnd d = Fin d -> (d <= q)%Q -> leb (Fin d) (rnd q) = true.
Proof.
  intros Hd H. rewrite <- Hd. now apply rnd_mono.
Qed.

Lemma interval_rounds_down_spec (f : N) :
  interval_rounds_down f = true ->
  (0 < f)%N
  /\ exists g : Q,
       div (of_Z 1) (of_N f) = Fin g
       /\ (0 <= g)%Q /\ (g * inject_Z (Z.of_N f) <= 1)%Q.
Proof.
  unfold interval_rounds_down. intros H. split.
  - destruct f; [discriminate H | reflexivity].
  - destruct (div (of_Z 1) (of_N f)) as [g| | |]; try discriminate H.
    apply andb_prop in H. destruct H as [H1 H2].
    apply Qle_bool_iff in H1, H2. eauto.
Qed.

(** The frame intervals of the rates the component offers are not rounded
    upwards. *)
Lemma offered_rounds_down (f : N) :
  In f offered_fps -> interval_rounds_down f = true.
Proof.
  intros [<- | [<- | [<- | []]]]; now vm_compute.
Qed.

(** For a duration that is a binary64 number and a frame interval that
    was not rounded upwards, the test [currentTime > duration] is false
    for every index the loop condition allows. *)
Lemma no_break (w : World) (i : nat) :
  is_double (duration w) -> interval_rounds_down (fps w) = true ->
  ltb (counter i) (totalFrames w) = true ->
  gtb (currentTime w i) (duration w) = false.
Proof.
  intros Hd Hrate H.
  destruct (interval_rounds_down_spec _ Hrate) as (Hf & g & Eg & Hg0 & Hg).
  unfold currentTime, frameInterval. rewrite Eg.
  assert (Hfq : (0 < inject_Z (Z.of_N (fps w)))%Q).
  { change 0%Q with (inject_Z 0). rewrite <- Zlt_Qlt. lia. }
  unfold totalFrames in H.
  destruct (duration w) as [d| | |] eqn:Ed.
  - cbn [is_double] in Hd. unfold counter in *.
    set (c := Z.min (Z.of_nat i) (2 ^ 53)) in *.
    apply ltb_ceil in H. unfold mul, of_N, of_Z in H.
    assert (Hc : rnd (inject_Z c) = Fin (inject_Z c))
      by (apply rnd_int; subst c; lia).
    apply (below_rounded _ _ Hc) in H.
    unfold mul, of_Z. apply leb_gtb_false. apply rounded_below; [exact Hd|].
    assert (Hc0 : (0 <= inject_Z c)%Q).
    { change 0%Q with (inject_Z 0). rewrite <- Zle_Qle. subst c. lia. }
    set (cq := inject_Z c) in *. set (fq := inject_Z (Z.of_N (fps w))) in *.
    clearbody cq fq.
    (* c * g * f <= c < d * f *)
    assert (T : (g * fq * cq <= 1 * cq)%Q)
      by (apply Qmult_le_compat_r; assumption).
    apply Qlt_le_weak. apply (Qmult_lt_r _ _ fq Hfq). lra.
  - unfold gtb. destruct (mul (counter i) (Fin g)); reflexivity.
  - exfalso. unfold mul, of_N, of_Z in H.
    rewrite (Qsign_inject_Z_pos (Z.of_N (fps w))) in H by lia.
    cbn in H. unfold counter, of_Z in H. discriminate H.
  - discriminate H.
Qed.

End Timestamps.

(** ** The frame loop *)

Section FrameLoop.

Variable w : World.

(** One step of the loop: the two tests, then the work on the frame. *)
Lemma frame_loop_step (fuel : nat) (i : nat) :
  frame_loop (S fuel) w i
  = if loop_test w i then
      match frameEvent w i with
      | SeekStalls => ([Seek (currentTime w i)], Pending)
      | CaptureThrows => ([Seek (currentTime w i)], Throw)
      | WorkerStalls =>
          ([Seek (currentTime w i); Capture; PostFrame (filter w)], Pending)
      | PushThrows =>
          ([Seek (currentTime w i); Capture; PostFrame (filter w)], Throw)
      | FrameOk =>
          (frame_effects w i ++ fst (frame_loop fuel w (S i)),
           snd (frame_loop fuel w (S i)))
      end
    else ([], Normal).
Proof.
  cbn [frame_loop]. unfold loop_test.
  destruct (ltb (counter i) (totalFrames w)); cbn [negb andb];
    [|reflexivity].
  destruct (gtb (currentTime w i) (duration w)); cbn [negb];
    [reflexivity|].
  destruct (frameEvent w i); try reflexivity.
  destruct (frame_loop fuel w (S i)); reflexivity.
Qed.

(** The shape of every run of the loop: [m] complete iterations from the
    entry index on, then nothing, or the beginning of the iteration that
    stalled or threw. *)
Lemma frame_loop_shape (fuel : nat) :
  forall i : nat,
  exists m : nat,
    fst (frame_loop fuel w i)
    = flat_map (frame_effects w) (seq i m)
      ++ match snd (frame_loop fuel w i) with
         | Pending | Throw => partial_effects w (i + m)
         | _ => []
         end
    /\ (forall j, (i <= j < i + m)%nat ->
        loop_test w j = true /\ frameEvent w j = FrameOk)
    /\ (snd (frame_loop fuel w i) = Normal -> loop_test w (i + m) = false)
    /\ (snd (frame_loop fuel w i) = Pending
        \/ snd (frame_loop fuel w i) = Throw ->
        loop_test w (i + m) = true /\ frameEvent w (i + m) <> FrameOk)
    /\ (snd (frame_loop fuel w i) = OutOfFuel -> m = fuel)
    /\ (m <= fuel)%nat.
Proof.
  induction fuel as [|fuel IH]; intros i.
  - exists 0%nat. cbn [frame_loop fst snd seq flat_map app].
    split; [reflexivity|]. split; [intros j Hj; lia|].
    split; [discriminate|]. split; [intros [E|E]; discriminate E|].
    split; [reflexivity | lia].
  - rewrite frame_loop_step.
    destruct (loop_test w i) eqn:Hlt.
    2:{ exists 0%nat. rewrite Nat.add_0_r.
        cbn [fst snd seq flat_map app].
        split; [reflexivity|]. split; [intros j Hj; lia|].
        split; [intros _; exact Hlt|].
        split; [intros [E|E]; discriminate E|].
        split; [discriminate | lia]. }
    destruct (frameEvent w i) eqn:Hev.
    1:{ destruct (IH (S i)) as (m & Heff & Hok & Hnorm & Hpart & Hfuel & Hle).
        cbn [fst snd]. exists (S m).
        replace (i + S m)%nat with (S i + m)%nat by lia.
        split; [|split; [|split; [|split; [|split]]]].
        - cbn [seq flat_map]. rewrite Heff, <- app_assoc. reflexivity.
        - intros j Hj. destruct (Nat.eq_dec j i) as [->|Hne]; [now split|].
          apply Hok. lia.
        - exact Hnorm.
        - exact Hpart.
        - intros Hc. now rewrite Hfuel.
        - lia. }
    all: exists 0%nat; rewrite Nat.add_0_r;
      cbn [fst snd seq flat_map app];
      unfold partial_effects; rewrite Hev;
      (split; [reflexivity|]); (split; [intros j Hj; lia|]);
      (split; [discriminate|]);
      (split; [intros _; split; [exact Hlt | congruence]|]);
      (split; [discriminate | lia]).
Qed.

(** With a browser that serves every frame, the loop runs through the
    indices that pass the two tests, up to the first that does not. *)
Lemma frame_loop_all_frames :
  (forall j, frameEvent w j = FrameOk) ->
  forall (k i fuel : nat),
    (forall j, (i <= j < i + k)%nat -> loop_test w j = true) ->
    loop_test w (i + k) = false -> (k < fuel)%nat ->
    frame_loop fuel w i = (flat_map (frame_effects w) (seq i k), Normal).
Proof.
  intros Hok. induction k as [|k IH]; intros i fuel Hin Hstop Hfuel.
  - destruct fuel as [|fuel]; [lia|]. rewrite frame_loop_step.
    rewrite Nat.add_0_r in Hstop. now rewrite Hstop.
  - destruct fuel as [|fuel]; [lia|]. rewrite frame_loop_step.
    rewrite (Hin i) by lia. rewrite Hok.
    rewrite (IH (S i) fuel); [| |now replace (S i + k)%nat
                                    with (i + S k)%nat by lia | lia].
    + cbn [fst snd seq flat_map]. reflexivity.
    + intros j Hj. apply Hin. lia.
Qed.

(** More budget than the loop needs does not change its run. *)
Lemma frame_loop_fuel_enough (fuel : nat) :
  forall i fuel',
    snd (frame_loop fuel w i) <> OutOfFuel -> (fuel <= fuel')%nat ->
    frame_loop fuel' w i = frame_loop fuel w i.
Proof.
  induction fuel as [|fuel IH]; intros i fuel' Hc Hle.
  - now elim Hc.
  - destruct fuel' as [|fuel']; [lia|]. rewrite !frame_loop_step in *.
    destruct (loop_test w i); [|reflexivity].
    destruct (frameEvent w i); try reflexivity.
    cbn [snd] in Hc. rewrite (IH (S i) fuel'); [reflexivity|exact Hc|lia].
Qed.

(** Projections of the iterations. *)
Lemma seek_times_frames (l : list nat) :
  seek_times (flat_map (frame_effects w) l) = map (currentTime w) l.
Proof.
  induction l as [|i l IH]; [reflexivity|].
  unfold seek_times in *. cbn [flat_map]. rewrite flat_map_app, IH.
  reflexivity.
Qed.

Lemma progress_values_frames (l : list nat) :
  progress_values (flat_map (frame_effects w) l) = map (progress w) l.
Proof.
  induction l as [|i l IH]; [reflexivity|].
  unfold progress_values in *. cbn [flat_map]. rewrite flat_map_app, IH.
  reflexivity.
Qed.

Lemma pushes_frames (l : list nat) :
  pushes (flat_map (frame_effects w) l) = map (fun _ => tt) l.
Proof.
  induction l as [|i l IH]; [reflexivity|].
  unfold pushes in *. cbn [flat_map]. rewrite flat_map_app, IH.
  reflexivity.
Qed.

Lemma artifacts_frames (l : list nat) :
  artifacts (flat_map (frame_effects w) l) = [].
Proof.
  induction l as [|i l IH]; [reflexivity|].
  unfold artifacts in *. cbn [flat_map]. rewrite flat_map_app, IH.
  reflexivity.
Qed.

Lemma downloads_frames (l : list nat) :
  downloads (flat_map (frame_effects w) l) = [].
Proof.
  induction l as [|i l IH]; [reflexivity|].
  unfold downloads in *. cbn [flat_map]. rewrite flat_map_app, IH.
  reflexivity.
Qed.

Lemma error_toasts_frames (l : list nat) :
  error_toasts (flat_map (frame_effects w) l) = [].
Proof.
  induction l as [|i l IH]; [reflexivity|].
  unfold error_toasts in *. cbn [flat_map]. rewrite flat_map_app, IH.
  reflexivity.
Qed.

Lemma lifecycle_frames (l : list nat) :
  lifecycle (flat_map (frame_effects w) l) = [].
Proof.
  induction l as [|i l IH]; [reflexivity|].
  unfold lifecycle in *. cbn [flat_map]. rewrite flat_map_app, IH.
  reflexivity.
Qed.

Lemma lifecycle_partial (i : nat) : lifecycle (partial_effects w i) = [].
Proof.
  unfold partial_effects. now destruct (frameEvent w i).
Qed.

Lemma seek_times_partial (i : nat) :
  frameEvent w i <> FrameOk ->
  seek_times (partial_effects w i) = [currentTime w i].
Proof.
  unfold partial_effects. destruct (frameEvent w i); intros H;
    [now elim H | reflexivity..].
Qed.

Lemma partial_silent (i : nat) :
  progress_values (partial_effects w i) = []
  /\ pushes (partial_effects w i) = []
  /\ artifacts (partial_effects w i) = []
  /\ downloads (partial_effects w i) = []
  /\ error_toasts (partial_effects w i) = [].
Proof.
  unfold partial_effects. destruct (frameEvent w i); repeat split.
Qed.

End FrameLoop.

(** ** Anatomy of a run *)

Section Projections.

Lemma seek_times_app (a b : list Effect) :
  seek_times (a ++ b) = seek_times a ++ seek_times b.
Proof. apply flat_map_app. Qed.

Lemma progress_values_app (a b : list Effect) :
  progress_values (a ++ b) = progress_values a ++ progress_values b.
Proof. apply flat_map_app. Qed.

Lemma pushes_app (a b : list Effect) : pushes (a ++ b) = pushes a ++ pushes b.
Proof. apply flat_map_app. Qed.

Lemma artifacts_app (a b : list Effect) :
  artifacts (a ++ b) = artifacts a ++ artifacts b.
Proof. apply flat_map_app. Qed.

Lemma downloads_app (a b : list Effect) :
  downloads (a ++ b) = downloads a ++ downloads b.
Proof. apply flat_map_app. Qed.

Lemma error_toasts_app (a b : list Effect) :
  error_toasts (a ++ b) = error_toasts a ++ error_toasts b.
Proof. apply flat_map_app. Qed.

Lemma lifecycle_app (a b : list Effect) :
  lifecycle (a ++ b) = lifecycle a ++ lifecycle b.
Proof. apply flat_map_app. Qed.

End Projections.

Create Rewrite HintDb projections.

#[local] Hint Rewrite seek_times_app progress_values_app pushes_app
  artifacts_app downloads_app error_toasts_app
  seek_times_frames progress_values_frames pushes_frames artifacts_frames
  downloads_frames error_toasts_frames
  lifecycle_app lifecycle_frames lifecycle_partial : projections.

Ltac crunch :=
  autorewrite with projections;
  cbn [app flat_map seek_times progress_values pushes artifacts downloads
       error_toasts lifecycle prologue finally_block catch_block map];
  rewrite ?app_nil_r.

Section Anatomy.

Variables (fuel : nat) (flow : Flow) (w : World).

(** What the projections of the trace of a run are: [m] frames pushed,
    [m'] frames sought, all of them past the two tests of the loop. *)
Lemma export_anatomy :
  let r := exportVideoFuel fuel flow w in
  exists m m' : nat,
    pushes (trace r) = map (fun _ => tt) (seq 0 m)
    /\ progress_values (trace r)
       = match status r with NotStarted => [] | _ => [of_Z 0] end
         ++ map (progress w) (seq 0 m)
    /\ seek_times (trace r) = map (currentTime w) (seq 0 m')
    /\ (m <= m' <= S m)%nat
    /\ (forall j, (j < m')%nat -> loop_test w j = true)
    /\ (forall j, (j < m)%nat -> frameEvent w j = FrameOk)
    /\ (m <= fuel)%nat
    /\ (status r = Completed -> m' = m /\ loop_test w m = false)
    /\ artifacts (trace r)
       = match status r with
         | Completed => [blob_type flow (format w)]
         | _ => []
         end
    /\ downloads (trace r)
       = match status r with
         | Completed =>
             if downloadRef w then [download_name flow w] else []
         | _ => []
         end
    /\ error_toasts (trace r)
       = match status r with Failed => [tt] | _ => [] end.
Proof.
  intros r. subst r. unfold exportVideoFuel, try_block.
  destruct (videoFile w) eqn:Hfile, (videoRef w) eqn:Href; cbn [negb orb];
    try (exists 0%nat, 0%nat; cbn; repeat split; (lia || discriminate)).
  destruct (tempCtx w) eqn:Htmp; cbn [negb];
    [| exists 0%nat, 0%nat; cbn; repeat split; (lia || discriminate)].
  destruct (outputCtx w) eqn:Hout; cbn [negb];
    [| exists 0%nat, 0%nat; cbn; repeat split; (lia || discriminate)].
  assert (Haudio : exists ae a, audio_setup flow w = Some (ae, a)
                   /\ (ae = [] \/ ae = [WarnNoAudio])).
  { unfold audio_setup, videoUrl. rewrite Hfile.
    destruct flow; [destruct (audioDecodes w)|]; cbn; eauto. }
  destruct Haudio as (ae & a & -> & Hae).
  destruct (recorderAccepts w) eqn:Hrec; cbn [negb].
  2:{ exists 0%nat, 0%nat.
      destruct Hae as [-> | ->]; cbn; repeat split; (lia || discriminate). }
  destruct (frame_loop_shape w fuel 0)
    as (m & Heff & Hok & Hnorm & Hpart & _ & Hmf).
  destruct (frame_loop fuel w 0) as [frames c]. cbn [fst snd] in *.
  subst frames. cbn [Nat.add] in *.
  destruct (partial_silent w m) as (Pp & Ppu & Pa & Pd & Pe).
  assert (Hadm : forall j, (j < m)%nat -> loop_test w j = true)
    by (intros j Hj; apply Hok; lia).
  assert (Hfine : forall j, (j < m)%nat -> frameEvent w j = FrameOk)
    by (intros j Hj; apply Hok; lia).
  destruct c; cbn [trace status]; unfold finish.
  - exists m, m.
    destruct Hae as [-> | ->], a, (downloadRef w) eqn:Hdl; crunch.
    all: repeat split; try lia; try reflexivity; try exact Hadm;
      try exact Hfine.
    all: now apply Hnorm.
  - exists m, m.
    destruct Hae as [-> | ->], a; crunch.
    all: repeat split; try lia; try reflexivity; try discriminate;
      try exact Hadm; try exact Hfine.
  - destruct Hpart as [Hlt Hne]; [now right|].
    exists m, (S m).
    destruct Hae as [-> | ->], a; crunch.
    all: rewrite ?Pp, ?Ppu, ?Pa, ?Pd, ?Pe, ?(seek_times_partial w m Hne).
    all: rewrite ?app_nil_r, ?seq_S, ?map_app.
    all: repeat split; try lia; try reflexivity; try discriminate;
      try exact Hfine.
    all: intros j Hj; destruct (Nat.eq_dec j m) as [->|]; [exact Hlt|];
      apply Hadm; lia.
  - destruct Hpart as [Hlt Hne]; [now left|].
    exists m, (S m).
    destruct Hae as [-> | ->], a; crunch.
    all: rewrite ?Pp, ?Ppu, ?Pa, ?Pd, ?Pe, ?(seek_times_partial w m Hne).
    all: rewrite ?app_nil_r, ?seq_S, ?map_app.
    all: repeat split; try lia; try reflexivity; try discriminate;
      try exact Hfine.
    all: intros j Hj; destruct (Nat.eq_dec j m) as [->|]; [exact Hlt|];
      apply Hadm; lia.
  - exists m, m.
    destruct Hae as [-> | ->], a; crunch.
    all: repeat split; try lia; try reflexivity; try discriminate;
      try exact Hadm; try exact Hfine.
Qed.


End Anatomy.

(** ** Frame requests *)

Section FrameRequests.

Lemma nth_error_seq_inv (len s k x : nat) :
  nth_error (seq s len) k = Some x -> x = (s + k)%nat /\ (k < len)%nat.
Proof.
  revert s k. induction len as [|len IH]; intros s k H.
  - destruct k; discriminate H.
  - destruct k as [|k]; simpl in H.
    + injection H as <-. lia.
    + apply IH in H. lia.
Qed.

Lemma nth_error_seq_lt (len s k : nat) :
  (k < len)%nat -> nth_error (seq s len) k = Some (s + k)%nat.
Proof.
  revert s k. induction len as [|len IH]; intros s k H; [lia|].
  destruct k as [|k]; simpl.
  - f_equal. lia.
  - rewrite IH by lia. f_equal. lia.
Qed.

Lemma filter_all {A : Type} (f : A -> bool) (l : list A) :
  Forall (fun x => f x = true) l -> List.filter f l = l.
Proof.
  induction 1 as [|x l Hx _ IH]; simpl; [reflexivity|].
  now rewrite Hx, IH.
Qed.

Lemma iterations_count (n : Z) : iterations (of_Z n) = Z.to_nat n.
Proof.
  unfold iterations, of_Z. now rewrite Qceiling_Z.
Qed.

(** A source the loop handles as intended: the duration is a binary64
    number, the frame interval was not rounded upwards, and the frame
    count is an integer up to [2^53]. *)
Variables (w : World) (n : Z).
Hypothesis Hdouble : is_double (duration w).
Hypothesis Hrate : interval_rounds_down (fps w) = true.
Hypothesis Hn : totalFrames w = of_Z n.
Hypothesis Hn53 : n <= 2 ^ 53.

(** The two tests of the loop let exactly the indices below [totalFrames]
    pass. *)
Lemma loop_test_count (j : nat) : loop_test w j = (Z.of_nat j <? n).
Proof.
  unfold loop_test.
  destruct (Z.ltb_spec (Z.of_nat j) n) as [Hlt|Hge].
  - assert (H : ltb (counter j) (totalFrames w) = true).
    { rewrite Hn. unfold counter. rewrite ltb_of_Z. apply Z.ltb_lt. lia. }
    now rewrite H, (no_break w j Hdouble Hrate H).
  - rewrite Hn. unfold counter. rewrite ltb_of_Z.
    replace (Z.min (Z.of_nat j) (2 ^ 53) <? n) with false; [reflexivity|].
    symmetry. apply Z.ltb_ge. lia.
Qed.

(** The loop of a browser that serves every frame. *)
Lemma healthy_loop (fuel : nat) :
  (forall j, frameEvent w j = FrameOk) -> (Z.to_nat n < fuel)%nat ->
  frame_loop fuel w 0
  = (flat_map (frame_effects w) (seq 0 (Z.to_nat n)), Normal).
Proof.
  intros Hok Hfuel. apply frame_loop_all_frames; [exact Hok| | |exact Hfuel].
  - intros j Hj. rewrite loop_test_count. apply Z.ltb_lt. lia.
  - rewrite loop_test_count. apply Z.ltb_ge. lia.
Qed.

(** A job that starts in a browser where nothing goes wrong runs to the
    end of [try]. *)
Lemma healthy_completes (flow : Flow) :
  healthy w -> status (exportVideo flow w) = Completed.
Proof.
  intros (Hfile & Href & Htmp & Hout & Hrec & Hok).
  unfold exportVideo, exportVideoFuel, try_block, audio_setup, videoUrl.
  rewrite Hfile, Href, Htmp, Hout, Hrec. cbn [negb orb].
  rewrite healthy_loop; [|exact Hok|rewrite Hn, iterations_count; lia].
  destruct flow; [destruct (audioDecodes w)|]; reflexivity.
Qed.

(** In a completed run the frames sought are exactly the indices below
    [totalFrames]. *)
Lemma completed_seeks (fuel : nat) (flow : Flow) :
  status (exportVideoFuel fuel flow w) = Completed ->
  seek_times (trace (exportVideoFuel fuel flow w))
  = map (currentTime w) (seq 0 (Z.to_nat n))
  /\ frames_pushed (trace (exportVideoFuel fuel flow w)) = Z.to_nat n.
Proof.
  intros Hc.
  destruct (export_anatomy fuel flow w)
    as (m & m' & Hpush & _ & Hseek & _ & Hadm & _ & _ & Hdone & _).
  destruct (Hdone Hc) as [-> Hstop].
  assert (Hm : m = Z.to_nat n).
  { rewrite loop_test_count in Hstop. apply Z.ltb_ge in Hstop.
    destruct m as [|m]; [lia|].
    pose proof (Hadm m (Nat.lt_succ_diag_r m)) as Hlast.
    rewrite loop_test_count in Hlast. apply Z.ltb_lt in Hlast. lia. }
  split.
  - now rewrite Hseek, Hm.
  - unfold frames_pushed. now rewrite Hpush, length_map, length_seq.
Qed.

End FrameRequests.

Section SoughtTimes.

(** Every timestamp a run seeks to passed the two tests of the loop. *)
Lemma sought_passed_tests (fuel : nat) (flow : Flow) (w : World) :
  exists m' : nat,
    seek_times (trace (exportVideoFuel fuel flow w))
    = map (currentTime w) (seq 0 m')
    /\ forall j, (j < m')%nat -> loop_test w j = true.
Proof.
  destruct (export_anatomy fuel flow w)
    as (m & m' & _ & _ & Hseek & _ & Hadm & _).
  exists m'. now split.
Qed.

(** The frame count of a positive duration at a positive rate is
    positive. *)
Lemma totalFrames_positive (w : World) (d : Q) (n : Z) :
  duration w = Fin d -> rnd d = Fin d -> (0 < d)%Q -> (0 < fps w)%N ->
  totalFrames w = of_Z n ->
  1 <= n /\ of_Z n = ceil (mul (Fin d) (of_N (fps w))).
Proof.
  intros Hd Hdd Hpos Hf Hn. unfold totalFrames in Hn. rewrite Hd in Hn.
  split; [|now symmetry].
  unfold mul, of_N, of_Z in Hn.
  assert (Hle : leb (Fin d) (rnd (d * inject_Z (Z.of_N (fps w)))) = true).
  { apply rounded_above; [exact Hdd|].
    assert (Hfq : (1 <= inject_Z (Z.of_N (fps w)))%Q).
    { change 1%Q with (inject_Z 1). rewrite <- Zle_Qle. lia. }
    setoid_replace d with (d * 1)%Q at 1 by ring.
    apply Qmult_le_l; assumption. }
  destruct (rnd (d * inject_Z (Z.of_N (fps w)))) as [p| | |];
    try discriminate Hn.
  apply leb_Fin in Hle. cbn [ceil] in Hn. unfold of_Z in Hn.
  assert (En : n = Qceiling p).
  { injection Hn as Hn. unfold inject_Z in Hn. congruence. }
  assert (H0 : 0 < Qceiling p); [|lia].
  rewrite Zlt_Qlt. change (inject_Z 0) with 0%Q.
  apply Qlt_le_trans with p; [lra | apply Qle_ceiling].
Qed.

End SoughtTimes.

(** Claim C1.  No run of the export ever issues a frame request with a
    timestamp beyond the duration of the source.  For a frame rate the
    component offers and a positive finite duration (a binary64 number,
    with a frame count of at most 2^53), a job that nothing interrupts
    computes totalFrames = ceil(duration x fps), the product taken in
    binary64, and issues exactly totalFrames frame requests, each with a
    timestamp not beyond the duration. *)
Theorem frame_requests_count :
  (forall (fuel : nat) (flow : Flow) (w : World),
      Forall (fun t => gtb t (duration w) = false)
             (seek_times (trace (exportVideoFuel fuel flow w))))
  /\ (forall (flow : Flow) (w : World) (d : Q) (n : Z),
        healthy w -> In (fps w) offered_fps ->
        duration w = Fin d -> rnd d = Fin d -> (0 < d)%Q ->
        totalFrames w = of_Z n -> n <= 2 ^ 53 ->
        let requests := seek_times (trace (exportVideo flow w)) in
        of_Z n = ceil (mul (Fin d) (of_N (fps w)))
        /\ 1 <= n
        /\ status (exportVideo flow w) = Completed
        /\ Z.of_nat (List.length requests) = n
        /\ Z.of_nat (List.length
                       (List.filter (fun t => leb t (duration w)) requests))
           = n).
Proof.
  split.
  - intros fuel flow w.
    destruct (sought_passed_tests fuel flow w) as (m' & -> & Hadm).
    apply Forall_map, Forall_forall. intros i Hi.
    apply in_seq in Hi. specialize (Hadm i ltac:(lia)).
    unfold loop_test in Hadm. apply andb_prop in Hadm.
    destruct Hadm as [_ H]. now apply negb_true_iff in H.
  - intros flow w d n Hw Hin Hd Hdd Hpos Hn Hn53 requests.
    pose proof (offered_rounds_down _ Hin) as Hrate.
    destruct (interval_rounds_down_spec _ Hrate) as (Hf & g & Eg & _).
    assert (Hdouble : is_double (duration w)) by (rewrite Hd; exact Hdd).
    destruct (totalFrames_positive w d n Hd Hdd Hpos Hf Hn) as [Hn1 Hceil].
    pose proof (healthy_completes w n Hdouble Hrate Hn Hn53 flow Hw) as Hc.
    destruct (completed_seeks w n Hdouble Hrate Hn Hn53 _ flow Hc)
      as [Hseek _].
    fold (exportVideo flow w) in Hseek. fold requests in Hseek.
    assert (Hlen : Z.of_nat (List.length requests) = n).
    { rewrite Hseek, length_map, length_seq. lia. }
    split; [exact Hceil|]. split; [exact Hn1|]. split; [exact Hc|].
    split; [exact Hlen|].
    rewrite filter_all; [exact Hlen|].
    rewrite Hseek. apply Forall_map, Forall_forall. intros i Hi.
    apply in_seq in Hi.
    assert (Hlt : loop_test w i = true).
    { rewrite (loop_test_count w n Hdouble Hrate Hn Hn53).
      apply Z.ltb_lt. lia. }
    unfold loop_test in Hlt. apply andb_prop in Hlt.
    destruct Hlt as [_ Hg]. apply negb_true_iff in Hg.
    apply gtb_false_leb; [| |exact Hg].
    + unfold currentTime, frameInterval. rewrite Eg. unfold counter, mul, of_Z.
      apply rnd_not_NaN.
    + rewrite Hd. discriminate.
Qed.

Lemma frame_requests_count_witness :
  of_Z 3 = ceil (mul (Fin tenth) (of_N 30))
  /\ status (exportVideo WithFormat (tenth_clip Grayscale)) = Completed
  /\ Z.of_nat (List.length
       (List.filter (fun t => leb t (duration (tenth_clip Grayscale)))
          (seek_times (trace (exportVideo WithFormat (tenth_clip Grayscale))))))
     = 3.
Proof.
  destruct frame_requests_count as [_ Hcount].
  destruct (Hcount WithFormat (tenth_clip Grayscale) tenth 3)
    as (H1 & _ & H3 & _ & H5).
  - unfold healthy; simpl. repeat split; reflexivity.
  - simpl. auto.
  - reflexivity.
  - now vm_compute.
  - reflexivity.
  - now vm_compute.
  - vm_compute. discriminate.
  - split; [exact H1|]. split; [exact H3 | exact H5].
Defined.

(** ** Timestamps of the requests *)

Section SeekError.

(** The timestamp of request [N] against the exact quotient [N / fps]. *)
Lemma currentTime_error (w : World) (N : nat) :
  In (fps w) offered_fps -> Z.of_nat N <= 2 ^ 53 ->
  let x := (inject_Z (Z.of_nat N) / inject_Z (Z.of_N (fps w)))%Q in
  leb (currentTime w N) (div (of_nat N) (of_N (fps w))) = true
  /\ exists q : Q,
       currentTime w N = Fin q
       /\ (x * ((1 - pow2 (-53)) * (1 - pow2 (-53))) <= q
           <= x * ((1 + pow2 (-53)) * (1 + pow2 (-53))))%Q.
Proof.
  intros Hin HN x.
  pose proof (offered_rounds_down _ Hin) as Hrate.
  destruct (interval_rounds_down_spec _ Hrate) as (Hf & g & Eg & Hg0 & Hg).
  assert (Hfb : 1 <= Z.of_N (fps w) <= 120)
    by (destruct Hin as [<- | [<- | [<- | []]]]; split; discriminate).
  assert (Hfq : (1 <= inject_Z (Z.of_N (fps w)) <= 120)%Q).
  { change 1%Q with (inject_Z 1). change 120%Q with (inject_Z 120).
    rewrite <- !Zle_Qle. exact Hfb. }
  assert (HNq : (0 <= inject_Z (Z.of_nat N) <= inject_Z (2 ^ 53))%Q).
  { change 0%Q with (inject_Z 0). rewrite <- !Zle_Qle. lia. }
  unfold currentTime, frameInterval. rewrite Eg.
  rewrite counter_small by exact HN. unfold of_nat, of_N.
  rewrite div_of_Z_pos by lia. unfold mul, of_Z. fold x.
  set (nq := inject_Z (Z.of_nat N)) in *.
  set (fq := inject_Z (Z.of_N (fps w))) in *.
  assert (Ex : (x * fq == nq)%Q) by (subst x; field; lra).
  (* the interval against 1 / fps *)
  assert (Hone : (pow2 (-1022) <= 1 / fq <= pow2 1023)%Q).
  { split.
    - apply Qle_trans with (1 # 120)%Q; [now vm_compute|].
      apply Qle_shift_div_l; [lra|]. lra.
    - apply Qle_trans with 1%Q; [|now vm_compute].
      apply Qle_shift_div_r; lra. }
  destruct (rnd_error _ Hone) as (g' & Eg' & Lg & Ug).
  assert (E : g' = g).
  { unfold frameInterval in Eg. unfold of_N in Eg.
    rewrite div_of_Z_pos in Eg by lia.
    fold fq in Eg. change (inject_Z 1) with 1%Q in Eg. congruence. }
  subst g'.
  assert (Hinv : (1 / fq * fq == 1)%Q) by (field; lra).
  assert (Hxg : (x == nq * (1 / fq))%Q) by (subst x; field; lra).
  assert (Hg1 : (g <= 1 / fq)%Q) by (apply Qle_shift_div_l; lra).
  pose proof (pow2_pos (-53)) as Hu.
  assert (Hu' : (pow2 (-53) <= 1 # 2)%Q) by now vm_compute.
  split.
  - apply rnd_mono. rewrite Hxg.
    setoid_replace (nq * g)%Q with (g * nq)%Q by ring.
    setoid_replace (nq * (1 / fq))%Q with (1 / fq * nq)%Q by ring.
    apply Qmult_le_compat_r; lra.
  - destruct (Z.eq_dec (Z.of_nat N) 0) as [E0|E0].
    + exists 0%Q. subst nq. rewrite E0 in *. change (inject_Z 0) with 0%Q in *.
      split; [apply rnd_zero; ring|].
      assert (Hx0 : (x == 0)%Q) by (rewrite Hxg; ring).
      rewrite Hx0. split; ring_simplify; apply Qle_refl.
    + assert (Hn1 : (1 <= nq)%Q).
      { subst nq. change 1%Q with (inject_Z 1). rewrite <- Zle_Qle. lia. }
      assert (Hmin : (pow2 (-1022) <= 1 # 240)%Q) by now vm_compute.
      assert (Hmax : (inject_Z (2 ^ 53) * 1 <= pow2 1023)%Q) by now vm_compute.
      assert (Hglo : ((1 # 240) <= g)%Q).
      { apply Qle_trans with (1 / fq * (1 - pow2 (-53)))%Q; [|exact Lg].
        apply Qle_trans with ((1 # 120) * (1 # 2))%Q; [now vm_compute|].
        assert (T : ((1 # 120) <= 1 / fq)%Q)
          by (apply Qle_shift_div_l; lra).
        apply Qle_trans with (1 / fq * (1 # 2))%Q.
        - apply Qmult_le_compat_r; lra.
        - apply Qmult_le_l; lra. }
      assert (Hghi : (g <= 1)%Q).
      { apply Qle_trans with (1 / fq)%Q; [exact Hg1|].
        apply Qle_shift_div_r; lra. }
      assert (Hnorm : (pow2 (-1022) <= nq * g <= pow2 1023)%Q).
      { split.
        - apply Qle_trans with (1 # 240)%Q; [exact Hmin|].
          apply Qle_trans with (1 * g)%Q; [lra|].
          apply Qmult_le_compat_r; lra.
        - apply Qle_trans with (inject_Z (2 ^ 53) * 1)%Q; [|exact Hmax].
          apply Qle_trans with (nq * 1)%Q.
          + apply Qmult_le_l; lra.
          + apply Qmult_le_compat_r; lra. }
      destruct (rnd_error _ Hnorm) as (q & Eq & Lq & Uq).
      exists q. split; [exact Eq|].
      set (u := pow2 (-53)) in *.
      assert (E1 : forall p : Q, (x * p == nq * (1 / fq) * p)%Q)
        by (intros p; rewrite Hxg; ring).
      rewrite !E1. split.
      * apply (two_roundings_below nq (1 / fq) (1 - u) g q); lra.
      * apply (two_roundings_above nq (1 / fq) (1 + u) g q); lra.
Qed.

End SeekError.

(** Claim C2 as stated fails: in a one-second export at 30 frames per
    second, request 23 seeks to [23 * (1 / 30)], which in binary64 is
    0.7666666666666666, the number below 23 / 30 = 0.7666666666666667. *)
Lemma seek_claim_fails :
  ~ seek_claim (exportVideo WithFormat one_second) one_second.
Proof.
  intros H.
  assert (E : nth_error (seek_times (trace (exportVideo WithFormat one_second)))
                        23
              = Some (Fin (863189928579345 # 1125899906842624)))
    by now vm_compute.
  apply H in E. vm_compute in E. discriminate E.
Qed.

(** Claim C2, amended.  The N-th frame request of an export (counting from
    zero) seeks the source to the binary64 product N x (1 / fps), where
    1 / fps is the binary64 quotient; every frame N written to the output
    was preceded by that request.  For the frame rates the component
    offers, the timestamp is N / fps up to a relative error of
    (1 + 2^-53)^2 - 1, and never above the binary64 quotient N / fps; it
    is not always equal to that quotient. *)
Theorem seek_timestamp_rounded :
  forall (fuel : nat) (flow : Flow) (w : World) (N : nat),
    let r := exportVideoFuel fuel flow w in
    let t := mul (counter N) (div (of_Z 1) (of_N (fps w))) in
    let x := (inject_Z (Z.of_nat N) / inject_Z (Z.of_N (fps w)))%Q in
    (forall s : JsNumber,
        nth_error (seek_times (trace r)) N = Some s -> s = t)
    /\ ((N < frames_pushed (trace r))%nat ->
        nth_error (seek_times (trace r)) N = Some t)
    /\ (In (fps w) offered_fps -> Z.of_nat N <= 2 ^ 53 ->
        leb t (div (of_nat N) (of_N (fps w))) = true
        /\ exists q : Q,
             t = Fin q
             /\ (x * ((1 - pow2 (-53)) * (1 - pow2 (-53))) <= q
                 <= x * ((1 + pow2 (-53)) * (1 + pow2 (-53))))%Q).
Proof.
  intros fuel flow w N r t x. subst r t x.
  destruct (export_anatomy fuel flow w)
    as (m & m' & Hpush & _ & Hseek & Hmm & _).
  rewrite Hseek. unfold frames_pushed.
  rewrite Hpush, length_map, length_seq. split; [|split].
  - intros s H. rewrite nth_error_map in H.
    destruct (nth_error (seq 0 m') N) as [i|] eqn:Hi; [|discriminate H].
    apply nth_error_seq_inv in Hi. destruct Hi as [-> _].
    injection H as <-. reflexivity.
  - intros HN. rewrite nth_error_map, nth_error_seq_lt by lia.
    reflexivity.
  - intros Hin HN. exact (currentTime_error w N Hin HN).
Qed.

Lemma seek_timestamp_rounded_witness :
  nth_error (seek_times (trace (exportVideo WithFormat one_second))) 23
  = Some (mul (counter 23) (div (of_Z 1) (of_N 30)))
  /\ leb (mul (counter 23) (div (of_Z 1) (of_N 30)))
         (div (of_nat 23) (of_N 30)) = true.
Proof.
  destruct (seek_timestamp_rounded 31 WithFormat one_second 23)
    as (_ & Hpushed & Hbound).
  split.
  - apply Hpushed. vm_compute. lia.
  - apply Hbound; [simpl; auto | vm_compute; discriminate].
Defined.

(** ** Clean-up *)



(** ** The artifact and its name *)

(** Claim C5 as stated fails: for the filter [none] the download name has
    no filter part. *)
Lemma download_claim_fails : ~ download_claim WithFormat (short_clip FilterNone).
Proof.
  unfold download_claim. intros H.
  destruct (H eq_refl) as [_ Hname].
  vm_compute in Hname. discriminate Hname.
Qed.

(** Claim C5, amended.  A completed export builds one blob, of type
    video/mp4 when the format is mp4 and video/webm when it is webm (always
    video/webm in the variant without a format selector), and, when the
    download anchor is mounted, starts one download named
    [{filter}-{resolution}-{fps}fps-video.{format}] for the filters sepia,
    grayscale and invert, and [{resolution}-{fps}fps-video.{format}] for
    the filter none. *)
Theorem download_name_and_type :
  forall (fuel : nat) (flow : Flow) (w : World),
    let r := exportVideoFuel fuel flow w in
    status r = Completed ->
    artifacts (trace r)
    = [match flow, format w with
       | WithFormat, Mp4 => "video/mp4"
       | _, _ => "video/webm"
       end]
    /\ (downloadRef w = true ->
        downloads (trace r)
        = [(match filter w with
            | FilterNone => ""
            | Sepia => "sepia-"
            | Grayscale => "grayscale-"
            | Invert => "invert-"
            end
            ++ match resolution w with
               | R1080p => "1080p"
               | R720p => "720p"
               | R540p => "540p"
               end
            ++ "-" ++ number_to_string (fps w) ++ "fps-video."
            ++ match flow, format w with
               | WithFormat, Mp4 => "mp4"
               | _, _ => "webm"
               end)%string]).
Proof.
  intros fuel flow w r Hc. subst r.
  destruct (export_anatomy fuel flow w)
    as (m & m' & _ & _ & _ & _ & _ & _ & _ & _ & Hart & Hdl & _).
  rewrite Hc in Hart, Hdl. split.
  - rewrite Hart. destruct flow, (format w); reflexivity.
  - intros Hd. rewrite Hdl, Hd. unfold download_name.
    destruct flow, (format w), (filter w), (resolution w); reflexivity.
Qed.

Lemma download_name_and_type_witness :
  artifacts (trace (exportVideo WithFormat (short_clip FilterNone)))
  = ["video/webm"]
  /\ downloads (trace (exportVideo WithFormat (short_clip Invert)))
     = ["invert-720p-30fps-video.webm"]
  /\ downloads (trace (exportVideo WithFormat (short_clip FilterNone)))
     = ["720p-30fps-video.webm"].
Proof.
  split; [|split].
  - apply (download_name_and_type 5 WithFormat (short_clip FilterNone)).
    reflexivity.
  - apply (download_name_and_type 5 WithFormat (short_clip Invert));
      reflexivity.
  - apply (download_name_and_type 5 WithFormat (short_clip FilterNone));
      reflexivity.
Defined.

(** ** Empty output *)

Section EmptyOutput.

(** A duration that is not positive (zero, negative or [NaN]) allows no
    frame. *)
Lemma no_duration_no_frames (w : World) (i : nat) :
  ltb (of_Z 0) (duration w) = false ->
  ltb (counter i) (totalFrames w) = false.
Proof.
  intros Hd. unfold totalFrames.
  assert (Hc : forall c : Z, c <= 0 -> ltb (counter i) (of_Z c) = false).
  { intros c Hc. unfold counter. rewrite ltb_of_Z. apply Z.ltb_ge. lia. }
  destruct (duration w) as [d| | |] eqn:E; try discriminate Hd.
  - apply ltb_Fin_false in Hd. change (inject_Z 0) with 0%Q in Hd.
    unfold mul, of_N, of_Z.
    assert (Hle : leb (rnd (d * inject_Z (Z.of_N (fps w)))) (Fin 0) = true).
    { apply rounded_below; [reflexivity|].
      assert (Hf : (0 <= inject_Z (Z.of_N (fps w)))%Q).
      { change 0%Q with (inject_Z 0). rewrite <- Zle_Qle. lia. }
      setoid_replace 0%Q with (0 * inject_Z (Z.of_N (fps w)))%Q by ring.
      apply Qmult_le_compat_r; assumption. }
    destruct (rnd (d * inject_Z (Z.of_N (fps w)))) as [p| | |];
      try discriminate Hle; cbn [ceil].
    + apply Hc. apply leb_Fin in Hle.
      apply Z.le_trans with (Qceiling 0); [|reflexivity].
      now apply Qceiling_resp_le.
    + reflexivity.
  - unfold of_N, of_Z, mul. destruct (fps w) as [|f]; [reflexivity|].
    rewrite Qsign_inject_Z_pos by reflexivity. reflexivity.
  - reflexivity.
Qed.

(** The loop throws only where drawing, reading back or writing a frame
    throws. *)
Lemma frame_loop_throw_cause (w : World) (fuel : nat) :
  forall i,
    snd (frame_loop fuel w i) = Throw ->
    exists j, frameEvent w j = CaptureThrows \/ frameEvent w j = PushThrows.
Proof.
  induction fuel as [|fuel IH]; intros i; [discriminate|].
  rewrite frame_loop_step.
  destruct (loop_test w i); [|discriminate].
  destruct (frameEvent w i) eqn:Hev; try discriminate.
  - cbn [snd]. apply IH.
  - intros _. exists i. now left.
  - intros _. exists i. now right.
Qed.

(** A job fails only when the recorder rejects the mime type or a frame
    throws. *)
Lemma failed_cause (fuel : nat) (flow : Flow) (w : World) :
  status (exportVideoFuel fuel flow w) = Failed ->
  recorderAccepts w = false
  \/ exists j, frameEvent w j = CaptureThrows \/ frameEvent w j = PushThrows.
Proof.
  unfold exportVideoFuel, try_block.
  destruct (negb (videoFile w) || negb (videoRef w)); [discriminate|].
  destruct (negb (tempCtx w)); [discriminate|].
  destruct (negb (outputCtx w)); [discriminate|].
  destruct (audio_setup flow w) as [[ae a]|]; [|discriminate].
  destruct (recorderAccepts w); cbn [negb]; [|now left].
  pose proof (frame_loop_throw_cause w fuel 0) as Hcause.
  destruct (frame_loop fuel w 0) as [frames c]. cbn [snd] in Hcause.
  destruct c; try discriminate. intros _. right. now apply Hcause.
Qed.

End EmptyOutput.

(** Claim C9 as stated fails: an export of a source of duration zero
    completes and offers an empty recording for download. *)
Lemma empty_output_claim_fails : ~ empty_output_claim WithFormat empty_clip.
Proof.
  unfold empty_output_claim. intros H.
  destruct H as [Hfailed _]; [discriminate | reflexivity |].
  vm_compute in Hfailed. discriminate Hfailed.
Qed.

(** Claim C9, amended.  When no frame is produced because the duration is
    not positive (zero, negative or unavailable), a job whose set-up
    succeeds does not fail: it completes without a frame request, stops
    the recorder, builds the (empty) blob and, with the anchor mounted,
    starts the download, and reports no error.  A job fails only by an
    exception (the recorder rejects the mime type, or handling a frame
    throws); a failed job has neither artifact nor download and reports
    the error once.  A job waiting for a seek or for the worker that never
    answers has no artifact either, and reports nothing. *)
Theorem empty_export_completes :
  forall (flow : Flow) (w : World),
    (videoFile w = true -> videoRef w = true -> tempCtx w = true ->
     outputCtx w = true -> recorderAccepts w = true ->
     ltb (of_Z 0) (duration w) = false ->
     let r := exportVideo flow w in
     status r = Completed
     /\ seek_times (trace r) = []
     /\ frames_pushed (trace r) = 0%nat
     /\ artifacts (trace r) = [blob_type flow (format w)]
     /\ downloads (trace r)
        = (if downloadRef w then [download_name flow w] else [])
     /\ error_toasts (trace r) = [])
    /\ (forall fuel : nat,
        let r := exportVideoFuel fuel flow w in
        (status r = Failed ->
         artifacts (trace r) = [] /\ downloads (trace r) = []
         /\ error_toasts (trace r) = [tt]
         /\ (recorderAccepts w = false
             \/ exists j, frameEvent w j = CaptureThrows
                          \/ frameEvent w j = PushThrows))
        /\ (status r = Suspended ->
            artifacts (trace r) = [] /\ downloads (trace r) = []
            /\ error_toasts (trace r) = [])).
Proof.
  intros flow w. split.
  - intros Hfile Href Htmp Hout Hrec Hd r.
    assert (Hc : status r = Completed).
    { subst r.
      unfold exportVideo, exportVideoFuel, try_block, audio_setup, videoUrl.
      rewrite Hfile, Href, Htmp, Hout, Hrec. cbn [negb orb frame_loop].
      rewrite (no_duration_no_frames w 0 Hd). cbn [negb].
      destruct flow; [destruct (audioDecodes w)|]; reflexivity. }
    destruct (export_anatomy (S (iterations (totalFrames w))) flow w)
      as (m & m' & Hpush & _ & Hseek & Hmm & Hadm & _ & _ & Hdone
          & Hart & Hdl & Herr).
    fold (exportVideo flow w) in *. fold r in Hpush, Hseek, Hdone, Hart, Hdl, Herr.
    rewrite Hc in Hart, Hdl, Herr.
    assert (Hm' : m' = 0%nat).
    { destruct m' as [|k]; [reflexivity|]. exfalso.
      pose proof (Hadm 0%nat (Nat.lt_0_succ k)) as H0.
      unfold loop_test in H0.
      rewrite (no_duration_no_frames w 0 Hd) in H0. discriminate H0. }
    assert (Hm : m = 0%nat) by lia.
    subst m m'. unfold frames_pushed. rewrite Hpush, Hseek.
    repeat split; assumption.
  - intros fuel r. subst r.
    destruct (export_anatomy fuel flow w)
      as (m & m' & _ & _ & _ & _ & _ & _ & _ & _ & Hart & Hdl & Herr).
    split; intros Hst; rewrite Hst in Hart, Hdl, Herr.
    + split; [exact Hart|]. split; [exact Hdl|]. split; [exact Herr|].
      now apply (failed_cause fuel flow w).
    + now repeat split.
Qed.

Lemma empty_export_completes_witness :
  status (exportVideo WithFormat empty_clip) = Completed
  /\ artifacts (trace (exportVideo WithFormat empty_clip)) = ["video/webm"]
  /\ downloads (trace (exportVideo WithFormat empty_clip))
     = ["grayscale-720p-30fps-video.webm"].
Proof.
  destruct (empty_export_completes WithFormat empty_clip) as [H _].
  destruct H as (H1 & _ & _ & H4 & H5 & _); try reflexivity.
  split; [exact H1|]. split; [exact H4 | exact H5].
Defined.


(** ** Cancellation *)

Section Cancellation.

Variables (w : World) (c : nat -> bool).

(** The loop does not read the request. *)
Lemma frame_loop_with_cancel (fuel : nat) :
  forall i, frame_loop fuel (with_cancel w c) i = frame_loop fuel w i.
Proof.
  induction fuel as [|fuel IH]; intros i; [reflexivity|].
  cbn [frame_loop]. rewrite IH. reflexivity.
Qed.

Lemma exportVideoFuel_with_cancel (fuel : nat) (flow : Flow) :
  exportVideoFuel fuel flow (with_cancel w c) = exportVideoFuel fuel flow w.
Proof.
  unfold exportVideoFuel, try_block. rewrite frame_loop_with_cancel.
  reflexivity.
Qed.

(** Which iterations of the loop get as far as their seek: those within
    the budget for which the two tests at the top of the iteration passed,
    for the iteration itself and all before it, and before which every
    frame went through. *)
Lemma loop_seeks (fuel : nat) :
  forall i k : nat,
    (k < List.length (seek_times (fst (frame_loop fuel w i))))%nat
    <-> (k < fuel)%nat
        /\ (forall j, (i <= j <= i + k)%nat -> loop_test w j = true)
        /\ (forall j, (i <= j < i + k)%nat -> frameEvent w j = FrameOk).
Proof.
  induction fuel as [|fuel IH]; intros i k.
  - cbn. split; [lia | intros [H _]; lia].
  - rewrite frame_loop_step.
    destruct (loop_test w i) eqn:Ht.
    2:{ cbn. split; [lia|]. intros (_ & H & _).
        rewrite (H i) in Ht by lia. discriminate Ht. }
    assert (Hcut : frameEvent w i <> FrameOk ->
              ((k < 1)%nat
               <-> (k < S fuel)%nat
                   /\ (forall j, (i <= j <= i + k)%nat -> loop_test w j = true)
                   /\ (forall j, (i <= j < i + k)%nat ->
                       frameEvent w j = FrameOk))).
    { intros Hne. split.
      - intros Hk. assert (k = 0)%nat by lia. subst k.
        split; [lia|]. split; intros j Hj; [|lia].
        assert (j = i) by lia. now subst j.
      - intros (_ & _ & H). destruct k as [|k]; [lia|].
        exfalso. apply Hne. apply H. lia. }
    destruct (frameEvent w i) eqn:Hev;
      try (cbn [fst seek_times flat_map app List.length];
           apply Hcut; discriminate).
    cbn [fst]. rewrite seek_times_app.
    cbn [frame_effects seek_times flat_map app List.length].
    fold (seek_times (fst (frame_loop fuel w (S i)))).
    destruct k as [|k].
    + split; [|intros _; lia]. intros _.
      split; [lia|]. split; intros j Hj; [|lia].
      assert (j = i) by lia. now subst j.
    + specialize (IH (S i) k). split.
      * intros Hk. destruct IH as [IH _].
        destruct IH as (Hf & Ht' & Hok); [lia|].
        split; [lia|]. split; intros j Hj.
        -- destruct (Nat.eq_dec j i) as [->|]; [exact Ht | apply Ht'; lia].
        -- destruct (Nat.eq_dec j i) as [->|]; [exact Hev | apply Hok; lia].
      * intros (Hf & Ht' & Hok). destruct IH as [_ IH].
        assert (k < List.length (seek_times (fst (frame_loop fuel w (S i)))))%nat;
          [|lia].
        apply IH. split; [lia|]. split; intros j Hj.
        -- apply Ht'. lia.
        -- apply Hok. lia.
Qed.

(** The seeks of a job that reaches the loop are those of the loop. *)
Lemma seeks_of_job (fuel : nat) (flow : Flow) :
  reaches_loop w ->
  seek_times (trace (exportVideoFuel fuel flow w))
  = seek_times (fst (frame_loop fuel w 0)).
Proof.
  intros (Hfile & Href & Htmp & Hout & Hrec).
  unfold exportVideoFuel, try_block, audio_setup, videoUrl.
  rewrite Hfile, Href, Htmp, Hout, Hrec. cbn [negb orb].
  destruct (frame_loop fuel w 0) as [frames cc]. cbn [fst].
  destruct flow; [destruct (audioDecodes w)|];
    destruct cc; cbn [trace]; unfold finish;
    destruct (downloadRef w); crunch; reflexivity.
Qed.

End Cancellation.

(** Claim C4 as stated fails: with a request to cancel raised before the
    second of four frames, the job still samples and pushes the four
    frames and builds the blob. *)
Lemma cancellation_claim_fails :
  ~ cancellation_claim WithFormat
      (with_cancel (short_clip Grayscale) (fun i => Nat.eqb i 1)) 1.
Proof.
  unfold cancellation_claim. intros H.
  destruct H as [Hart _]; [reflexivity | vm_compute; lia|].
  vm_compute in Hart. discriminate Hart.
Qed.

(** Claim C4, amended.  [exportVideo] has no cancellation input and no
    cancelled status: a request to cancel changes nothing in a run.  The
    only tests at the top of a loop iteration are the loop condition
    [i < totalFrames] and [currentTime > duration]: iteration [k] gets as
    far as its seek exactly when these two passed for every iteration up
    to [k] and every frame before [k] went through.  So a job that nothing
    interrupts, with a request raised before iteration [k], still samples
    and pushes frame [k] and every other frame, builds the blob and
    completes. *)
Theorem cancellation_ignored :
  forall (fuel : nat) (flow : Flow) (w : World) (c : nat -> bool),
    exportVideoFuel fuel flow (with_cancel w c) = exportVideoFuel fuel flow w
    /\ (reaches_loop w ->
        forall k : nat,
          (k < List.length
                 (seek_times
                    (trace (exportVideoFuel fuel flow (with_cancel w c)))))%nat
          <-> (k < fuel)%nat
              /\ (forall j, (j <= k)%nat -> loop_test w j = true)
              /\ (forall j, (j < k)%nat -> frameEvent w j = FrameOk))
    /\ (forall (n : Z) (k : nat),
          healthy w -> is_double (duration w) -> In (fps w) offered_fps ->
          totalFrames w = of_Z n -> n <= 2 ^ 53 ->
          c k = true -> Z.of_nat k < n ->
          let r := exportVideo flow (with_cancel w c) in
          status r = Completed
          /\ artifacts (trace r) = [blob_type flow (format w)]
          /\ nth_error (seek_times (trace r)) k = Some (currentTime w k)
          /\ Z.of_nat (List.length (seek_times (trace r))) = n
          /\ Z.of_nat (frames_pushed (trace r)) = n).
Proof.
  intros fuel flow w c. split; [apply exportVideoFuel_with_cancel|]. split.
  - intros Hreach k. rewrite exportVideoFuel_with_cancel.
    rewrite (seeks_of_job w fuel flow Hreach), (loop_seeks w fuel 0 k).
    cbn [Nat.add].
    split; intros (H1 & H2 & H3); (split; [exact H1|]);
      split; intros j Hj; (apply H2 || apply H3); lia.
  - intros n k Hw Hdouble Hin Hn Hn53 Hck Hk r. subst r.
    pose proof (offered_rounds_down _ Hin) as Hrate.
    unfold exportVideo.
    change (totalFrames (with_cancel w c)) with (totalFrames w).
    rewrite exportVideoFuel_with_cancel. fold (exportVideo flow w).
    pose proof (healthy_completes w n Hdouble Hrate Hn Hn53 flow Hw) as Hc.
    destruct (completed_seeks w n Hdouble Hrate Hn Hn53 _ flow Hc)
      as [Hseek Hpush].
    destruct (export_anatomy (S (iterations (totalFrames w))) flow w)
      as (_ & _ & _ & _ & _ & _ & _ & _ & _ & _ & Hart & _).
    fold (exportVideo flow w) in *. rewrite Hc in Hart.
    split; [exact Hc|]. split; [exact Hart|].
    rewrite Hseek, Hpush, length_map, length_seq, nth_error_map.
    rewrite nth_error_seq_lt by lia.
    split; [reflexivity|]. split; lia.
Qed.

Lemma cancellation_ignored_witness :
  let w := with_cancel (short_clip Grayscale) (fun i => Nat.eqb i 1) in
  exportVideo WithFormat w = exportVideo WithFormat (short_clip Grayscale)
  /\ status (exportVideo WithFormat w) = Completed
  /\ artifacts (trace (exportVideo WithFormat w)) = ["video/webm"]
  /\ Z.of_nat (frames_pushed (trace (exportVideo WithFormat w))) = 4.
Proof.
  intros w.
  destruct (cancellation_ignored 5 WithFormat (short_clip Grayscale)
              (fun i => Nat.eqb i 1)) as (Hsame & _ & Hrun).
  destruct (Hrun 4 1%nat) as (H1 & H2 & _ & _ & H5).
  - unfold healthy; simpl. repeat split; reflexivity.
  - now vm_compute.
  - simpl. auto.
  - now vm_compute.
  - vm_compute. discriminate.
  - reflexivity.
  - reflexivity.
  - split; [exact Hsame|]. split; [exact H1|]. split; [exact H2 | exact H5].
Defined.

(** ** Progress *)

Section Progress.

Lemma ratio_le (a b n : Z) :
  0 < n -> a <= b -> (inject_Z a / inject_Z n <= inject_Z b / inject_Z n)%Q.
Proof.
  intros Hn Hab. unfold Qdiv. apply Qmult_le_compat_r.
  - now rewrite <- Zle_Qle.
  - apply Qinv_le_0_compat. change 0%Q with (inject_Z 0).
    rewrite <- Zle_Qle. lia.
Qed.

(** Division by a positive count is monotone, also after rounding. *)
Lemma div_counts_mono (a b z : Z) :
  0 < z -> a <= b ->
  leb (div (of_Z a) (of_Z z)) (div (of_Z b) (of_Z z)) = true.
Proof.
  intros Hz Hab. rewrite !div_of_Z_pos by exact Hz.
  apply rnd_mono. now apply ratio_le.
Qed.

Lemma div_zero_count (z : Z) : 0 < z -> div (of_Z 0) (of_Z z) = of_Z 0.
Proof.
  intros Hz. rewrite div_of_Z_pos by exact Hz. apply rnd_zero.
  unfold Qdiv. apply Qmult_0_l.
Qed.

Lemma div_same_count (z : Z) : 0 < z -> div (of_Z z) (of_Z z) = of_Z 1.
Proof.
  intros Hz. rewrite (div_same_ratio z z 1 1) by lia. reflexivity.
Qed.

(** Scaling by 100 is monotone on the numbers from 0 on, also after
    rounding. *)
Lemma mul100_mono (x y : JsNumber) :
  leb (of_Z 0) x = true -> leb x y = true ->
  leb (mul x (of_Z 100)) (mul y (of_Z 100)) = true.
Proof.
  intros H0 Hxy.
  destruct x as [a| | |]; try discriminate H0;
    destruct y as [b| | |]; try discriminate Hxy.
  - apply leb_Fin in H0, Hxy. unfold mul, of_Z. apply rnd_mono.
    apply Qmult_le_compat_r; [exact Hxy | discriminate].
  - apply leb_Fin in H0. change (inject_Z 0) with 0%Q in H0.
    unfold mul, of_Z. cbn [inf_of_sign Qsign].
    change (Qsign (inject_Z 100)) with Gt. cbn [inf_of_sign].
    destruct (rnd (a * inject_Z 100)) eqn:E; try reflexivity.
    now elim (rnd_not_NaN _ E).
  - reflexivity.
Qed.

Variable w : World.

(** The progress after frame [j]. *)
Lemma progress_counter (j : nat) :
  progress w j = mul (div (counter (S j)) (totalFrames w)) (of_Z 100).
Proof. unfold progress. now rewrite counter_step. Qed.

(** An index the loop condition allows is below an integer frame count
    with room for one more, or the count is infinite. *)
Lemma allowed_cases (j : nat) :
  ltb (counter j) (totalFrames w) = true ->
  (exists z, totalFrames w = of_Z z
             /\ 0 <= Z.min (Z.of_nat (S j)) (2 ^ 53) <= z /\ 0 < z)
  \/ totalFrames w = PosInf.
Proof.
  intros H. destruct (totalFrames_cases w) as [[z Hz] | [Hi | [Hi | Hi]]].
  - left. exists z. split; [exact Hz|].
    rewrite Hz in H. unfold counter in H. rewrite ltb_of_Z in H.
    apply Z.ltb_lt in H. lia.
  - now right.
  - rewrite Hi in H. discriminate H.
  - rewrite Hi in H. discriminate H.
Qed.

Lemma progress_unbounded (j : nat) :
  totalFrames w = PosInf -> progress w j = of_Z 0.
Proof.
  intros H. rewrite progress_counter, H. reflexivity.
Qed.

Lemma progress_range (j : nat) :
  ltb (counter j) (totalFrames w) = true ->
  leb (of_Z 0) (progress w j) = true /\ leb (progress w j) (of_Z 100) = true.
Proof.
  intros H. destruct (allowed_cases j H) as [(z & Hz & Hj & Hpos) | Hinf].
  - rewrite progress_counter, Hz. unfold counter.
    set (c := Z.min (Z.of_nat (S j)) (2 ^ 53)) in *.
    assert (H0 : leb (of_Z 0) (div (of_Z c) (of_Z z)) = true).
    { rewrite <- (div_zero_count z Hpos). apply div_counts_mono; lia. }
    split.
    + change (of_Z 0) with (mul (of_Z 0) (of_Z 100)) at 1.
      apply mul100_mono; [reflexivity | exact H0].
    + change (of_Z 100) with (mul (of_Z 1) (of_Z 100)).
      apply mul100_mono; [exact H0|].
      rewrite <- (div_same_count z Hpos). apply div_counts_mono; lia.
  - rewrite (progress_unbounded j Hinf). split; reflexivity.
Qed.

Lemma progress_step (j : nat) :
  ltb (counter (S j)) (totalFrames w) = true ->
  leb (progress w j) (progress w (S j)) = true.
Proof.
  intros H. destruct (allowed_cases (S j) H) as [(z & Hz & Hj & Hpos) | Hinf].
  - rewrite !progress_counter, Hz. unfold counter.
    apply mul100_mono.
    + rewrite <- (div_zero_count z Hpos). apply div_counts_mono; lia.
    + apply div_counts_mono; lia.
  - rewrite !(progress_unbounded _ Hinf). reflexivity.
Qed.

(** The last index the loop condition allows brings the progress to
    100. *)
Lemma progress_last (j : nat) :
  ltb (counter j) (totalFrames w) = true ->
  ltb (counter (S j)) (totalFrames w) = false ->
  progress w j = of_Z 100.
Proof.
  intros H Hstop. destruct (allowed_cases j H) as [(z & Hz & Hj & Hpos) | Hinf].
  - rewrite Hz in H, Hstop. unfold counter in H, Hstop.
    rewrite ltb_of_Z in H, Hstop.
    apply Z.ltb_lt in H. apply Z.ltb_ge in Hstop.
    rewrite progress_counter, Hz. unfold counter.
    replace (Z.min (Z.of_nat (S j)) (2 ^ 53)) with z by lia.
    rewrite (div_same_count z Hpos). reflexivity.
  - rewrite Hinf in Hstop. discriminate Hstop.
Qed.

End Progress.

(** Claim C3 as stated fails: an export of a source of duration zero
    completes with the progress still at its initial value 0. *)
Lemma progress_claim_fails : ~ progress_claim (exportVideo WithFormat empty_clip).
Proof.
  unfold progress_claim. intros (_ & _ & _ & Hlast).
  specialize (Hlast eq_refl). vm_compute in Hlast. discriminate Hlast.
Qed.

(** ** The ffmpeg flow *)

(** The last message of the ffmpeg worker carries the progress 100. *)
Lemma worker_final_progress (events : list JsNumber) (url : string) :
  last (map message_progress (worker_messages events url)) NaN = of_Z 100.
Proof.
  unfold worker_messages. rewrite map_app. cbn [map message_progress].
  apply last_last.
Qed.

(** The listener scales every progress by 100, also that of the last
    message, before it resets the progress. *)
Lemma listener_final_progress (events : list JsNumber) (url : string) :
  exists calls,
    flat_map listener_progress (worker_messages events url)
    = calls ++ [Some (of_Z 10000); None].
Proof.
  unfold worker_messages. rewrite flat_map_app.
  eexists. cbn [flat_map listener_progress app]. reflexivity.
Qed.

(** Claim C3, amended.  In [exportVideo] the numeric progress values are
    non-decreasing and lie in [0, 100]; the first is 0, set at the start,
    and there is one more after each frame pushed.  A job that completes
    without a frame ends with the progress at 0; a job that completes
    after at least one frame, at a frame rate the component offers, ends
    with exactly 100 (the clean-up then resets the progress to null).  In
    the ffmpeg flow the component multiplies the progress of every worker
    message by 100: the last message, with progress 100, sets 10000
    before the progress is reset to null. *)
Theorem progress_channel :
  (forall (fuel : nat) (flow : Flow) (w : World),
      let r := exportVideoFuel fuel flow w in
      let ps := progress_values (trace r) in
      (forall (k : nat) (a b : JsNumber),
          nth_error ps k = Some a -> nth_error ps (S k) = Some b ->
          leb a b = true)
      /\ Forall (fun p => leb (of_Z 0) p = true /\ leb p (of_Z 100) = true) ps
      /\ (frames_pushed (trace r) <= List.length ps)%nat
      /\ (status r <> NotStarted ->
          nth_error ps 0 = Some (of_Z 0)
          /\ List.length ps = S (frames_pushed (trace r)))
      /\ (status r = Completed -> frames_pushed (trace r) = 0%nat ->
          ps = [of_Z 0])
      /\ (status r = Completed -> (1 <= frames_pushed (trace r))%nat ->
          is_double (duration w) -> In (fps w) offered_fps ->
          last ps NaN = of_Z 100))
  /\ (forall (events : list JsNumber) (url : string),
         exists calls : list (option JsNumber),
           flat_map listener_progress (worker_messages events url)
           = calls ++ [Some (of_Z 10000); None]).
Proof.
  split; [|exact listener_final_progress].
  intros fuel flow w r ps. subst ps r.
  destruct (export_anatomy fuel flow w)
    as (m & m' & Hpush & Hprog & _ & Hmm & Hadm & _ & _ & Hdone & _).
  unfold frames_pushed. rewrite Hpush, Hprog, length_map, length_seq.
  assert (Hadm' : forall j, (j < m)%nat ->
                  ltb (counter j) (totalFrames w) = true).
  { intros j Hj. specialize (Hadm j ltac:(lia)). unfold loop_test in Hadm.
    now apply andb_prop in Hadm. }
  assert (Hmono : forall k a b,
            nth_error (of_Z 0 :: map (progress w) (seq 0 m)) k = Some a ->
            nth_error (of_Z 0 :: map (progress w) (seq 0 m)) (S k) = Some b ->
            leb a b = true).
  { intros k a b Ha Hb. cbn [nth_error] in Hb.
    rewrite nth_error_map in Hb.
    destruct (nth_error (seq 0 m) k) as [i|] eqn:Hi; [|discriminate Hb].
    apply nth_error_seq_inv in Hi. destruct Hi as [-> Hk].
    injection Hb as <-. cbn [Nat.add].
    destruct k as [|k]; cbn [nth_error] in Ha.
    - injection Ha as <-. apply progress_range. now apply Hadm'.
    - rewrite nth_error_map in Ha.
      destruct (nth_error (seq 0 m) k) as [i|] eqn:Hi; [|discriminate Ha].
      apply nth_error_seq_inv in Hi. destruct Hi as [-> _].
      injection Ha as <-. cbn [Nat.add]. apply progress_step.
      now apply Hadm'. }
  assert (Hrange : Forall (fun p => leb (of_Z 0) p = true
                                    /\ leb p (of_Z 100) = true)
                          (map (progress w) (seq 0 m))).
  { apply Forall_map, Forall_forall. intros j Hj. apply in_seq in Hj.
    apply progress_range, Hadm'. lia. }
  destruct (status (exportVideoFuel fuel flow w)) eqn:Hst;
    cbn [app List.length].
  1:{ (* not started: nothing pushed, nothing emitted *)
      split; [|split; [exact Hrange|split; [|split; [|split]]]].
      - intros k a b Ha Hb. apply (Hmono (S k) a b); assumption.
      - rewrite length_map, length_seq. lia.
      - intros H. now elim H.
      - discriminate.
      - discriminate. }
  all: split; [exact Hmono|];
    (split; [constructor; [split; reflexivity | exact Hrange]|]);
    rewrite length_map, length_seq;
    (split; [lia|]); (split; [intros _; split; reflexivity|]);
    (split; [try discriminate|try discriminate]).
  - intros _ ->. reflexivity.
  - intros _ Hm Hdouble Hin.
    pose proof (offered_rounds_down _ Hin) as Hrate.
    destruct (Hdone eq_refl) as [_ Hstop].
    destruct m as [|m]; [lia|].
    rewrite seq_S, map_app. cbn [Nat.add map].
    rewrite app_comm_cons, last_last.
    apply progress_last; [apply Hadm'; lia|].
    destruct (ltb (counter (S m)) (totalFrames w)) eqn:E; [|reflexivity].
    unfold loop_test in Hstop.
    rewrite E, (no_break w (S m) Hdouble Hrate E) in Hstop.
    discriminate Hstop.
Qed.

Lemma progress_channel_witness :
  progress_values (trace (exportVideo WithFormat (short_clip Sepia)))
  = [of_Z 0; of_Z 25; of_Z 50; of_Z 75; of_Z 100]
  /\ last (progress_values
             (trace (exportVideo WithFormat (short_clip Sepia)))) NaN
     = of_Z 100
  /\ progress_values (trace (exportVideo WithFormat empty_clip)) = [of_Z 0].
Proof.
  destruct progress_channel as [Hexport _].
  split; [now vm_compute|]. split.
  - apply (Hexport 5%nat WithFormat (short_clip Sepia)).
    + reflexivity.
    + vm_compute. lia.
    + now vm_compute.
    + simpl. auto.
  - apply (Hexport 1%nat WithFormat empty_clip); reflexivity.
Defined.

(** ** Termination of the model *)

Section Budget.

Variables (flow : Flow) (w : World).

(** With an unbounded duration every index passes the two tests of the
    loop. *)
Lemma unbounded_loop_test (i : nat) :
  duration w = PosInf -> (0 < fps w)%N -> loop_test w i = true.
Proof.
  intros Hd Hf. unfold loop_test, totalFrames, gtb. rewrite Hd.
  assert (Htot : ceil (mul PosInf (of_N (fps w))) = PosInf).
  { unfold mul, of_N, of_Z. rewrite Qsign_inject_Z_pos by lia. reflexivity. }
  rewrite Htot. unfold counter, of_Z. cbn [ltb andb].
  destruct (currentTime w i); reflexivity.
Qed.

(** A run that has left the loop is the same under every larger budget. *)
Lemma exportVideoFuel_enough (fuel fuel' : nat) :
  status (exportVideoFuel fuel flow w) <> Running -> (fuel <= fuel')%nat ->
  exportVideoFuel fuel' flow w = exportVideoFuel fuel flow w.
Proof.
  intros Hst Hle. revert Hst. unfold exportVideoFuel, try_block.
  destruct (negb (videoFile w) || negb (videoRef w)); [reflexivity|].
  destruct (negb (tempCtx w)); [reflexivity|].
  destruct (negb (outputCtx w)); [reflexivity|].
  destruct (audio_setup flow w) as [[ae a]|]; [|reflexivity].
  destruct (negb (recorderAccepts w)); [reflexivity|].
  intros Hst.
  rewrite (frame_loop_fuel_enough w fuel 0 fuel'); [reflexivity| |exact Hle].
  intros Hc. apply Hst.
  destruct (frame_loop fuel w 0) as [frames c]. cbn [snd] in Hc. subst c.
  reflexivity.
Qed.

(** On a source of unbounded duration the loop of a job that nothing
    interrupts never ends. *)
Lemma unbounded_source_runs_on (fuel : nat) :
  healthy w -> duration w = PosInf -> (0 < fps w)%N ->
  status (exportVideoFuel fuel flow w) = Running.
Proof.
  intros (Hfile & Href & Htmp & Hout & Hrec & Hok) Hd Hf.
  assert (Hloop : forall k i, snd (frame_loop k w i) = OutOfFuel).
  { induction k as [|k IH]; intros i; [reflexivity|].
    rewrite frame_loop_step, (unbounded_loop_test i Hd Hf), Hok.
    cbn [snd]. apply IH. }
  unfold exportVideoFuel, try_block, audio_setup, videoUrl.
  rewrite Hfile, Href, Htmp, Hout, Hrec. cbn [negb orb].
  specialize (Hloop fuel 0%nat).
  destruct (frame_loop fuel w 0) as [frames c]. cbn [snd] in Hloop. subst c.
  destruct flow; [destruct (audioDecodes w)|]; reflexivity.
Qed.

End Budget.

(* ================================================================== *)
(** * Further properties of the export job *)

Section Pipeline.

Variable w : World.

Lemma pipeline_app (a b : list Effect) :
  pipeline (a ++ b) = pipeline a ++ pipeline b.
Proof. apply flat_map_app. Qed.

Lemma recorder_log_app (a b : list Effect) :
  recorder_log (a ++ b) = recorder_log a ++ recorder_log b.
Proof. apply flat_map_app. Qed.

Lemma notifications_app (a b : list Effect) :
  notifications (a ++ b) = notifications a ++ notifications b.
Proof. apply flat_map_app. Qed.

Lemma pipeline_frames (l : list nat) :
  pipeline (flat_map (frame_effects w) l) = flat_map (frame_pipeline w) l.
Proof.
  induction l as [|i l IH]; [reflexivity|].
  unfold pipeline in *. cbn [flat_map]. rewrite flat_map_app, IH.
  reflexivity.
Qed.

Lemma recorder_log_frames (l : list nat) :
  recorder_log (flat_map (frame_effects w) l) = [].
Proof.
  induction l as [|i l IH]; [reflexivity|].
  unfold recorder_log in *. cbn [flat_map]. rewrite flat_map_app, IH.
  reflexivity.
Qed.

Lemma notifications_frames (l : list nat) :
  notifications (flat_map (frame_effects w) l) = [].
Proof.
  induction l as [|i l IH]; [reflexivity|].
  unfold notifications in *. cbn [flat_map]. rewrite flat_map_app, IH.
  reflexivity.
Qed.

(** The loop has no [return] statement. *)
Lemma frame_loop_no_return (fuel : nat) :
  forall i, snd (frame_loop fuel w i) <> Return.
Proof.
  induction fuel as [|fuel IH]; intros i; [discriminate|].
  rewrite frame_loop_step.
  destruct (loop_test w i); [|discriminate].
  destruct (frameEvent w i); try discriminate.
  cbn [snd]. apply IH.
Qed.

Lemma partial_io (i : nat) :
  pipeline (partial_effects w i) = partial_effects w i
  /\ recorder_log (partial_effects w i) = []
  /\ notifications (partial_effects w i) = [].
Proof.
  unfold partial_effects. destruct (frameEvent w i); repeat split.
Qed.

End Pipeline.

#[local] Hint Rewrite pipeline_app recorder_log_app notifications_app
  pipeline_frames recorder_log_frames notifications_frames : projections.

Ltac crunch_io :=
  autorewrite with projections;
  cbn [app flat_map pipeline recorder_log notifications prologue
       finally_block catch_block map];
  rewrite ?app_nil_r.

Section AnatomyIO.

Variables (fuel : nat) (flow : Flow) (w : World).

(** The frame work, the recorder and the notifications over a run. *)
Lemma export_anatomy_io :
  let r := exportVideoFuel fuel flow w in
  let start := RecorderStart (mimeType flow (format w))
               :: (if has_audio flow w then [AudioStart] else []) in
  exists (m : nat) (cut : list Effect),
    pipeline (trace r) = flat_map (frame_pipeline w) (seq 0 m) ++ cut
    /\ frames_pushed (trace r) = m
    /\ (cut = []
        \/ (exited (status r) = false /\ status r <> NotStarted
            \/ status r = Failed)
           /\ (cut = [Seek (currentTime w m)]
               \/ cut = [Seek (currentTime w m); Capture;
                         PostFrame (filter w)]))
    /\ (match status r with
        | Failed | Suspended => True
        | _ => cut = []
        end)
    /\ recorder_log (trace r)
       = match status r with
         | NotStarted | Returned => []
         | Completed =>
             start ++ RecorderStop
               :: (if has_audio flow w then [AudioStop] else [])
               ++ [BlobCreated (blob_type flow (format w))]
         | Failed => if recorderAccepts w then start else []
         | Suspended | Running => start
         end
    /\ notifications (trace r)
       = match status r with
         | Completed => if downloadRef w then [ToastSuccess] else []
         | Failed => [ToastError]
         | _ => []
         end.
Proof.
  intros r start. subst r start.
  unfold exportVideoFuel, try_block, frames_pushed.
  destruct (videoFile w) eqn:Hfile, (videoRef w) eqn:Href; cbn [negb orb];
    try (exists 0%nat; exists (@nil Effect); cbn; repeat split; auto; fail).
  destruct (tempCtx w) eqn:Htmp; cbn [negb];
    [| exists 0%nat; exists (@nil Effect); cbn; repeat split; auto].
  destruct (outputCtx w) eqn:Hout; cbn [negb];
    [| exists 0%nat; exists (@nil Effect); cbn; repeat split; auto].
  assert (Haudio : exists ae, audio_setup flow w = Some (ae, has_audio flow w)
                   /\ (ae = [] \/ ae = [WarnNoAudio])).
  { unfold audio_setup, videoUrl, has_audio. rewrite Hfile.
    destruct flow; [destruct (audioDecodes w)|]; cbn; eauto. }
  destruct Haudio as (ae & -> & Hae).
  destruct (recorderAccepts w) eqn:Hrec; cbn [negb].
  2:{ exists 0%nat; exists (@nil Effect).
      destruct Hae as [-> | ->]; cbn; repeat split; auto. }
  destruct (frame_loop_shape w fuel 0)
    as (m & Heff & Hok & Hnorm & Hpart & _ & _).
  pose proof (frame_loop_no_return w fuel 0) as Hnoret.
  destruct (frame_loop fuel w 0) as [frames c]. cbn [fst snd] in *.
  subst frames. cbn [Nat.add] in *.
  destruct (partial_io w m) as (Pp & Pr & Pn).
  destruct (partial_silent w m) as (_ & Ppu & _).
  assert (Hcut : frameEvent w m <> FrameOk ->
                 partial_effects w m = [Seek (currentTime w m)]
                 \/ partial_effects w m
                    = [Seek (currentTime w m); Capture; PostFrame (filter w)]).
  { unfold partial_effects. destruct (frameEvent w m); intros H;
      [now elim H | auto..]. }
  destruct c; cbn [trace status]; unfold finish.
  - exists m; exists (@nil Effect).
    destruct Hae as [-> | ->], (has_audio flow w), (downloadRef w);
      crunch; crunch_io; rewrite ?length_map, ?length_seq;
      repeat split; auto.
  - now elim Hnoret.
  - destruct Hpart as [_ Hne]; [now right|].
    exists m; exists (partial_effects w m).
    destruct Hae as [-> | ->], (has_audio flow w);
      crunch; crunch_io; rewrite ?Pp, ?Pr, ?Pn, ?Ppu, ?app_nil_r,
        ?length_map, ?length_seq;
      (split; [reflexivity|]); (split; [reflexivity|]);
      (split; [right; split; [now right | now apply Hcut]|]);
      repeat split; auto.
  - destruct Hpart as [_ Hne]; [now left|].
    exists m; exists (partial_effects w m).
    destruct Hae as [-> | ->], (has_audio flow w);
      crunch; crunch_io; rewrite ?Pp, ?Pr, ?Pn, ?Ppu, ?app_nil_r,
        ?length_map, ?length_seq;
      (split; [reflexivity|]); (split; [reflexivity|]);
      (split; [right; split;
                 [left; split; [reflexivity | discriminate]
                 | now apply Hcut]|]);
      repeat split; auto.
  - exists m; exists (@nil Effect).
    destruct Hae as [-> | ->], (has_audio flow w);
      crunch; crunch_io; rewrite ?length_map, ?length_seq;
      repeat split; auto.
Qed.

End AnatomyIO.

(** In every run the work on the frames is a sequence of complete
    iterations in index order (seek to the timestamp of the index,
    capture, post to the worker with the selected filter, write to the
    output canvas), followed by at most one iteration that was cut short
    after its seek or after its post; a run that left [exportVideo]
    without an exception has no cut iteration. *)
Theorem frames_in_order :
  forall (fuel : nat) (flow : Flow) (w : World),
    let r := exportVideoFuel fuel flow w in
    exists (m : nat) (cut : list Effect),
      pipeline (trace r)
      = flat_map (fun i => [Seek (mul (counter i) (div (of_Z 1) (of_N (fps w))));
                            Capture; PostFrame (filter w); PutFrame])
                 (seq 0 m)
        ++ cut
      /\ frames_pushed (trace r) = m
      /\ (cut = [] \/ cut = [Seek (currentTime w m)]
          \/ cut = [Seek (currentTime w m); Capture; PostFrame (filter w)])
      /\ (status r = Completed \/ status r = Returned -> cut = []).
Proof.
  intros fuel flow w r. subst r.
  destruct (export_anatomy_io fuel flow w)
    as (m & cut & Hpipe & Hpush & Hcut & Hst & _).
  exists m, cut. split; [|split; [exact Hpush|split]].
  - exact Hpipe.
  - destruct Hcut as [H | [_ [H | H]]]; auto.
  - intros [H | H]; rewrite H in Hst; exact Hst.
Qed.

Lemma frames_in_order_witness :
  exists (m : nat) (cut : list Effect),
    pipeline (trace (exportVideoFuel 10 WithFormat (short_clip Sepia)))
    = flat_map (fun i => [Seek (mul (counter i) (div (of_Z 1) (of_N 30)));
                          Capture; PostFrame Sepia; PutFrame]) (seq 0 m)
      ++ cut
    /\ frames_pushed (trace (exportVideoFuel 10 WithFormat (short_clip Sepia)))
       = m
    /\ (cut = [] \/ cut = [Seek (currentTime (short_clip Sepia) m)]
        \/ cut = [Seek (currentTime (short_clip Sepia) m); Capture;
                  PostFrame Sepia])
    /\ (status (exportVideoFuel 10 WithFormat (short_clip Sepia)) = Completed
        \/ status (exportVideoFuel 10 WithFormat (short_clip Sepia)) = Returned
        -> cut = []).
Proof.
  exact (frames_in_order 10 WithFormat (short_clip Sepia)).
Defined.

(** The recorder over a run: it is started once the set-up is through and
    is stopped, with the blob built after the stop, exactly in the runs
    that complete; in a run that fails or hangs after the start the
    recorder and the audio source are never stopped.  The audio source is
    started and stopped with the recorder, and only in [video-edit.tsx]
    when the audio decodes. *)
Theorem recorder_lifecycle :
  forall (fuel : nat) (flow : Flow) (w : World),
    let r := exportVideoFuel fuel flow w in
    let start := RecorderStart (mimeType flow (format w))
                 :: (if has_audio flow w then [AudioStart] else []) in
    recorder_log (trace r)
    = match status r with
      | NotStarted | Returned => []
      | Completed =>
          start ++ RecorderStop
            :: (if has_audio flow w then [AudioStop] else [])
            ++ [BlobCreated (blob_type flow (format w))]
      | Failed => if recorderAccepts w then start else []
      | Suspended | Running => start
      end.
Proof.
  intros fuel flow w.
  destruct (export_anatomy_io fuel flow w)
    as (m & cut & _ & _ & _ & _ & Hrec & _).
  exact Hrec.
Qed.

(** The notifications of a run: an error toast exactly when the job
    failed, a success toast exactly when it completed with the download
    anchor mounted; an early return, and a completed export without the
    anchor, tell the user nothing. *)
Theorem notifications_of_run :
  forall (fuel : nat) (flow : Flow) (w : World),
    let r := exportVideoFuel fuel flow w in
    notifications (trace r)
    = match status r with
      | Completed => if downloadRef w then [ToastSuccess] else []
      | Failed => [ToastError]
      | _ => []
      end.
Proof.
  intros fuel flow w.
  destruct (export_anatomy_io fuel flow w)
    as (m & cut & _ & _ & _ & _ & _ & Hnote).
  exact Hnote.
Qed.

(** On a source of unbounded duration ([video.duration] is [Infinity]) a
    job that nothing interrupts never leaves the loop: after any number of
    loop iterations it has sought and pushed that many frames, is still
    running, has not stopped the recorder and has built no blob. *)
Theorem unbounded_export_never_ends :
  forall (fuel : nat) (flow : Flow) (w : World),
    healthy w -> duration w = PosInf -> (0 < fps w)%N ->
    let r := exportVideoFuel fuel flow w in
    status r = Running
    /\ List.length (seek_times (trace r)) = fuel
    /\ frames_pushed (trace r) = fuel
    /\ artifacts (trace r) = []
    /\ recorder_log (trace r)
       = RecorderStart (mimeType flow (format w))
         :: (if has_audio flow w then [AudioStart] else []).
Proof.
  intros fuel flow w (Hfile & Href & Htmp & Hout & Hrec & Hok) Hd Hf r.
  assert (Hloop : forall k i,
            frame_loop k w i
            = (flat_map (frame_effects w) (seq i k), OutOfFuel)).
  { induction k as [|k IH]; intros i; [reflexivity|].
    rewrite frame_loop_step, (unbounded_loop_test w i Hd Hf), Hok, IH.
    reflexivity. }
  subst r. unfold exportVideoFuel, try_block, audio_setup, videoUrl,
    has_audio, frames_pushed.
  rewrite Hfile, Href, Htmp, Hout, Hrec, Hloop. cbn [negb orb].
  destruct flow; [destruct (audioDecodes w)|]; cbn [trace status];
    crunch; crunch_io; rewrite ?length_map, ?length_seq; repeat split.
Qed.

Lemma unbounded_export_never_ends_witness :
  status (exportVideoFuel 1000 WithFormat (studio Sepia 30 PosInf)) = Running
  /\ frames_pushed (trace (exportVideoFuel 1000 WithFormat
                                             (studio Sepia 30 PosInf)))
     = 1000%nat.
Proof.
  destruct (unbounded_export_never_ends 1000 WithFormat
              (studio Sepia 30 PosInf)) as (H1 & _ & H3 & _).
  - unfold healthy; simpl. repeat split; reflexivity.
  - reflexivity.
  - reflexivity.
  - split; [exact H1 | exact H3].
Defined.

(** ** Sampling and progress *)

Section Sampling.

(** The timestamps do not decrease with the index. *)
Lemma currentTime_mono (w : World) (i : nat) :
  (0 < fps w)%N -> leb (currentTime w i) (currentTime w (S i)) = true.
Proof.
  intros Hf. unfold currentTime, frameInterval, of_N.
  rewrite div_of_Z_pos by lia.
  assert (Hg : leb (Fin 0) (rnd (inject_Z 1 / inject_Z (Z.of_N (fps w))))
               = true).
  { apply rounded_above; [reflexivity|].
    apply Qle_shift_div_l.
    - change 0%Q with (inject_Z 0). rewrite <- Zlt_Qlt. lia.
    - rewrite Qmult_0_l. discriminate. }
  assert (Hg1 : leb (rnd (inject_Z 1 / inject_Z (Z.of_N (fps w)))) (Fin 1)
                = true).
  { apply rounded_below; [reflexivity|].
    apply Qle_shift_div_r.
    - change 0%Q with (inject_Z 0). rewrite <- Zlt_Qlt. lia.
    - rewrite Qmult_1_l. rewrite <- Zle_Qle. lia. }
  destruct (rnd (inject_Z 1 / inject_Z (Z.of_N (fps w)))) as [g| | |] eqn:Eg;
    try discriminate Hg; try discriminate Hg1.
  apply leb_Fin in Hg. unfold counter, mul, of_Z. apply rnd_mono.
  apply Qmult_le_compat_r; [|exact Hg]. rewrite <- Zle_Qle. lia.
Qed.

End Sampling.

(** For a duration that is a binary64 number and a frame rate the
    component offers, the test [currentTime > duration] at the top of the
    loop body is never true when the loop condition holds: the loop only
    ends by its condition.  For a positive finite duration there is then
    at least one frame, the first timestamp is 0, the timestamps do not
    decrease, and every timestamp sampled is at most the duration. *)
Theorem sampling_covers_source :
  forall w : World,
    is_double (duration w) -> In (fps w) offered_fps ->
    (forall i : nat,
        ltb (counter i) (totalFrames w) = true ->
        gtb (currentTime w i) (duration w) = false)
    /\ (forall d : Q,
          duration w = Fin d -> (0 < d)%Q ->
          ltb (counter 0) (totalFrames w) = true
          /\ currentTime w 0 = of_Z 0
          /\ (forall i : nat,
                 leb (currentTime w i) (currentTime w (S i)) = true)
          /\ (forall i : nat,
                 ltb (counter i) (totalFrames w) = true ->
                 leb (currentTime w i) (duration w) = true)).
Proof.
  intros w Hdouble Hin.
  pose proof (offered_rounds_down _ Hin) as Hrate.
  destruct (interval_rounds_down_spec _ Hrate) as (Hf & g & Eg & _).
  split; [intros i; now apply no_break|].
  intros d Hd Hpos.
  assert (Hdd : rnd d = Fin d) by (rewrite Hd in Hdouble; exact Hdouble).
  split; [|split; [|split]].
  - destruct (totalFrames_cases w) as [[n Hn] | [H | [H | H]]].
    + destruct (totalFrames_positive w d n Hd Hdd Hpos Hf Hn) as [Hn1 _].
      rewrite Hn. unfold counter. rewrite ltb_of_Z. apply Z.ltb_lt. cbn. lia.
    + rewrite H. reflexivity.
    + exfalso. unfold totalFrames in H. rewrite Hd in H.
      unfold mul, of_N, of_Z in H.
      destruct (rnd_pos (d * inject_Z (Z.of_N (fps w)))) as [[E _] | [E _]].
      * apply Qmult_lt_0_compat; [exact Hpos|].
        change 0%Q with (inject_Z 0). rewrite <- Zlt_Qlt. lia.
      * rewrite E in H. discriminate H.
      * rewrite E in H. discriminate H.
    + exfalso. unfold totalFrames in H. rewrite Hd in H.
      unfold mul, of_N, of_Z in H.
      destruct (rnd (d * inject_Z (Z.of_N (fps w)))) eqn:E;
        try discriminate H.
      now elim (rnd_not_NaN _ E).
  - unfold currentTime, frameInterval. rewrite Eg.
    unfold counter, mul, of_Z. apply rnd_zero. cbn [Z.of_nat Z.min].
    change (inject_Z (Z.min 0 (2 ^ 53))) with 0%Q. apply Qmult_0_l.
  - intros i. now apply currentTime_mono.
  - intros i Hi. apply gtb_false_leb.
    + unfold currentTime, frameInterval. rewrite Eg. unfold counter, mul, of_Z.
      apply rnd_not_NaN.
    + rewrite Hd. discriminate.
    + now apply no_break.
Qed.

Lemma sampling_covers_source_witness :
  gtb (currentTime (tenth_clip Sepia) 2) (duration (tenth_clip Sepia)) = false
  /\ leb (currentTime (tenth_clip Sepia) 2) (duration (tenth_clip Sepia))
     = true.
Proof.
  destruct (sampling_covers_source (tenth_clip Sepia)) as [Hno H].
  - now vm_compute.
  - simpl. auto.
  - destruct (H tenth) as (_ & _ & _ & Hle); [reflexivity | reflexivity |].
    split; [apply Hno; now vm_compute | apply Hle; now vm_compute].
Defined.

(** A call that did not start a job did nothing. *)
Lemma not_started_trace (fuel : nat) (flow : Flow) (w : World) :
  status (exportVideoFuel fuel flow w) = NotStarted ->
  trace (exportVideoFuel fuel flow w) = [].
Proof.
  unfold exportVideoFuel.
  destruct (negb (videoFile w) || negb (videoRef w)); [reflexivity|].
  destruct (try_block fuel flow w) as [body c]. destruct c; discriminate.
Qed.

Section ProgressProfile.

Lemma ltb_leb_trans (a b c : JsNumber) :
  ltb a b = true -> leb b c = true -> ltb a c = true.
Proof.
  destruct a as [x| | |], b as [y| | |], c as [z| | |];
    try discriminate; try reflexivity.
  rewrite !ltb_Fin, leb_Fin. apply Qlt_le_trans.
Qed.

Lemma leb_ltb_trans (a b c : JsNumber) :
  leb a b = true -> ltb b c = true -> ltb a c = true.
Proof.
  destruct a as [x| | |], b as [y| | |], c as [z| | |];
    try discriminate; try reflexivity.
  rewrite !ltb_Fin, leb_Fin. apply Qle_lt_trans.
Qed.

(** The progress after a frame that is not the last of at most [2^53] is
    strictly between 0 and 100. *)
Lemma ratio_rounds_inside (a n : Z) :
  0 < a -> a <= n -> n <= 2 ^ 53 ->
  let p := mul (div (of_Z a) (of_Z n)) (of_Z 100) in
  ltb (of_Z 0) p = true /\ (a < n -> ltb p (of_Z 100) = true).
Proof.
  intros Ha Han Hn p. subst p.
  assert (Hnq : (0 < inject_Z n)%Q).
  { change 0%Q with (inject_Z 0). rewrite <- Zlt_Qlt. lia. }
  rewrite div_of_Z_pos by lia.
  set (lo := (1 # 9007199254740992)%Q).
  set (hi := (9007199254740991 # 9007199254740992)%Q).
  assert (Hlo : (lo <= inject_Z a / inject_Z n)%Q).
  { apply Qle_shift_div_l; [exact Hnq|].
    apply Qle_trans with (lo * inject_Z (2 ^ 53))%Q.
    - apply Qmult_le_l; [reflexivity|]. rewrite <- Zle_Qle. lia.
    - apply Qle_trans with 1%Q; [now vm_compute|].
      change 1%Q with (inject_Z 1). rewrite <- Zle_Qle. lia. }
  assert (Hr0 : leb (Fin lo) (rnd (inject_Z a / inject_Z n)) = true)
    by (apply rounded_above; [now vm_compute | exact Hlo]).
  assert (Hr1 : leb (rnd (inject_Z a / inject_Z n)) (Fin 1) = true).
  { apply rounded_below; [reflexivity|].
    apply Qle_shift_div_r; [exact Hnq|]. rewrite Qmult_1_l.
    now rewrite <- Zle_Qle. }
  destruct (rnd (inject_Z a / inject_Z n)) as [r| | |] eqn:Er;
    try discriminate Hr0; try discriminate Hr1.
  apply leb_Fin in Hr0. unfold mul, of_Z. split.
  - apply ltb_leb_trans with (rnd (lo * inject_Z 100)); [now vm_compute|].
    apply rnd_mono. apply Qmult_le_compat_r; [exact Hr0 | discriminate].
  - intros Hlt.
    assert (Hhi : (inject_Z a / inject_Z n <= hi)%Q).
    { apply Qle_shift_div_r; [exact Hnq|].
      (* a <= n - 1 <= n - n / 2^53 *)
      apply Qle_trans with (inject_Z (n - 1)); [rewrite <- Zle_Qle; lia|].
      rewrite inject_Z_sub. change (inject_Z 1) with 1%Q.
      assert (T : (inject_Z n * lo <= 1)%Q).
      { apply Qle_trans with (inject_Z (2 ^ 53) * lo)%Q; [|now vm_compute].
        apply Qmult_le_compat_r; [|discriminate]. now rewrite <- Zle_Qle. }
      assert (E : (hi == 1 - lo)%Q) by reflexivity.
      rewrite E. set (nq := inject_Z n) in *. clearbody nq. lra. }
    assert (Hr2 : leb (rnd (inject_Z a / inject_Z n)) (Fin hi) = true)
      by (apply rounded_below; [now vm_compute | exact Hhi]).
    rewrite Er in Hr2. apply leb_Fin in Hr2.
    apply leb_ltb_trans with (rnd (hi * inject_Z 100)); [|now vm_compute].
    apply rnd_mono. apply Qmult_le_compat_r; [exact Hr2 | discriminate].
Qed.

End ProgressProfile.

(** For a frame count of at most 2^53, the progress after frame [k] is the
    binary64 value of [((k + 1) / totalFrames) * 100]; it is above 0, it is
    below 100 for every frame but the last, and it is exactly 100 for the
    last frame (index [totalFrames - 1]): the value 100 is only ever
    emitted after the last frame. *)
Theorem progress_profile :
  forall (fuel : nat) (flow : Flow) (w : World) (n : Z),
    totalFrames w = of_Z n -> n <= 2 ^ 53 ->
    let ps := progress_values (trace (exportVideoFuel fuel flow w)) in
    (forall (k : nat) (p : JsNumber),
        nth_error ps (S k) = Some p ->
        p = mul (div (of_nat (S k)) (of_Z n)) (of_Z 100)
        /\ Z.of_nat (S k) <= n
        /\ ltb (of_Z 0) p = true
        /\ (Z.of_nat (S k) < n -> ltb p (of_Z 100) = true)
        /\ (Z.of_nat (S k) = n -> p = of_Z 100))
    /\ (forall k : nat,
           nth_error ps k = Some (of_Z 100) -> Z.of_nat k = n).
Proof.
  intros fuel flow w n Hn Hn53 ps. subst ps.
  destruct (export_anatomy fuel flow w)
    as (m & m' & _ & Hprog & _ & Hmm & Hadm & _).
  assert (Hbelow : forall j, (j < m)%nat -> Z.of_nat j < n).
  { intros j Hj. specialize (Hadm j ltac:(lia)). unfold loop_test in Hadm.
    apply andb_prop in Hadm. destruct Hadm as [Hadm _].
    rewrite Hn in Hadm. unfold counter in Hadm. rewrite ltb_of_Z in Hadm.
    apply Z.ltb_lt in Hadm. lia. }
  assert (Hps : progress_values (trace (exportVideoFuel fuel flow w)) = []
                \/ progress_values (trace (exportVideoFuel fuel flow w))
                   = of_Z 0 :: map (progress w) (seq 0 m)).
  { rewrite Hprog.
    destruct (status (exportVideoFuel fuel flow w)) eqn:Hst; auto.
    left. rewrite <- Hprog.
    now rewrite (not_started_trace fuel flow w Hst). }
  assert (Hfacts : forall k p,
            nth_error (of_Z 0 :: map (progress w) (seq 0 m)) (S k) = Some p ->
            p = mul (div (of_nat (S k)) (of_Z n)) (of_Z 100)
            /\ Z.of_nat (S k) <= n
            /\ ltb (of_Z 0) p = true
            /\ (Z.of_nat (S k) < n -> ltb p (of_Z 100) = true)
            /\ (Z.of_nat (S k) = n -> p = of_Z 100)).
  { intros k p H. cbn [nth_error] in H. rewrite nth_error_map in H.
    destruct (nth_error (seq 0 m) k) eqn:E; [|discriminate H].
    apply nth_error_seq_inv in E. destruct E as [-> E].
    injection H as <-. cbn [Nat.add].
    specialize (Hbelow k E).
    assert (Ep : progress w k = mul (div (of_nat (S k)) (of_Z n)) (of_Z 100)).
    { rewrite progress_counter, Hn, counter_small by lia. reflexivity. }
    rewrite Ep. unfold of_nat.
    destruct (ratio_rounds_inside (Z.of_nat (S k)) n) as [Hpos Hlt];
      try lia.
    split; [reflexivity|]. split; [lia|]. split; [exact Hpos|].
    split; [exact Hlt|].
    intros ->. rewrite div_same_count by lia. reflexivity. }
  destruct Hps as [-> | ->].
  { split; intros k; destruct k; discriminate. }
  split; [exact Hfacts|].
  intros k H. destruct k as [|k]; [discriminate H|].
  destruct (Hfacts k _ H) as (_ & Hle & _ & Hlt & _).
  destruct (Z.eq_dec (Z.of_nat (S k)) n) as [E|E]; [exact E|].
  exfalso. assert (Hc : ltb (of_Z 100) (of_Z 100) = true) by (apply Hlt; lia).
  discriminate Hc.
Qed.

Lemma progress_profile_witness :
  nth_error (progress_values
               (trace (exportVideo WithFormat (tenth_clip Sepia)))) 1
  = Some (mul (div (of_nat 1) (of_Z 3)) (of_Z 100))
  /\ ltb (mul (div (of_nat 1) (of_Z 3)) (of_Z 100)) (of_Z 100) = true.
Proof.
  destruct (progress_profile 4 WithFormat (tenth_clip Sepia) 3)
    as (Hval & _).
  - now vm_compute.
  - vm_compute. discriminate.
  - split; [now vm_compute|].
    apply (Hval 0%nat); [now vm_compute | reflexivity].
Defined.

(** ** More on the output dimensions *)

Section WidthOrder.

Lemma round_mono (x y : JsNumber) :
  leb x y = true -> leb (round x) (round y) = true.
Proof.
  destruct x as [a| | |], y as [b| | |]; try discriminate; try reflexivity.
  rewrite leb_Fin. intros H. cbn [round]. rewrite leb_of_Z.
  apply Z.leb_le. apply Qfloor_resp_le. lra.
Qed.

Lemma mul_height_mono (h : Z) (x y : JsNumber) :
  0 < h -> leb (of_Z 0) x = true -> leb x y = true ->
  leb (mul (of_Z h) x) (mul (of_Z h) y) = true.
Proof.
  intros Hh H0 Hxy.
  assert (Hhq : (0 < inject_Z h)%Q).
  { change 0%Q with (inject_Z 0). now rewrite <- Zlt_Qlt. }
  destruct x as [a| | |]; try discriminate H0;
    destruct y as [b| | |]; try discriminate Hxy.
  - apply leb_Fin in Hxy. unfold mul, of_Z. apply rnd_mono.
    apply Qmult_le_l; assumption.
  - unfold mul, of_Z. rewrite (Qsign_pos _ Hhq). cbn [inf_of_sign].
    destruct (rnd (inject_Z h * a)) eqn:E; try reflexivity.
    now elim (rnd_not_NaN _ E).
  - unfold mul, of_Z. rewrite (Qsign_pos _ Hhq). reflexivity.
Qed.

End WidthOrder.

(** In [video-edit.tsx], for recorded dimensions that are positive (and
    below 2^32), the width of the output does not decrease when the
    recorded width grows: the roundings of binary64 never invert the
    order.  A recorded width of 0 is outside this order: it counts as
    unknown and gives the 16:9 width.  When the recorded height is 0 and
    the width is not, the quotient is [Infinity] and so is the width. *)
Theorem canvas_width_order :
  forall (vw vw' vh : N) (r : Resolution),
    ((0 < vw)%N -> (vw <= vw')%N -> (vw' < 2 ^ 32)%N ->
     (0 < vh < 2 ^ 32)%N ->
     leb (width (getCanvasDimensions WithFormat vw vh r))
         (width (getCanvasDimensions WithFormat vw' vh r)) = true)
    /\ ((0 < vw)%N -> vh = 0%N ->
        width (getCanvasDimensions WithFormat vw vh r) = PosInf).
Proof.
  intros vw vw' vh r. split.
  - intros Hvw Hle Hvw' Hvh.
    assert (B : Z.of_N (2 ^ 32) = 2 ^ 32) by reflexivity.
    assert (Ha : 0 < Z.of_N vw < 2 ^ 32) by lia.
    assert (Ha' : 0 < Z.of_N vw' < 2 ^ 32) by lia.
    assert (Hb : 0 < Z.of_N vh < 2 ^ 32) by lia.
    unfold getCanvasDimensions, aspectRatio, of_N; cbn [width].
    rewrite (aspect_known _ _ Ha Hb), (aspect_known _ _ Ha' Hb).
    apply round_mono. apply mul_height_mono.
    + destruct r; reflexivity.
    + rewrite <- (div_zero_count (Z.of_N vh)) by lia.
      apply div_counts_mono; lia.
    + apply div_counts_mono; lia.
  - intros Hvw ->. destruct vw as [|a]; [lia|]. destruct r; reflexivity.
Qed.

Lemma canvas_width_order_witness :
  leb (width (getCanvasDimensions WithFormat 21 480 R720p))
      (width (getCanvasDimensions WithFormat 22 480 R720p)) = true
  /\ width (getCanvasDimensions WithFormat 640 0 R720p) = PosInf.
Proof.
  destruct (canvas_width_order 21 22 480 R720p) as [Hle _].
  destruct (canvas_width_order 640 640 0 R720p) as [_ Hinf].
  split.
  - apply Hle.
    + reflexivity.
    + discriminate.
    + reflexivity.
    + split; reflexivity.
  - apply Hinf; reflexivity.
Defined.

(** ** More on the canvas worker *)

(** The worker answers a message exactly when its buffer is not empty and
    holds 4 x width x height bytes; the answer then has as many bytes, for
    every filter, so it is itself a frame the worker accepts for the same
    dimensions, with any filter.  A frame of width or height zero is
    never answered. *)
Theorem onmessage_answers :
  forall m : FrameMessage,
    (onmessage m = None
     <-> List.length (frameImageData m) <> (4 * msg_width m * msg_height m)%nat
         \/ frameImageData m = [])
    /\ (msg_width m = 0%nat \/ msg_height m = 0%nat -> onmessage m = None)
    /\ (forall out : list Z,
           onmessage m = Some out ->
           List.length out = List.length (frameImageData m)
           /\ forall f : VideoFilter,
               exists out' : list Z,
                 onmessage {| frameImageData := out;
                              msg_width := msg_width m;
                              msg_height := msg_height m;
                              msg_filter := f |} = Some out').
Proof.
  intros m.
  assert (Hnone : onmessage m = None
                  <-> List.length (frameImageData m)
                      <> (4 * msg_width m * msg_height m)%nat
                      \/ frameImageData m = []).
  { pose proof (onmessage_accepts m) as Hacc.
    destruct (onmessage m) as [out|] eqn:E.
    - split; [discriminate|]. destruct Hacc as [_ Hacc].
      destruct Hacc as [H1 H2]; [eauto|].
      intros [H | H]; [contradiction|]. rewrite H in H2. now elim H2.
    - split; [|reflexivity]. intros _.
      destruct (Nat.eq_dec (List.length (frameImageData m))
                           (4 * msg_width m * msg_height m)) as [H1|H1];
        [|now left].
      right. destruct (frameImageData m) as [|b l] eqn:El; [reflexivity|].
      exfalso. destruct Hacc as [Hacc _].
      destruct Hacc as [out Hout]; [|discriminate Hout].
      split; [exact H1 | discriminate]. }
  split; [exact Hnone|]. split.
  - intros Hz. apply Hnone.
    destruct (frameImageData m) as [|b l]; [now right|]. left.
    cbn [List.length]. destruct Hz as [-> | ->]; lia.
  - intros out Hout.
    assert (Hne : List.length (frameImageData m) <> 0%nat).
    { apply (onmessage_accepts m). eauto. }
    apply onmessage_some in Hout.
    destruct Hout as [Hlen ->].
    destruct (pixels_of_whole _ _ Hlen) as [Hn _].
    assert (Hl : List.length
                   (bytes_of (map (draw_filtered
                                     (canvas_filter (msg_filter m)))
                                  (pixels_of (frameImageData m))))
                 = List.length (frameImageData m)).
    { rewrite length_bytes_of, length_map, Hn. lia. }
    split; [exact Hl|].
    intros f. apply (onmessage_accepts
                       {| frameImageData := _; msg_width := msg_width m;
                          msg_height := msg_height m; msg_filter := f |}).
    cbn [frameImageData msg_width msg_height]. rewrite Hl. split; [lia|].
    exact Hne.
Qed.

Lemma onmessage_answers_witness :
  onmessage {| frameImageData := [1; 2; 3]; msg_width := 1; msg_height := 1;
               msg_filter := Sepia |} = None
  /\ onmessage {| frameImageData := []; msg_width := 0; msg_height := 7;
                  msg_filter := Sepia |} = None
  /\ List.length [245; 255; 0; 7] = 4%nat.
Proof.
  destruct (onmessage_answers
              {| frameImageData := [1; 2; 3]; msg_width := 1; msg_height := 1;
                 msg_filter := Sepia |}) as (Hnone & _ & _).
  destruct (onmessage_answers
              {| frameImageData := []; msg_width := 0; msg_height := 7;
                 msg_filter := Sepia |}) as (_ & Hzero & _).
  destruct (onmessage_answers
              {| frameImageData := [10; 0; 255; 7]; msg_width := 1;
                 msg_height := 1; msg_filter := Invert |}) as (_ & _ & Hsome).
  split; [|split].
  - apply Hnone. left. cbn. lia.
  - apply Hzero. now left.
  - apply (Hsome [245; 255; 0; 7]). reflexivity.
Defined.


(* ================================================================== *)
(** * The notifications about the file and the preview canvas *)

Section FileSize.

Lemma number_to_string_zero : number_to_string 0 = "0"%string.
Proof. reflexivity. Qed.

(** A whole number is printed with two zero decimals. *)
Lemma toFixed2_whole (n : N) :
  toFixed2 (of_N n) = (number_to_string n ++ ".00")%string.
Proof.
  unfold toFixed2, of_N, of_Z.
  assert (Hs : Qsign (inject_Z (Z.of_N n)) <> Lt).
  { destruct n as [|p]; [discriminate|].
    rewrite Qsign_inject_Z_pos by reflexivity. discriminate. }
  assert (Hf : Qfloor (inject_Z (Z.of_N n) * inject_Z 100 + (1 # 2))
               = 100 * Z.of_N n).
  { assert (E : (inject_Z (Z.of_N n) * inject_Z 100 + (1 # 2)
                 == (200 * Z.of_N n + 1) # 2)%Q).
    { cbv [Qeq Qplus Qmult inject_Z Qnum Qden].
      rewrite ?Pos2Z.inj_mul. ring. }
    rewrite E. unfold Qfloor. cbn [Qnum Qden].
    replace (200 * Z.of_N n + 1) with (1 + (100 * Z.of_N n) * 2) by ring.
    rewrite Z.div_add by lia. reflexivity. }
  destruct (Qsign (inject_Z (Z.of_N n))) eqn:Es; try (now elim Hs);
    rewrite Hf;
    replace (Z.to_N (100 * Z.of_N n)) with (n * 100)%N by lia;
    rewrite N.div_mul, N.Div0.mod_mul by discriminate; reflexivity.
Qed.

Lemma string_append_assoc (a b c : string) :
  ((a ++ b) ++ c = a ++ (b ++ c))%string.
Proof.
  induction a as [|x a IH]; simpl; [reflexivity | now rewrite IH].
Qed.

Lemma mebi_value : mebi = of_Z 1048576.
Proof. now vm_compute. Qed.

End FileSize.

(** The toast of [handleVideoLoaded] in [video-edit.tsx] announces the
    size of the file in bytes, followed by "MB": in
    [videoFile?.size || 0 / (1024 * 1024)] the division applies to the 0
    only.  The toast of [handleUpload] in the earlier variant divides the
    size: a file of k MiB, for k up to 2^53 (the size is then a binary64
    number, and so is the quotient), is announced there as [k.00 MB], and
    in [video-edit.tsx] as [(1048576 k).00 MB]. *)
Theorem size_in_toasts :
  forall (name : string) (size k vw vh : N),
    loaded_toast (Some {| file_name := name; file_size := size |}) vw vh
    = (name ++ " (" ++ number_to_string size ++ ".00 MB) - Aspect Ratio: "
       ++ number_to_string vw ++ "x" ++ number_to_string vh)%string
    /\ ((k <= 2 ^ 53)%N ->
        upload_toast {| file_name := name; file_size := k * 1048576 |}
        = (name ++ " (" ++ number_to_string k ++ ".00 MB)")%string).
Proof.
  intros name size k vw vh. split.
  - unfold loaded_toast. cbn [file_name file_size].
    assert (E : toFixed2 (or_else (of_N size) (div (of_Z 0) mebi))
                = (number_to_string size ++ ".00")%string).
    { destruct size as [|p].
      - now vm_compute.
      - unfold or_else, of_N, of_Z, truthy.
        rewrite Qsign_inject_Z_pos by reflexivity.
        apply (toFixed2_whole (N.pos p)). }
    rewrite E, string_append_assoc. reflexivity.
  - intros Hk. unfold upload_toast. cbn [file_name file_size].
    assert (B : Z.of_N (2 ^ 53) = 2 ^ 53) by reflexivity.
    assert (E : div (of_N (k * 1048576)) mebi = of_N k).
    { rewrite mebi_value. unfold of_N. rewrite div_of_Z_pos by lia.
      rewrite (rnd_compat _ (inject_Z (Z.of_N k))).
      - apply rnd_int. lia.
      - rewrite N2Z.inj_mul, inject_Z_mult. field. }
    rewrite E, toFixed2_whole, string_append_assoc. reflexivity.
Qed.

Lemma size_in_toasts_witness :
  loaded_toast (Some {| file_name := "clip.mp4"; file_size := 3145728 |})
               640 480
  = "clip.mp4 (3145728.00 MB) - Aspect Ratio: 640x480"%string
  /\ upload_toast {| file_name := "clip.mp4"; file_size := 3 * 1048576 |}
     = "clip.mp4 (3.00 MB)"%string.
Proof.
  destruct (size_in_toasts "clip.mp4" 3145728 3 640 480) as [H1 H2].
  split; [exact H1 | apply H2; vm_compute; discriminate].
Defined.

(** In [video-edit.tsx], [handleVideoLoaded] records the dimensions of the
    loaded video but sizes the preview canvas from the dimensions recorded
    before: the canvas keeps the earlier aspect ratio until the resolution
    is changed, and only then takes the aspect ratio of the video.  With
    16:9 recorded before (as at the start) and a 4:3 video, the canvas is
    1280 x 720 after loading at 720p, and 1440 x 1080 or 720 x 540 after
    a change of the resolution. *)
Theorem preview_canvas_is_stale :
  forall (s : Preview) (d0 : Dimensions) (vw vh : N),
    pv_canvas s = Some d0 ->
    let s' := handleVideoLoaded WithFormat s (Some (vw, vh)) in
    pv_videoWidth s' = vw /\ pv_videoHeight s' = vh
    /\ pv_canvas s'
       = Some (getCanvasDimensions WithFormat (pv_videoWidth s)
                 (pv_videoHeight s) (pv_resolution s))
    /\ (forall r : Resolution,
           r <> pv_resolution s ->
           pv_canvas (setResolution WithFormat s' r true)
           = Some (getCanvasDimensions WithFormat vw vh r))
    /\ (forall j k : N,
           (0 < j)%N -> (0 < k)%N ->
           pv_videoWidth s = (16 * j)%N -> pv_videoHeight s = (9 * j)%N ->
           vw = (4 * k)%N -> vh = (3 * k)%N ->
           pv_resolution s = R720p ->
           pv_canvas s' = Some (dims 1280 720)
           /\ pv_canvas (setResolution WithFormat s' R1080p true)
              = Some (dims 1440 1080)
           /\ pv_canvas (setResolution WithFormat s' R540p true)
              = Some (dims 720 540)).
Proof.
  intros s d0 vw vh Hc s'.
  assert (Hs' : s' = {| pv_videoWidth := vw; pv_videoHeight := vh;
                        pv_resolution := pv_resolution s;
                        pv_canvas :=
                          Some (getCanvasDimensions WithFormat
                                  (pv_videoWidth s) (pv_videoHeight s)
                                  (pv_resolution s));
                        pv_outputCanvas :=
                          match pv_outputCanvas s with
                          | Some _ =>
                              Some (getCanvasDimensions WithFormat
                                      (pv_videoWidth s) (pv_videoHeight s)
                                      (pv_resolution s))
                          | None => None
                          end |}).
  { subst s'. unfold handleVideoLoaded. now rewrite Hc. }
  assert (Hset : forall r, r <> pv_resolution s ->
            pv_canvas (setResolution WithFormat s' r true)
            = Some (getCanvasDimensions WithFormat vw vh r)).
  { intros r Hr. rewrite Hs'. unfold setResolution.
    cbn [pv_resolution pv_videoWidth pv_videoHeight pv_canvas pv_outputCanvas].
    destruct (resolution_eqb r (pv_resolution s)) eqn:E.
    - exfalso. apply Hr. destruct r, (pv_resolution s);
        (reflexivity || discriminate E).
    - reflexivity. }
  split; [now rewrite Hs'|]. split; [now rewrite Hs'|].
  split; [now rewrite Hs'|]. split; [exact Hset|].
  intros j k Hj Hk Hw Hh -> -> Hr.
  assert (H43 : aspectRatio WithFormat (4 * k) (3 * k)
                = div (of_Z 4) (of_Z 3)).
  { unfold aspectRatio, of_N.
    rewrite (div_same_ratio _ _ 4 3) by lia. now vm_compute. }
  assert (H169 : aspectRatio WithFormat (16 * j) (9 * j)
                 = div (of_Z 16) (of_Z 9)).
  { unfold aspectRatio, of_N.
    rewrite (div_same_ratio _ _ 16 9) by lia. now vm_compute. }
  split; [|split].
  - rewrite Hs'. cbn [pv_canvas]. rewrite Hw, Hh, Hr.
    unfold getCanvasDimensions. rewrite H169. now vm_compute.
  - rewrite Hset by (rewrite Hr; discriminate).
    unfold getCanvasDimensions. rewrite H43. now vm_compute.
  - rewrite Hset by (rewrite Hr; discriminate).
    unfold getCanvasDimensions. rewrite H43. now vm_compute.
Qed.

Lemma preview_canvas_is_stale_witness :
  let s := {| pv_videoWidth := 16; pv_videoHeight := 9;
              pv_resolution := R720p;
              pv_canvas := Some (dims 300 150);
              pv_outputCanvas := Some (dims 300 150) |} in
  pv_canvas (handleVideoLoaded WithFormat s (Some (640%N, 480%N)))
  = Some (dims 1280 720)
  /\ pv_canvas (setResolution WithFormat
                  (handleVideoLoaded WithFormat s (Some (640%N, 480%N)))
                  R540p true)
     = Some (dims 720 540).
Proof.
  intros s.
  destruct (preview_canvas_is_stale s (dims 300 150) 640 480 eq_refl)
    as (_ & _ & _ & _ & H).
  destruct (H 1%N 160%N) as (H1 & _ & H3); try reflexivity.
  split; [exact H1 | exact H3].
Defined.

(* ================================================================== *)
(** * The ffmpeg flow *)

(** The command given to ffmpeg always names the input after [-i] and ends
    with the output, has [-vf] exactly for the filters other than none,
    then followed by a filter description that is not empty, and has no
    empty argument; the worker writes the uploaded file under the name the
    command reads and reads the result under the name the command
    writes. *)
Theorem ffmpeg_command_wellformed :
  forall f : VideoFilter,
    nth_error (command f) 0 = Some "-i"%string
    /\ ~ In ""%string (command f)
    /\ (In "-vf"%string (command f) <-> f <> FilterNone)
    /\ (f <> FilterNone ->
        command f = ["-i"; "input.mp4"; "-vf"; filterCmd f; "output.mp4"]%string
        /\ filterCmd f <> ""%string)
    /\ (forall (s : FfmpegState) (e : FfmpegRun) (name : string),
           (In (FWriteFile name) (fst (worker_listener s f e)) ->
            nth_error (command f) 1 = Some name)
           /\ (In (FReadFile name) (fst (worker_listener s f e)) ->
               last (command f) ""%string = name)).
Proof.
  intros f. split; [destruct f; reflexivity|]. split.
  { destruct f; cbn; intros H;
      repeat (destruct H as [H | H]; [discriminate H|]); exact H. }
  split.
  { destruct f; cbn; split; intros H; try discriminate; try (now elim H);
      try (repeat (destruct H as [H | H]; [discriminate H|]); now elim H);
      auto. }
  split.
  { intros Hf. destruct f; try (now elim Hf); split;
      (reflexivity || discriminate). }
  intros s e name.
  assert (Hops : forall o, In o (fst (worker_listener s f e)) ->
            o = FLoad \/ o = FWriteFile "input.mp4" \/ o = FOnProgress
            \/ o = FExec (command f) \/ o = FReadFile "output.mp4"
            \/ exists m, o = FPost m).
  { intros o. unfold worker_listener.
    destruct (ffmpeg_loaded s), (fault e); cbn [fst];
      rewrite ?in_app_iff; cbn [In]; rewrite ?in_app_iff; cbn [In];
      rewrite ?in_flat_map;
      intros H;
      repeat match goal with
        | H : _ \/ _ |- _ => destruct H as [H | H]
        | H : False |- _ => now elim H
        | H : exists _, _ /\ _ |- _ =>
            let p := fresh "p" in
            let Hp := fresh "Hp" in
            destruct H as (p & _ & Hp); apply repeat_spec in Hp
        end;
      subst; eauto 10. }
  split; intros H; apply Hops in H;
    destruct H as [H | [H | [H | [H | [H | [m H]]]]]];
    try discriminate H; injection H as ->; destruct f; reflexivity.
Qed.

Lemma ffmpeg_command_wellformed_witness :
  command Grayscale = ["-i"; "input.mp4"; "-vf"; "format=gray"; "output.mp4"]%string.
Proof.
  apply (ffmpeg_command_wellformed Grayscale). discriminate.
Defined.

Section WorkerJobs.

Lemma posted_app (a b : list FfmpegOp) : posted (a ++ b) = posted a ++ posted b.
Proof. apply flat_map_app. Qed.

Lemma posted_progress_events (h : nat) (events : list JsNumber) :
  posted (flat_map (fun p => repeat (FPost (ProgressMessage p)) h) events)
  = flat_map (fun p => repeat (ProgressMessage p) h) events.
Proof.
  induction events as [|p events IH]; [reflexivity|].
  cbn [flat_map]. rewrite posted_app, IH. f_equal.
  clear. induction h as [|h IH]; [reflexivity|].
  cbn [repeat]. unfold posted in *. cbn [flat_map app]. now rewrite IH.
Qed.

(** One job without a failure. *)
Lemma worker_listener_no_fault (s : FfmpegState) (f : VideoFilter)
                               (e : FfmpegRun) :
  fault e = NoFault ->
  posted (fst (worker_listener s f e))
  = flat_map (fun p => repeat (ProgressMessage p) (S (progress_handlers s)))
             (exec_progress e)
    ++ [DoneMessage (blob_url e) (of_Z 100)]
  /\ (In FLoad (fst (worker_listener s f e)) <-> ffmpeg_loaded s = false)
  /\ snd (worker_listener s f e)
     = {| ffmpeg_loaded := true;
          progress_handlers := S (progress_handlers s) |}.
Proof.
  intros Hf. unfold worker_listener. rewrite Hf.
  destruct (ffmpeg_loaded s); cbn [fst snd].
  - split; [|split; [|reflexivity]].
    + rewrite !posted_app, posted_progress_events. reflexivity.
    + split; [|discriminate]. rewrite !in_app_iff, in_flat_map. cbn [In].
      intros H.
      repeat match goal with
        | H : _ \/ _ |- _ => destruct H as [H | H]
        | H : False |- _ => now elim H
        end; try discriminate H.
      destruct H as (p & _ & Hp). apply repeat_spec in Hp. discriminate Hp.
  - split; [|split; [|reflexivity]].
    + rewrite !posted_app, posted_progress_events. reflexivity.
    + split; [reflexivity|]. intros _. now left.
Qed.

Lemma worker_jobs_no_fault (jobs : list (VideoFilter * FfmpegRun)) :
  Forall no_fault jobs ->
  forall (s : FfmpegState) (k : nat) (f : VideoFilter) (e : FfmpegRun),
    nth_error jobs k = Some (f, e) ->
    exists ops : list FfmpegOp,
      nth_error (fst (worker_jobs s jobs)) k = Some ops
      /\ posted ops
         = flat_map (fun p => repeat (ProgressMessage p)
                                     (S (progress_handlers s + k)))
                    (exec_progress e)
           ++ [DoneMessage (blob_url e) (of_Z 100)]
      /\ (In FLoad ops <-> k = 0%nat /\ ffmpeg_loaded s = false).
Proof.
  induction 1 as [|[f0 e0] jobs Hj _ IH]; intros s k f e Hk.
  - destruct k; discriminate Hk.
  - cbn [worker_jobs].
    destruct (worker_listener_no_fault s f0 e0 Hj) as (Hp & Hl & Hs).
    destruct (worker_listener s f0 e0) as [ops s1]. cbn [fst snd] in *.
    specialize (IH s1).
    destruct (worker_jobs s1 jobs) as [more s2]. cbn [fst] in *.
    destruct k as [|k]; cbn [nth_error] in *.
    + injection Hk as <- <-. exists ops. rewrite Nat.add_0_r.
      split; [reflexivity|]. split; [exact Hp|].
      rewrite Hl. intuition.
    + destruct (IH k f e Hk) as (ops' & Hn & Hp' & Hl').
      exists ops'. split; [exact Hn|]. subst s1.
      cbn [progress_handlers ffmpeg_loaded] in *. split.
      * rewrite Hp'. now replace (S (progress_handlers s) + k)%nat
          with (progress_handlers s + S k)%nat by lia.
      * rewrite Hl'. split; [intros [_ H]; discriminate H|].
        intros [H _]. discriminate H.
Qed.

End WorkerJobs.

(** The worker registers one more progress handler with every message and
    removes none: over a sequence of jobs in which ffmpeg does not fail,
    starting with a fresh worker, job number k + 1 posts every progress
    event of ffmpeg k + 1 times, in order, followed by one message with
    the url and the progress 100; ffmpeg is loaded in the first job
    only. *)
Theorem progress_posted_per_job :
  forall (jobs : list (VideoFilter * FfmpegRun)) (k : nat)
         (f : VideoFilter) (e : FfmpegRun),
    Forall no_fault jobs ->
    nth_error jobs k = Some (f, e) ->
    exists ops : list FfmpegOp,
      nth_error (fst (worker_jobs fresh_worker jobs)) k = Some ops
      /\ posted ops
         = flat_map (fun p => repeat (ProgressMessage p) (S k))
                    (exec_progress e)
           ++ [DoneMessage (blob_url e) (of_Z 100)]
      /\ (In FLoad ops <-> k = 0%nat).
Proof.
  intros jobs k f e Hjobs Hk.
  destruct (worker_jobs_no_fault jobs Hjobs fresh_worker k f e Hk)
    as (ops & Hn & Hp & Hl).
  exists ops. split; [exact Hn|]. split; [exact Hp|].
  rewrite Hl. cbn. intuition.
Qed.

Lemma progress_posted_per_job_witness :
  exists ops : list FfmpegOp,
    nth_error (fst (worker_jobs fresh_worker two_jobs)) 1 = Some ops
    /\ posted ops
       = [ProgressMessage (Fin (1 # 4)); ProgressMessage (Fin (1 # 4));
          DoneMessage "blob:2" (of_Z 100)].
Proof.
  destruct (progress_posted_per_job two_jobs 1 Invert
              {| fault := NoFault; exec_progress := [Fin (1 # 4)];
                 blob_url := "blob:2" |})
    as (ops & Hn & Hp & _).
  - repeat constructor.
  - reflexivity.
  - exists ops. split; [exact Hn | exact Hp].
Defined.

Section Listener.

Lemma after_messages_app (s : FilterUi) (a b : list WorkerMessage) :
  after_messages s (a ++ b) = after_messages (after_messages s a) b.
Proof. apply fold_left_app. Qed.

(** A message without a url leaves [processing] and the url alone. *)
Lemma progress_message_keeps (s : FilterUi) (p : JsNumber) :
  ui_processing (worker_onmessage s (ProgressMessage p)) = ui_processing s
  /\ ui_filteredVideoUrl (worker_onmessage s (ProgressMessage p))
     = ui_filteredVideoUrl s.
Proof.
  unfold worker_onmessage. cbn [message_progress].
  destruct (is_zero p); split; reflexivity.
Qed.

Lemma progress_messages_keep (events : list JsNumber) :
  forall s : FilterUi,
    ui_processing (after_messages s (map ProgressMessage events))
    = ui_processing s
    /\ ui_filteredVideoUrl (after_messages s (map ProgressMessage events))
       = ui_filteredVideoUrl s.
Proof.
  induction events as [|p events IH]; intros s; [split; reflexivity|].
  cbn [map after_messages fold_left].
  destruct (IH (worker_onmessage s (ProgressMessage p))) as [H1 H2].
  destruct (progress_message_keeps s p) as [H3 H4].
  unfold after_messages in *. rewrite H1, H2. now split.
Qed.

(** A message with a url ends the job on the component's side. *)
Lemma done_message_resets (s : FilterUi) (url : string) (p : JsNumber) :
  url <> ""%string ->
  ui_processing (worker_onmessage s (DoneMessage url p)) = false
  /\ ui_progress (worker_onmessage s (DoneMessage url p)) = None
  /\ ui_filteredVideoUrl (worker_onmessage s (DoneMessage url p)) = Some url.
Proof.
  intros Hu. unfold worker_onmessage.
  destruct (String.eqb_spec url ""); [contradiction|].
  cbn [message_progress].
  destruct (is_zero p); cbn [toastIdRef];
    [destruct (next_toast s) | destruct (toastIdRef s) as [[|id]|]];
    repeat split.
Qed.

(** What the messages of a failed job are: progress messages only. *)
Lemma failed_job_posts (st : FfmpegState) (f : VideoFilter) (e : FfmpegRun) :
  fault e = WriteFails \/ fault e = ExecFails \/ fault e = ReadFails ->
  exists events : list JsNumber,
    posted (fst (worker_listener st f e)) = map ProgressMessage events.
Proof.
  intros Hf. unfold worker_listener.
  assert (Hrep : forall h,
            posted (flat_map (fun p => repeat (FPost (ProgressMessage p)) h)
                             (exec_progress e))
            = map ProgressMessage
                  (flat_map (fun p => repeat p h) (exec_progress e))).
  { intros h. rewrite posted_progress_events.
    induction (exec_progress e) as [|p l IH]; [reflexivity|].
    cbn [flat_map]. rewrite map_app, IH. f_equal.
    clear. induction h as [|h IH]; [reflexivity|].
    cbn [repeat map]. now rewrite IH. }
  destruct Hf as [Hf | [Hf | Hf]]; rewrite Hf;
    destruct (ffmpeg_loaded st); cbn [fst];
    rewrite ?posted_app, ?Hrep; cbn [posted flat_map app];
    rewrite ?app_nil_r; eauto; now exists [].
Qed.

(** One progress message and the loading toasts. *)
Lemma progress_message_toasts (s : FilterUi) (p : JsNumber) :
  toasts_consistent s ->
  let s1 := worker_onmessage s (ProgressMessage p) in
  toasts_consistent s1
  /\ List.length (loading_toasts s1)
     = (List.length (loading_toasts s) + if is_zero p then 1 else 0)%nat
  /\ (toastIdRef s1 = None <-> toastIdRef s = None /\ is_zero p = false).
Proof.
  intros (Hn & Hb & Hr) s1. subst s1. unfold worker_onmessage.
  cbn [message_progress]. destruct (is_zero p).
  - split; [|split].
    + unfold toasts_consistent.
      cbn [next_toast loading_toasts toastIdRef]. split; [lia|]. split.
      * intros t [<- | Ht]; [lia|]. specialize (Hb t Ht). lia.
      * intros id [= <-]. exists (loading_toasts s). split; [reflexivity|].
        intros t Ht. specialize (Hb t Ht). lia.
    + cbn [loading_toasts List.length]. lia.
    + cbn [toastIdRef]. split; [discriminate | intros [_ H]; discriminate H].
  - split; [|split].
    + unfold toasts_consistent.
      cbn [next_toast loading_toasts toastIdRef]. auto.
    + cbn [loading_toasts]. lia.
    + cbn [toastIdRef]. intuition.
Qed.

Lemma zeros_cons (p : JsNumber) (events : list JsNumber) :
  zeros (p :: events) = ((if is_zero p then 1 else 0) + zeros events)%nat.
Proof.
  unfold zeros. cbn [List.filter]. destruct (is_zero p); reflexivity.
Qed.

Lemma progress_messages_toasts (events : list JsNumber) :
  forall s : FilterUi,
    toasts_consistent s ->
    let s1 := after_messages s (map ProgressMessage events) in
    toasts_consistent s1
    /\ List.length (loading_toasts s1)
       = (List.length (loading_toasts s) + zeros events)%nat
    /\ (toastIdRef s1 = None <-> toastIdRef s = None /\ zeros events = 0%nat)
    /\ (zeros events = 0%nat ->
        loading_toasts s1 = loading_toasts s
        /\ toastIdRef s1 = toastIdRef s).
Proof.
  induction events as [|p events IH]; intros s Hs.
  - cbn. split; [exact Hs|]. split; [lia|]. split; [intuition | now split].
  - cbn [map after_messages fold_left].
    destruct (progress_message_toasts s p Hs) as (Hs0 & Hl0 & Hr0).
    destruct (IH _ Hs0) as (Hs1 & Hl1 & Hr1 & Hk1).
    unfold after_messages in *. rewrite zeros_cons.
    split; [exact Hs1|]. split; [rewrite Hl1, Hl0; lia|]. split.
    + rewrite Hr1, Hr0.
      destruct (is_zero p); intuition (try discriminate; lia).
    + intros Hz. destruct (is_zero p) eqn:Ep; [discriminate Hz|].
      destruct (Hk1 Hz) as [K1 K2]. rewrite K1, K2.
      unfold worker_onmessage. cbn [message_progress]. rewrite Ep.
      now split.
Qed.

Lemma filter_newest (id : nat) (rest : list nat) :
  (forall t, In t rest -> (t < id)%nat) ->
  List.filter (fun t => negb (Nat.eqb t id)) (id :: rest) = rest.
Proof.
  intros H. cbn [List.filter]. rewrite Nat.eqb_refl. cbn [negb].
  apply filter_all, Forall_forall. intros t Ht.
  apply Bool.negb_true_iff, Nat.eqb_neq. specialize (H t Ht). lia.
Qed.

End Listener.

(** In the component of the ffmpeg flow, [processing] is cleared by a
    message that carries a url, whatever came before, and by no other
    message: the message resets the progress to null and publishes the
    url.  When ffmpeg fails while writing, executing or reading, the worker
    posts no such message, so after [applyFilterEffect] the component
    stays in the processing state with no url. *)
Theorem processing_ends_with_url :
  forall (s : FilterUi) (ms : list WorkerMessage) (url : string) (p : JsNumber),
    (url <> ""%string ->
     let s' := after_messages s (ms ++ [DoneMessage url p]) in
     ui_processing s' = false /\ ui_progress s' = None
     /\ ui_filteredVideoUrl s' = Some url)
    /\ (forall events : list JsNumber,
           let s' := after_messages s (map ProgressMessage events) in
           ui_processing s' = ui_processing s
           /\ ui_filteredVideoUrl s' = ui_filteredVideoUrl s)
    /\ (forall (st : FfmpegState) (f : VideoFilter) (e : FfmpegRun),
           fault e = WriteFails \/ fault e = ExecFails \/ fault e = ReadFails ->
           let s' := after_messages (fst (applyFilterEffect true true s))
                       (posted (fst (worker_listener st f e))) in
           ui_processing s' = true
           /\ ui_filteredVideoUrl s' = ui_filteredVideoUrl s).
Proof.
  intros s ms url p. split; [|split].
  - intros Hu s'. subst s'. rewrite after_messages_app.
    apply (done_message_resets _ url p Hu).
  - intros events. apply progress_messages_keep.
  - intros st f e Hf s'. subst s'.
    destruct (failed_job_posts st f e Hf) as [events ->].
    destruct (progress_messages_keep events
                (fst (applyFilterEffect true true s))) as [H1 H2].
    rewrite H1, H2. split; reflexivity.
Qed.

Lemma processing_ends_with_url_witness :
  ui_processing
    (after_messages mounted_ui
       ([ProgressMessage (Fin 0)] ++ [DoneMessage "blob:1" (of_Z 100)]))
  = false
  /\ ui_processing
       (after_messages (fst (applyFilterEffect true true mounted_ui))
          (posted (fst (worker_listener fresh_worker Sepia
                          {| fault := ReadFails;
                             exec_progress := [Fin 0; Fin (1 # 2)];
                             blob_url := "blob:1" |}))))
     = true.
Proof.
  destruct (processing_ends_with_url mounted_ui [ProgressMessage (Fin 0)]
              "blob:1" (of_Z 100)) as (Hdone & _ & Hfail).
  split.
  - apply Hdone. discriminate.
  - apply (Hfail fresh_worker Sepia). right. right. reflexivity.
Defined.

(** Every progress message with the value 0 opens a loading toast and
    overwrites the id kept in [toastIdRef]; the message with the url
    dismisses the toast of the id kept then, and only that one, and
    empties [toastIdRef].  So a job whose progress events contain z zeros
    opens z loading toasts and dismisses one toast: the last it opened,
    or, when it opened none, the one whose id was still kept from an
    earlier job (the newest on screen); it dismisses none only when it
    opened none and no id was kept. *)
Theorem loading_toasts_left :
  forall (s : FilterUi) (events : list JsNumber) (url : string),
    toasts_consistent s -> url <> ""%string ->
    let s' := after_messages s (map ProgressMessage events
                                ++ [DoneMessage url (of_Z 100)]) in
    let dismissed := match toastIdRef s, zeros events with
                     | None, O => 0%nat
                     | _, _ => 1%nat
                     end in
    (List.length (loading_toasts s') + dismissed
     = List.length (loading_toasts s) + zeros events)%nat
    /\ (zeros events = 0%nat ->
        forall id : nat,
          toastIdRef s = Some id ->
          loading_toasts s = id :: loading_toasts s')
    /\ toastIdRef s' = None
    /\ toasts_consistent s'.
Proof.
  intros s events url Hs Hu s' dismissed. subst s' dismissed.
  rewrite after_messages_app.
  destruct (progress_messages_toasts events s Hs)
    as (Hs1 & Hl1 & Hr1 & Hkeep).
  set (s1 := after_messages s (map ProgressMessage events)) in *.
  cbn [after_messages fold_left]. unfold worker_onmessage.
  destruct (String.eqb_spec url ""); [contradiction|].
  cbn [message_progress]. change (is_zero (of_Z 100)) with false.
  cbn [toastIdRef loading_toasts next_toast].
  destruct Hs1 as (Hn1 & Hb1 & Hrf1).
  destruct (toastIdRef s1) as [id|] eqn:Eid.
  - destruct (Hrf1 id eq_refl) as (rest & Hload & Hrest).
    assert (Hid : (1 <= id)%nat).
    { apply (Hb1 id). rewrite Hload. now left. }
    assert (Hd : match toastIdRef s, zeros events with
                 | None, O => 0%nat
                 | _, _ => 1%nat
                 end = 1%nat).
    { destruct (toastIdRef s) eqn:Es; [reflexivity|].
      destruct (zeros events) eqn:Ez; [|reflexivity].
      exfalso. assert (H : Some id = None); [|discriminate H].
      apply Hr1. now split. }
    rewrite Hd.
    destruct id as [|id]; [lia|].
    cbn [loading_toasts toastIdRef next_toast].
    rewrite Hload, filter_newest by exact Hrest.
    split; [|split; [|split; [reflexivity|]]].
    + rewrite Hload in Hl1. cbn [List.length] in Hl1. lia.
    + intros Hz id0 Hid0. destruct (Hkeep Hz) as [Hsame Hsame'].
      rewrite <- Hsame, Hload. f_equal.
      rewrite <- Hsame' in Hid0. now injection Hid0.
    + unfold toasts_consistent.
      cbn [loading_toasts toastIdRef next_toast].
      split; [exact Hn1|]. split; [|discriminate].
      intros t Ht. apply Hb1. rewrite Hload. now right.
  - cbn [loading_toasts toastIdRef next_toast].
    assert (Hz : toastIdRef s = None /\ zeros events = 0%nat)
      by (apply Hr1; reflexivity).
    destruct Hz as [Hn Hz]. rewrite Hn, Hz.
    split; [rewrite Hl1, Hz; lia|]. split; [intros _ id H; discriminate H|].
    split; [reflexivity|].
    unfold toasts_consistent. cbn [loading_toasts toastIdRef next_toast].
    split; [exact Hn1|]. split; [exact Hb1|]. discriminate.
Qed.

Lemma loading_toasts_left_witness :
  List.length
    (loading_toasts
       (after_messages mounted_ui
          (map ProgressMessage [Fin 0; Fin 0; Fin (1 # 2)]
           ++ [DoneMessage "blob:1" (of_Z 100)])))
  = 1%nat
  /\ loading_toasts
       (after_messages
          {| ui_progress := None; ui_processing := true;
             ui_filteredVideoUrl := None; toastIdRef := Some 1%nat;
             loading_toasts := [1%nat]; next_toast := 2 |}
          (map ProgressMessage [Fin (1 # 2)]
           ++ [DoneMessage "blob:2" (of_Z 100)]))
     = [].
Proof.
  split.
  - destruct (loading_toasts_left mounted_ui [Fin 0; Fin 0; Fin (1 # 2)]
                "blob:1") as (H & _).
    + unfold toasts_consistent; cbn. split; [lia|].
      split; [intros t []|discriminate].
    + discriminate.
    + cbn in H |- *. lia.
  - destruct (loading_toasts_left
                {| ui_progress := None; ui_processing := true;
                   ui_filteredVideoUrl := None; toastIdRef := Some 1%nat;
                   loading_toasts := [1%nat]; next_toast := 2 |}
                [Fin (1 # 2)] "blob:2") as (_ & H & _).
    + unfold toasts_consistent; cbn. split; [lia|]. split.
      * intros t [<- | []]. lia.
      * intros id [= <-]. exists []. split; [reflexivity | intros t []].
    + discriminate.
    + specialize (H eq_refl 1%nat eq_refl).
      apply (f_equal (@tl nat)) in H. symmetry. exact H.
Defined.
